(** * ralph-tui remote listener: token store and WebSocket server

    A shallow embedding of [src/remote/token.ts] and [src/remote/server.ts]
    (with the record types of [src/remote/types.ts]) and the properties of
    the token life cycle, the per-connection authentication state machine
    and the bind policy that the specification states about them. *)

From Stdlib Require Import ZArith List Bool String Ascii Lia.
Import ListNotations.
Open Scope Z_scope.

(** ** The fragment of JavaScript the code relies on *)

Module JS.

(** A JavaScript string is a sequence of UTF-16 code units. *)
Definition jsstring := list Z.

Definition code_unit (c : Z) : Prop := 0 <= c < 65536.

Definition wf_string (s : jsstring) : Prop := Forall code_unit s.

(** String literals of the source, as code units. *)
Definition lit (s : string) : jsstring :=
  map (fun a => Z.of_N (N_of_ascii a)) (list_ascii_of_string s).

Definition string_eqb (a b : jsstring) : bool :=
  if list_eq_dec Z.eq_dec a b then true else false.

(** [s.length] *)
Definition strlen (s : jsstring) : Z := Z.of_nat (List.length s).

(** The numbers the token comparison computes with: integers and NaN. *)
Inductive number :=
| NaN
| Int (z : Z).

(** [a % b] for integral operands; [x % 0] is NaN. *)
Definition rem (a b : Z) : number :=
  if b =? 0 then NaN else Int (Z.rem a b).

(** [s.charCodeAt(pos)]: the position goes through ToIntegerOrInfinity
    (NaN becomes 0); outside the string the result is NaN. *)
Definition charCodeAt (s : jsstring) (pos : number) : number :=
  let p := match pos with NaN => 0 | Int z => z end in
  if (p <? 0) || (strlen s <=? p) then NaN
  else Int (nth (Z.to_nat p) s 0).

(** [x || d] on numbers: NaN and 0 are falsy. *)
Definition or_else (x d : number) : number :=
  match x with
  | NaN => d
  | Int z => if z =? 0 then d else x
  end.

(** ToInt32: NaN becomes 0, integers wrap modulo 2^32 into
    [-2^31, 2^31). *)
Definition ToInt32 (x : number) : Z :=
  match x with
  | NaN => 0
  | Int z => (z + 2 ^ 31) mod 2 ^ 32 - 2 ^ 31
  end.

(** [a ^ b] and [a | b] *)
Definition bitxor (a b : number) : number :=
  Int (Z.lxor (ToInt32 a) (ToInt32 b)).

Definition bitor (a b : number) : number :=
  Int (Z.lor (ToInt32 a) (ToInt32 b)).

(** [x === 0] *)
Definition is_zero (x : number) : bool :=
  match x with
  | NaN => false
  | Int z => z =? 0
  end.

(** The integer a Number holds when the integer [z] is stored in it: [z]
    itself below 2^53 in magnitude, and beyond that the nearest double, a
    tie going to the even significand (magnitudes below 2^1024, where no
    double is infinite). *)
Definition to_double (z : Z) : Z :=
  let a := Z.abs z in
  if a <? 2 ^ 53 then z
  else
    let ulp := 2 ^ (Z.log2 a - 52) in
    let q := a / ulp in
    let r := a mod ulp in
    let q' := if 2 * r <? ulp then q
              else if ulp <? 2 * r then q + 1
              else if Z.even q then q
              else q + 1 in
    Z.sgn z * (q' * ulp).

(** [a + b] on Numbers that hold integers. *)
Definition add (a b : Z) : Z := to_double (a + b).

(** [s.substring(a, b)] for [0 <= a <= b]. *)
Definition substring (s : jsstring) (a b : nat) : jsstring :=
  firstn (b - a) (skipn a s).

(** [s.slice(0, n)] *)
Definition slice0 (s : jsstring) (n : nat) : jsstring := firstn n s.

(** [for (let i = 0; i < n; i++) acc = body(i, acc)], started at index
    [i] with [todo] iterations left; the second component counts the
    iterations performed. *)
Fixpoint for_loop {A : Type} (todo : nat) (i : Z) (body : Z -> A -> A)
         (st : A * nat) : A * nat :=
  match todo with
  | O => st
  | S k => for_loop k (i + 1) body (body i (fst st), S (snd st))
  end.

(** [Buffer.prototype.toString('base64url')]: RFC 4648 section 5, without
    padding. *)
Definition base64url_alphabet : jsstring :=
  lit "ABCDEFGHIJKLMNOPQRSTUVWXYZabcdefghijklmnopqrstuvwxyz0123456789-_".

Definition b64 (n : Z) : Z := nth (Z.to_nat n) base64url_alphabet 0.

Fixpoint base64url (bs : list Z) : jsstring :=
  match bs with
  | [] => []
  | [a] =>
      [b64 (Z.shiftr a 2); b64 (Z.shiftl (Z.land a 3) 4)]
  | [a; b] =>
      [b64 (Z.shiftr a 2);
       b64 (Z.lor (Z.shiftl (Z.land a 3) 4) (Z.shiftr b 4));
       b64 (Z.shiftl (Z.land b 15) 2)]
  | a :: b :: c :: rest =>
      b64 (Z.shiftr a 2)
      :: b64 (Z.lor (Z.shiftl (Z.land a 3) 4) (Z.shiftr b 4))
      :: b64 (Z.lor (Z.shiftl (Z.land b 15) 2) (Z.shiftr c 6))
      :: b64 (Z.land c 63)
      :: base64url rest
  end.

End JS.

Import JS.

(** ** JSON values and [JSON.parse] *)

Module Json.

(** The values [JSON.parse] produces, and [Undefined] for what a property
    access on them can give.  A number keeps its lexeme: the code never
    computes with a parsed number. *)
#[warnings="-register-all"]
Inductive value :=
| Undefined
| Null
| Bool (b : bool)
| Num (lexeme : jsstring)
| Str (s : jsstring)
| Arr (items : list value)
| Obj (fields : list (jsstring * value)).

(** [v.key] for the keys the server reads ([type], [id], [token]), none of
    which lives on a prototype: the last binding of an object wins, every
    other value has no such property, and [null] and [undefined] raise a
    TypeError ([None]). *)
Fixpoint lookup (k : jsstring) (fields : list (jsstring * value)) : value :=
  match fields with
  | [] => Undefined
  | (k', v) :: rest =>
      match lookup k rest with
      | Undefined => if string_eqb k k' then v else Undefined
      | found => found
      end
  end.

Definition get (v : value) (k : jsstring) : option value :=
  match v with
  | Undefined | Null => None
  | Obj fields => Some (lookup k fields)
  | _ => Some Undefined
  end.

(** [v === 'literal'] *)
Definition is_string (v : value) (s : jsstring) : bool :=
  match v with
  | Str s' => string_eqb s' s
  | _ => false
  end.

Definition is_ws (c : Z) : bool :=
  (c =? 32) || (c =? 9) || (c =? 10) || (c =? 13).

Definition is_digit (c : Z) : bool := (48 <=? c) && (c <=? 57).

Definition hex_digit (c : Z) : option Z :=
  if (48 <=? c) && (c <=? 57) then Some (c - 48)
  else if (65 <=? c) && (c <=? 70) then Some (c - 55)
  else if (97 <=? c) && (c <=? 102) then Some (c - 87)
  else None.

Fixpoint skip_ws (s : jsstring) : jsstring :=
  match s with
  | c :: r => if is_ws c then skip_ws r else s
  | [] => []
  end.

(** The characters of a string after its opening quote, up to the closing
    one; [acc] holds the decoded prefix, reversed. *)
Fixpoint parse_string_body (s acc : jsstring) : option (jsstring * jsstring) :=
  match s with
  | [] => None
  | c :: r =>
      if c =? 34 then Some (rev acc, r)
      else if c <? 32 then None
      else if c =? 92 then
        match r with
        | [] => None
        | e :: r1 =>
            if (e =? 34) || (e =? 92) || (e =? 47) then parse_string_body r1 (e :: acc)
            else if e =? 98 then parse_string_body r1 (8 :: acc)
            else if e =? 102 then parse_string_body r1 (12 :: acc)
            else if e =? 110 then parse_string_body r1 (10 :: acc)
            else if e =? 114 then parse_string_body r1 (13 :: acc)
            else if e =? 116 then parse_string_body r1 (9 :: acc)
            else if e =? 117 then
              match r1 with
              | h1 :: h2 :: h3 :: h4 :: r2 =>
                  match hex_digit h1, hex_digit h2, hex_digit h3, hex_digit h4 with
                  | Some d1, Some d2, Some d3, Some d4 =>
                      parse_string_body r2
                        (((d1 * 16 + d2) * 16 + d3) * 16 + d4 :: acc)
                  | _, _, _, _ => None
                  end
              | _ => None
              end
            else None
        end
      else parse_string_body r (c :: acc)
  end.

(** A maximal run of digits. *)
Fixpoint span_digits (s : jsstring) : jsstring * jsstring :=
  match s with
  | c :: r =>
      if is_digit c then let (d, r') := span_digits r in (c :: d, r')
      else ([], s)
  | [] => ([], [])
  end.

(** A number lexeme: an optional minus sign, an integer part without a
    leading zero, an optional fraction and an optional exponent. *)
Definition parse_number (s : jsstring) : option (jsstring * jsstring) :=
  let (sign, s1) :=
    match s with
    | c :: r => if c =? 45 then ([c], r) else ([], s)
    | [] => ([], s)
    end in
  let (int, s2) := span_digits s1 in
  match int with
  | [] => None
  | d :: ds =>
      if (d =? 48) && negb (match ds with [] => true | _ => false end) then None
      else
        let frac :=
          match s2 with
          | c :: r =>
              if c =? 46 then
                let (f, r') := span_digits r in
                match f with [] => None | _ => Some (c :: f, r') end
              else Some ([], s2)
          | [] => Some ([], s2)
          end in
        match frac with
        | None => None
        | Some (f, s3) =>
            let expo :=
              match s3 with
              | c :: r =>
                  if (c =? 101) || (c =? 69) then
                    let (sg, r1) :=
                      match r with
                      | c' :: r' =>
                          if (c' =? 43) || (c' =? 45) then ([c'], r') else ([], r)
                      | [] => ([], r)
                      end in
                    let (e, r2) := span_digits r1 in
                    match e with [] => None | _ => Some (c :: sg ++ e, r2) end
                  else Some ([], s3)
              | [] => Some ([], s3)
              end in
            match expo with
            | None => None
            | Some (e, s4) => Some (sign ++ int ++ f ++ e, s4)
            end
        end
  end.

(** [expect w s]: [s] without its prefix [w]. *)
Fixpoint expect (w s : jsstring) : option jsstring :=
  match w, s with
  | [], _ => Some s
  | a :: w', b :: s' => if a =? b then expect w' s' else None
  | _ :: _, [] => None
  end.

(** A value, the elements of an array after the first bracket or comma,
    the members of an object after the first brace or comma.  Every call
    spends one unit of fuel and the callers pass more fuel than there
    are characters. *)
Fixpoint parse_value (fuel : nat) (s : jsstring) : option (value * jsstring) :=
  match fuel with
  | O => None
  | S f =>
      match skip_ws s with
      | [] => None
      | c :: r =>
          if c =? 123 then
            match skip_ws r with
            | c' :: r' =>
                if c' =? 125 then Some (Obj [], r') else parse_members f (c' :: r') []
            | [] => None
            end
          else if c =? 91 then
            match skip_ws r with
            | c' :: r' =>
                if c' =? 93 then Some (Arr [], r') else parse_elements f (c' :: r') []
            | [] => None
            end
          else if c =? 34 then
            match parse_string_body r [] with
            | Some (str, r') => Some (Str str, r')
            | None => None
            end
          else if c =? 116 then
            option_map (fun r' => (Bool true, r')) (expect (lit "rue") r)
          else if c =? 102 then
            option_map (fun r' => (Bool false, r')) (expect (lit "alse") r)
          else if c =? 110 then
            option_map (fun r' => (Null, r')) (expect (lit "ull") r)
          else
            option_map (fun p => (Num (fst p), snd p)) (parse_number (c :: r))
      end
  end
with parse_elements (fuel : nat) (s : jsstring) (acc : list value)
     : option (value * jsstring) :=
  match fuel with
  | O => None
  | S f =>
      match parse_value f s with
      | None => None
      | Some (v, r) =>
          match skip_ws r with
          | c :: r' =>
              if c =? 44 then parse_elements f r' (v :: acc)
              else if c =? 93 then Some (Arr (rev (v :: acc)), r')
              else None
          | [] => None
          end
      end
  end
with parse_members (fuel : nat) (s : jsstring) (acc : list (jsstring * value))
     : option (value * jsstring) :=
  match fuel with
  | O => None
  | S f =>
      match skip_ws s with
      | c :: r =>
          if c =? 34 then
            match parse_string_body r [] with
            | None => None
            | Some (key, r1) =>
                match skip_ws r1 with
                | c1 :: r2 =>
                    if c1 =? 58 then
                      match parse_value f r2 with
                      | None => None
                      | Some (v, r3) =>
                          match skip_ws r3 with
                          | c3 :: r4 =>
                              if c3 =? 44 then parse_members f r4 ((key, v) :: acc)
                              else if c3 =? 125 then
                                Some (Obj (rev ((key, v) :: acc)), r4)
                              else None
                          | [] => None
                          end
                      end
                    else None
                | [] => None
                end
            end
          else None
      | [] => None
      end
  end.

(** [JSON.parse(text)]: [None] when it throws a SyntaxError. *)
Definition parse (text : jsstring) : option value :=
  match parse_value (S (S (List.length text))) text with
  | Some (v, rest) =>
      match skip_ws rest with
      | [] => Some v
      | _ :: _ => None
      end
  | None => None
  end.

(** *** What [JSON.stringify] writes for a parsed value *)

(** The value of a run of decimal digits. *)
Definition decimal (ds : jsstring) : Z :=
  fold_left (fun acc c => acc * 10 + (c - 48)) ds 0.

(** The parts of a number lexeme: the digits of its integer part, those of
    its fraction, and its exponent. *)
Definition number_parts (lexeme : jsstring) : jsstring * jsstring * Z :=
  let s1 := match lexeme with
            | c :: r => if c =? 45 then r else lexeme
            | [] => lexeme
            end in
  let (int, s2) := span_digits s1 in
  let (frac, s3) := match s2 with
                    | c :: r => if c =? 46 then span_digits r else ([], s2)
                    | [] => ([], s2)
                    end in
  let expo :=
    match s3 with
    | c :: r =>
        if (c =? 101) || (c =? 69) then
          match r with
          | c' :: r' =>
              if c' =? 45 then - decimal (fst (span_digits r'))
              else if c' =? 43 then decimal (fst (span_digits r'))
              else decimal (fst (span_digits r))
          | [] => 0
          end
        else 0
    | [] => 0
    end in
  (int, frac, expo).

(** Whether the number a lexeme denotes is a finite double: its magnitude
    [m * 10 ^ k] is below 2^1024 - 2^970, the least magnitude that rounds
    to infinity.  The shortcuts keep the powers of ten small. *)
Definition finite (lexeme : jsstring) : bool :=
  let '(int, frac, expo) := number_parts lexeme in
  let m := decimal (int ++ frac) in
  let k := expo - Z.of_nat (List.length frac) in
  if m =? 0 then true
  else if 400 <? k then false
  else if 0 <=? k then m * 10 ^ k <? 2 ^ 1024 - 2 ^ 970
  else if Z.of_nat (List.length (int ++ frac)) <=? - k then true
  else m <? (2 ^ 1024 - 2 ^ 970) * 10 ^ (- k).

(** The integer of a lexeme that has neither fraction nor exponent. *)
Definition integer_lexeme (lexeme : jsstring) : option Z :=
  match lexeme with
  | [] => None
  | c :: r =>
      if c =? 45 then
        match r with
        | [] => None
        | _ :: _ => if forallb is_digit r then Some (- decimal r) else None
        end
      else if forallb is_digit lexeme then Some (decimal lexeme)
      else None
  end.

(** The text of a finite number: an integer below 2^53 in magnitude is
    written with its digits (and zero as [0], whatever its sign); the text
    of another number, the shortest one that reads back as the same
    double, is left to [print]. *)
Definition number_written (print : jsstring -> jsstring) (lexeme : jsstring)
  : jsstring :=
  match integer_lexeme lexeme with
  | Some z =>
      if Z.abs z <? 2 ^ 53 then (if z =? 0 then lit "0" else lexeme)
      else print lexeme
  | None => print lexeme
  end.

(** A property key that is an array index: canonical decimal digits, below
    2^32 - 1. *)
Definition array_index (k : jsstring) : option Z :=
  match k with
  | [] => None
  | c :: r =>
      if forallb is_digit k
         && (negb (c =? 48) || match r with [] => true | _ :: _ => false end)
         && (decimal k <? 2 ^ 32 - 1)
      then Some (decimal k)
      else None
  end.

(** Defining a property: an existing key keeps its place and takes the
    new value, a new key comes last. *)
Fixpoint define {V : Type} (k : jsstring) (v : V) (props : list (jsstring * V))
  : list (jsstring * V) :=
  match props with
  | [] => [(k, v)]
  | (k', v') :: rest =>
      if string_eqb k' k then (k', v) :: rest else (k', v') :: define k v rest
  end.

Fixpoint insert_index {V : Type} (i : Z) (p : jsstring * V)
         (sorted : list (Z * (jsstring * V))) : list (Z * (jsstring * V)) :=
  match sorted with
  | [] => [(i, p)]
  | (j, q) :: rest =>
      if i <? j then (i, p) :: sorted else (j, q) :: insert_index i p rest
  end.

(** The own properties of the object that [JSON.parse] builds from the
    members of an object text, in the order in which they are enumerated:
    the array indices in ascending order, then the other keys in the order
    of their first definition. *)
Definition own_properties {V : Type} (fields : list (jsstring * V))
  : list (jsstring * V) :=
  let props := fold_left (fun acc kv => define (fst kv) (snd kv) acc) fields [] in
  let indexed :=
    fold_left
      (fun acc kv =>
         match array_index (fst kv) with
         | Some i => insert_index i kv acc
         | None => acc
         end)
      props [] in
  map snd indexed
  ++ filter (fun kv => match array_index (fst kv) with
                       | Some _ => false
                       | None => true
                       end) props.

(** The levels of arrays and objects in a value. *)
Fixpoint nesting (v : value) : nat :=
  match v with
  | Arr items => S (fold_right (fun x d => Nat.max (nesting x) d) O items)
  | Obj fields =>
      S (fold_right (fun kv d => Nat.max (nesting (snd kv)) d) O fields)
  | _ => O
  end.

(** [JSON.parse(JSON.stringify(v))] for a parsed value [v]: what the
    reader of the text gets.  Strings, booleans and null are written as
    they are; a number goes through the double it denotes, one that is not
    finite is written [null]; an object is written property by property.
    At the top, [Undefined] stands for a property that is not written. *)
Fixpoint written (print : jsstring -> jsstring) (v : value) : value :=
  match v with
  | Num lexeme =>
      if finite lexeme then Num (number_written print lexeme) else Null
  | Arr items => Arr (map (written print) items)
  | Obj fields =>
      Obj (own_properties
             (map (fun kv => (fst kv, written print (snd kv))) fields))
  | _ => v
  end.

(** *** The conversion of a parsed value to a string *)

(** How [String(v)] fails. *)
Inductive Failure :=
| NotPrimitive
| TooDeep.

(** Whether [`${v}`] throws, for a parsed value.  An object that has a
    [toString] property of its own has lost the method of its prototype:
    what it holds there is not callable, [valueOf] gives no primitive, and
    the conversion throws a TypeError.  An array is joined, element by
    element from the left, each element converted in turn (null to the
    empty string); arrays nested deeper than the runtime's stack allows
    throw a RangeError.  Every other value converts. *)
Fixpoint to_string_failure (budget : nat) (v : value) {struct v}
  : option Failure :=
  match v with
  | Obj fields =>
      match lookup (lit "toString") fields with
      | Undefined => None
      | _ => Some NotPrimitive
      end
  | Arr items =>
      match budget with
      | O => Some TooDeep
      | S b =>
          fold_right
            (fun x rest =>
               match to_string_failure b x with
               | Some f => Some f
               | None => rest
               end)
            None items
      end
  | _ => None
  end.

End Json.

(** ** The environment: disk, audit file, sockets, clock and randomness *)

Module Sys.

(** An ISO 8601 string as [toISOString] renders it, represented by the
    instant (milliseconds since the epoch) it denotes. *)
Definition isotime := Z.

(** [RemoteConfig] of types.ts; [tokenVersion] is a JavaScript number
    holding an integer. *)
Record RemoteConfig := {
  token : jsstring;
  tokenCreatedAt : isotime;
  tokenVersion : Z
}.

(** A value of the [details] map of an audit entry. *)
Inductive Detail :=
| DetailNumber (z : Z)
| DetailString (s : jsstring)
| DetailValue (v : Json.value).

(** [AuditLogEntry] of types.ts. *)
Record AuditLogEntry := {
  timestamp : isotime;
  clientId : jsstring;
  action : jsstring;
  details : option (list (jsstring * Detail));
  success : bool;
  error : option jsstring
}.

(** A socket handle: the identity of a [ServerWebSocket] object. *)
Definition Ws := nat.

(** A string built by the source: a literal, or a template literal that
    ends in the string conversion of a parsed value, for a value whose
    conversion does not throw. *)
Inductive Text :=
| Literal (s : jsstring)
| Template (prefix : jsstring) (v : Json.value).

(** The payload of the messages the server sends; [uptime_ms] stands for
    the [uptime] field, which is that many milliseconds divided by 1000. *)
Inductive Payload :=
| AuthResponse (success : bool) (error : option jsstring)
| ErrorPayload (code : jsstring) (message : Text)
| Pong
| ServerStatus (version : jsstring) (uptime_ms : Z) (connectedClients : Z).

(** A message: the envelope of [WSMessage] and the payload.  The [id] is a
    value because a pong carries whatever the request had there.  A [Send]
    event holds the message as [JSON.stringify] wrote it. *)
Record WSMessage := {
  msg_id : Json.value;
  msg_timestamp : isotime;
  msg_payload : Payload
}.

(** [type] of a message, which [createMessage] receives with the payload. *)
Definition msg_type (m : WSMessage) : jsstring :=
  match msg_payload m with
  | AuthResponse _ _ => lit "auth_response"
  | ErrorPayload _ _ => lit "error"
  | Pong => lit "pong"
  | ServerStatus _ _ _ => lit "server_status"
  end.

(** [RemoteServerState] of types.ts. *)
Record RemoteServerState := {
  running : bool;
  port : Z;
  host : jsstring;
  startedAt : isotime;
  connectedClients : Z;
  pid : Z
}.

Inductive Callback :=
| OnStart (state : RemoteServerState)
| OnStop
| OnConnect (clientId : jsstring)
| OnDisconnect (clientId : jsstring).

(** What the program does to the outside, in order.  [Await] marks the
    points where an async function suspends: what precedes the first one
    happens in the turn of the call. *)
Inductive Event :=
| Send (ws : Ws) (m : WSMessage)
| Close (ws : Ws)
| Serve (port : Z) (hostname : jsstring)
| ServerStop
| Notify (cb : Callback)
| Await.

Inductive Error :=
| TypeError
| RangeError
| IOError
| JsError (message : jsstring).

(** What the program cannot decide: the bytes of [crypto.randomBytes], the
    clock, [Math.random().toString(36)], whether the configuration file can
    be written and, when it cannot, what the failed write leaves in it (from
    what it held and the record that was being written), whether the port
    can be bound and which port the runtime
    picks when asked for port 0, which sockets throw on [send] and
    [close], the process id, the text the runtime prints for a number, and
    how deep [JSON.stringify] and [Array.prototype.join] can recurse before
    the stack is exhausted.  The first three are indexed by the count of
    earlier draws.  The world holds what changes: the configuration file as
    [loadRemoteConfig] finds it, the audit file, the events so far, the
    draws so far and the number of socket objects the runtime has
    created. *)
Record Oracle := {
  entropy : nat -> nat -> Z;
  clock : nat -> Z;
  random36 : nat -> jsstring;
  disk_writable : bool;
  failed_write : option RemoteConfig -> RemoteConfig -> option RemoteConfig;
  port_free : bool;
  ephemeral_port : Z;
  sock_throws : Ws -> bool;
  process_pid : Z;
  number_text : jsstring -> jsstring;
  stringify_depth : nat;
  join_depth : nat
}.

Record World := {
  disk : option RemoteConfig;
  audit_log : list AuditLogEntry;
  trace : list Event;
  draws : nat;
  sockets : nat
}.

Definition set_disk (d : option RemoteConfig) (w : World) : World :=
  {| disk := d; audit_log := audit_log w; trace := trace w; draws := draws w;
     sockets := sockets w |}.

Definition add_audit (e : AuditLogEntry) (w : World) : World :=
  {| disk := disk w; audit_log := audit_log w ++ [e]; trace := trace w;
     draws := draws w; sockets := sockets w |}.

Definition add_event (e : Event) (w : World) : World :=
  {| disk := disk w; audit_log := audit_log w; trace := trace w ++ [e];
     draws := draws w; sockets := sockets w |}.

Definition next_draw (w : World) : World :=
  {| disk := disk w; audit_log := audit_log w; trace := trace w;
     draws := S (draws w); sockets := sockets w |}.

Definition next_socket (w : World) : World :=
  {| disk := disk w; audit_log := audit_log w; trace := trace w;
     draws := draws w; sockets := S (sockets w) |}.

(** A computation returns or throws; what it did to the world before a
    throw stays done. *)
Inductive Res (A : Type) :=
| Ret (a : A)
| Throw (e : Error).
Arguments Ret {A} a.
Arguments Throw {A} e.

Definition M (A : Type) : Type := Oracle -> World -> Res A * World.

Definition ret {A} (a : A) : M A := fun _ w => (Ret a, w).

Definition throw {A} (e : Error) : M A := fun _ w => (Throw e, w).

Definition bind {A B} (m : M A) (k : A -> M B) : M B :=
  fun env w =>
    match m env w with
    | (Ret a, w') => k a env w'
    | (Throw e, w') => (Throw e, w')
    end.

(** [try { m } catch { h }] *)
Definition try_catch {A} (m : M A) (h : M A) : M A :=
  fun env w =>
    match m env w with
    | (Ret a, w') => (Ret a, w')
    | (Throw _, w') => h env w'
    end.

Definition emit (e : Event) : M unit := fun _ w => (Ret tt, add_event e w).

(** [await]: the caller's continuation runs in a later turn. *)
Definition await {A} (m : M A) : M A :=
  bind m (fun a => bind (emit Await) (fun _ => ret a)).

(** [new Date().toISOString()] and [Date.now()] *)
Definition now : M isotime :=
  fun env w => (Ret (clock env (draws w)), next_draw w).

(** [crypto.randomBytes(n)] *)
Definition randomBytes (n : nat) : M (list Z) :=
  fun env w =>
    (Ret (map (fun k => entropy env (draws w) k mod 256) (seq 0 n)), next_draw w).

(** [Math.random().toString(36)] *)
Definition random_base36 : M jsstring :=
  fun env w => (Ret (random36 env (draws w)), next_draw w).

Definition get_pid : M Z := fun env w => (Ret (process_pid env), w).

(** A computation that creates no socket object. *)
Definition keeps_sockets {A : Type} (m : M A) : Prop :=
  forall env w, sockets (snd (m env w)) = sockets w.

(** [v.key], a TypeError when [v] is null or undefined. *)
Definition prop (v : Json.value) (key : jsstring) : M Json.value :=
  match Json.get v key with
  | Some x => ret x
  | None => throw TypeError
  end.

End Sys.

Import Sys.

Declare Scope js_scope.
Delimit Scope js_scope with js.
Notation "x <- m ;; k" := (bind m (fun x => k))
  (at level 61, m at next level, right associativity) : js_scope.
Notation "m ;;; k" := (bind m (fun _ => k))
  (at level 61, right associativity) : js_scope.
Open Scope js_scope.

(** ** token.ts *)

Module Token.

(** [TOKEN_BYTES] *)
Definition TOKEN_BYTES : nat := 32.

Definition generateToken : M jsstring :=
  bytes <- randomBytes TOKEN_BYTES ;;
  ret (base64url bytes).

(** [loadRemoteConfig]: the file as it parses, [None] when it is missing,
    unreadable or not JSON (every failure is caught and gives null). *)
Definition loadRemoteConfig : M (option RemoteConfig) :=
  fun _ w => (Ret (disk w), w).

(** [saveRemoteConfig]: [mkdir] and [writeFile] throw when the file cannot
    be written.  [writeFile] writes in place: it empties the file when it
    opens it, so a write that fails later leaves a file that holds nothing,
    or the beginning of the new text; a write that fails earlier, like a
    failing [mkdir], leaves the file as it was.  What
    [loadRemoteConfig] finds afterwards is for the oracle to say. *)
Definition saveRemoteConfig (config : RemoteConfig) : M unit :=
  fun env w =>
    if disk_writable env then (Ret tt, set_disk (Some config) w)
    else (Throw IOError, set_disk (failed_write env (disk w) config) w).

(** [config?.token]: the token of the record when the record is there and
    the token is truthy, that is, not the empty string. *)
Definition truthy_token (config : option RemoteConfig) : option jsstring :=
  match config with
  | Some c => if string_eqb (token c) [] then None else Some (token c)
  | None => None
  end.

Definition getOrCreateToken : M (jsstring * bool) :=
  config <- await loadRemoteConfig ;;
  match truthy_token config with
  | Some stored => ret (stored, false)
  | None =>
      token <- generateToken ;;
      created <- now ;;
      let newConfig :=
        {| token := token; tokenCreatedAt := created; tokenVersion := 1 |} in
      await (saveRemoteConfig newConfig) ;;;
      ret (token, true)
  end.

Definition rotateToken : M jsstring :=
  existingConfig <- await loadRemoteConfig ;;
  newToken <- generateToken ;;
  created <- now ;;
  let newConfig :=
    {| token := newToken;
       tokenCreatedAt := created;
       tokenVersion :=
         add match existingConfig with
             | Some c => tokenVersion c
             | None => 0
             end 1 |} in
  await (saveRemoteConfig newConfig) ;;;
  ret newToken.

(** The two comparison loops of [validateToken], with the number of
    iterations performed next to the result. *)
Definition compare_tokens (storedToken providedToken : jsstring) : bool * nat :=
  if negb (strlen providedToken =? strlen storedToken) then
    let r :=
      for_loop (List.length storedToken) 0
        (fun i result =>
           bitor result
             (bitxor (charCodeAt storedToken (Int i))
                (or_else (charCodeAt providedToken (rem i (strlen providedToken)))
                   (Int 0))))
        (Int 0, O) in
    (false, snd r)
  else
    let r :=
      for_loop (List.length storedToken) 0
        (fun i result =>
           bitor result
             (bitxor (charCodeAt storedToken (Int i))
                (charCodeAt providedToken (Int i))))
        (Int 0, O) in
    (is_zero (fst r), snd r).

(** [validateToken], on whatever value the caller passes: the server hands
    it [message.token] of a parsed frame.  A value that is not a string has
    no [charCodeAt] (and [undefined] and [null] no [length]), and the stored
    token is not empty here, so the comparison throws. *)
Definition validateToken (providedToken : Json.value) : M bool :=
  config <- await loadRemoteConfig ;;
  match truthy_token config with
  | None => ret false
  | Some storedToken =>
      match providedToken with
      | Json.Str provided => ret (fst (compare_tokens storedToken provided))
      | _ => throw TypeError
      end
  end.







Record TokenInfo := {
  exists_ : bool;
  createdAt : option isotime;
  version : option Z;
  preview : option jsstring
}.

Definition getTokenInfo : M TokenInfo :=
  config <- await loadRemoteConfig ;;
  match config, truthy_token config with
  | Some c, Some stored =>
      ret {| exists_ := true;
             createdAt := Some (tokenCreatedAt c);
             version := Some (tokenVersion c);
             preview := Some (slice0 stored 8 ++ lit "...") |}
  | _, _ =>
      ret {| exists_ := false; createdAt := None; version := None;
             preview := None |}
  end.

End Token.

(** ** The audit logger *)

Module Audit.

(** Modelled from the spec: [src/remote/audit.ts] ([createAuditLogger] and
    the logger's methods) is not among the sources.  The specification
    describes an append-only sink whose entries are the [AuditLogEntry]
    records of types.ts, written synchronously with the event and carrying
    a success flag and an optional detail payload; a failing write is
    reported elsewhere and swallowed, so no method throws.  The names of
    the actions of connection, authentication and server events and the
    client id of server events are not fixed by the specification. *)
Definition log (clientId action : jsstring)
           (details : option (list (jsstring * Detail)))
           (success : bool) (error : option jsstring) : M unit :=
  ts <- now ;;
  fun _ w =>
    (Ret tt,
     add_audit {| timestamp := ts; clientId := clientId; action := action;
                  details := details; success := success; error := error |} w).

(** Modelled from the spec: connection open and close. *)
Definition logConnection (clientId event : jsstring) : M unit :=
  log clientId event None true None.

(** Modelled from the spec: authentication success or failure, with the
    client identifier and never the secret. *)
Definition logAuth (clientId : jsstring) (success : bool)
           (error : option jsstring) : M unit :=
  log clientId (lit "auth") None success error.

(** Modelled from the spec: server start and stop, with the bind
    parameters and the process id as details. *)
Definition logServerEvent (event : jsstring)
           (details : option (list (jsstring * Detail))) : M unit :=
  log (lit "server") event details true None.

(** Modelled from the spec: message-level failures (parse errors,
    unauthorized attempts), with [success] false. *)
Definition logFailure (clientId action error : jsstring)
           (details : option (list (jsstring * Detail))) : M unit :=
  log clientId action details false (Some error).

End Audit.

(** ** server.ts *)

Module Server.

(** [ClientState] *)
Record ClientState := {
  id : jsstring;
  ip : jsstring;
  authenticated : bool;
  connectedAt : isotime
}.

(** [RemoteServerOptions]; of an optional callback the model keeps
    whether it is given, its calls are [Notify] events. *)
Record RemoteServerOptions := {
  opt_port : Z;
  hasToken : bool;
  onStart : bool;
  onStop : bool;
  onConnect : bool;
  onDisconnect : bool
}.

(** [Partial<RemoteServerOptions>] as [createRemoteServer] reads it. *)
Record PartialOptions := {
  p_port : option Z;
  p_onStart : bool;
  p_onStop : bool;
  p_onConnect : bool;
  p_onDisconnect : bool
}.

(** What [Bun.serve] returned: the listening socket, with the port and
    the hostname it was asked for. *)
Record BunServer := {
  listen_port : Z;
  listen_hostname : jsstring
}.

(** The fields of a [RemoteServer]; [clients] is a JavaScript [Map], which
    iterates in insertion order, keyed by the socket object.  The audit
    logger writes to the audit file of the world. *)
Record RemoteServer := {
  server : option BunServer;
  clients : list (Ws * ClientState);
  options : RemoteServerOptions;
  server_startedAt : option isotime
}.

(** [Map.prototype.get], [set], [delete]; [set] keeps the keys distinct, so
    that [delete] has one entry to drop. *)
Fixpoint map_get (ws : Ws) (m : list (Ws * ClientState)) : option ClientState :=
  match m with
  | [] => None
  | (k, v) :: rest => if Nat.eqb k ws then Some v else map_get ws rest
  end.

Fixpoint map_set (ws : Ws) (v : ClientState) (m : list (Ws * ClientState))
  : list (Ws * ClientState) :=
  match m with
  | [] => [(ws, v)]
  | (k, v') :: rest =>
      if Nat.eqb k ws then (k, v) :: rest else (k, v') :: map_set ws v rest
  end.

Definition map_delete (ws : Ws) (m : list (Ws * ClientState))
  : list (Ws * ClientState) :=
  filter (fun entry => negb (Nat.eqb (fst entry) ws)) m.

Definition set_server (b : option BunServer) (s : RemoteServer) : RemoteServer :=
  {| server := b; clients := clients s; options := options s;
     server_startedAt := server_startedAt s |}.

Definition set_clients (m : list (Ws * ClientState)) (s : RemoteServer)
  : RemoteServer :=
  {| server := server s; clients := m; options := options s;
     server_startedAt := server_startedAt s |}.

Definition set_startedAt (t : option isotime) (s : RemoteServer) : RemoteServer :=
  {| server := server s; clients := clients s; options := options s;
     server_startedAt := t |}.

(** [clientState.authenticated = true]: the object the map holds for the
    socket is the one the handler mutates. *)
Definition set_authenticated (ws : Ws) (s : RemoteServer) : RemoteServer :=
  match map_get ws (clients s) with
  | Some c =>
      set_clients
        (map_set ws
           {| id := id c; ip := ip c; authenticated := true;
              connectedAt := connectedAt c |}
           (clients s)) s
  | None => s
  end.

(** [options.onX?.(...)] *)
Definition notify (given : bool) (cb : Callback) : M unit :=
  if given then emit (Notify cb) else ret tt.

Definition generateClientId : M jsstring :=
  r <- random_base36 ;;
  ret (substring r 2 10).

Definition generateMessageId : M jsstring :=
  r <- random_base36 ;;
  ret (substring r 2 15).

Definition createMessage (data : Payload) : M WSMessage :=
  mid <- generateMessageId ;;
  ts <- now ;;
  ret {| msg_id := Json.Str mid; msg_timestamp := ts; msg_payload := data |}.

(** [ws.send(text)] and [ws.close()]: the call is an event whether or not
    the socket throws. *)
Definition ws_send (ws : Ws) (message : WSMessage) : M unit :=
  emit (Send ws message) ;;;
  fun env w =>
    if sock_throws env ws then (Throw (JsError (lit "send")), w) else (Ret tt, w).

Definition ws_close (ws : Ws) : M unit :=
  emit (Close ws) ;;;
  fun env w =>
    if sock_throws env ws then (Throw (JsError (lit "close")), w) else (Ret tt, w).

(** [Bun.serve]: throws when the port cannot be bound.  The socket it
    returns is recorded with the options it was created from. *)
Definition Bun_serve (port : Z) (hostname : jsstring) : M BunServer :=
  emit (Serve port hostname) ;;;
  fun env w =>
    if port_free env
    then (Ret {| listen_port := port; listen_hostname := hostname |}, w)
    else (Throw (JsError (lit "EADDRINUSE")), w).

(** The port a listening socket is bound to: the one it was created with,
    and for port 0 the one the runtime picked. *)
Definition bound_port (env : Oracle) (listening : BunServer) : Z :=
  if listen_port listening =? 0 then ephemeral_port env
  else listen_port listening.

(** [JSON.stringify(message)]: the message as the text holds it.  The
    fields the server fills in are strings, booleans and finite numbers;
    the [id] of a pong is the value of the request, which is written as
    [Json.written] says, and makes the call throw a RangeError when it is
    nested deeper than the stack allows. *)
Definition JSON_stringify (message : WSMessage) : M WSMessage :=
  fun env w =>
    if (stringify_depth env <? Json.nesting (msg_id message))%nat
    then (Throw RangeError, w)
    else
      (Ret {| msg_id := Json.written (number_text env) (msg_id message);
              msg_timestamp := msg_timestamp message;
              msg_payload := msg_payload message |}, w).

Definition send (ws : Ws) (message : WSMessage) : M unit :=
  try_catch (text <- JSON_stringify message ;; ws_send ws text) (ret tt).

(** [`${prefix}${v}`]: throws when the conversion of [v] does. *)
Definition template (prefix : jsstring) (v : Json.value) : M Text :=
  fun env w =>
    match Json.to_string_failure (join_depth env) v with
    | None => (Ret (Template prefix v), w)
    | Some Json.NotPrimitive => (Throw TypeError, w)
    | Some Json.TooDeep => (Throw RangeError, w)
    end.

Definition sendError (ws : Ws) (code : jsstring) (message : Text) : M unit :=
  response <- createMessage (ErrorPayload code message) ;;
  send ws response.

Definition sendPong (ws : Ws) (requestId : Json.value) : M unit :=
  response <- createMessage Pong ;;
  let response :=
    {| msg_id := requestId; msg_timestamp := msg_timestamp response;
       msg_payload := msg_payload response |} in
  send ws response.

Definition sendStatus (this : RemoteServer) (ws : Ws) : M unit :=
  uptime <- match server_startedAt this with
            | Some t => n <- now ;; ret (n - t)
            | None => ret 0
            end ;;
  response <- createMessage
                (ServerStatus (lit "0.2.1") uptime
                   (Z.of_nat (List.length (clients this)))) ;;
  send ws response.

(** [`${clientState.id}@${clientState.ip}`] *)
Definition client_label (c : ClientState) : jsstring :=
  id c ++ lit "@" ++ ip c.

Definition handleAuth (this : RemoteServer) (ws : Ws) (clientState : ClientState)
           (message : Json.value) : M RemoteServer :=
  let clientId := client_label clientState in
  tok <- prop message (lit "token") ;;
  isValid <- await (Token.validateToken tok) ;;
  if isValid then
    let this := set_authenticated ws this in
    response <- createMessage (AuthResponse true None) ;;
    send ws response ;;;
    await (Audit.logAuth clientId true None) ;;;
    ret this
  else
    response <- createMessage
                  (AuthResponse false (Some (lit "Invalid token"))) ;;
    send ws response ;;;
    await (Audit.logAuth clientId false (Some (lit "Invalid token"))) ;;;
    ret this.

Definition handleMessage (this : RemoteServer) (ws : Ws)
           (clientState : ClientState) (rawMessage : jsstring) : M RemoteServer :=
  let clientId := client_label clientState in
  match Json.parse rawMessage with
  | None =>
      sendError ws (lit "INVALID_JSON") (Literal (lit "Invalid JSON message")) ;;;
      await (Audit.logFailure clientId (lit "message_parse")
               (lit "Invalid JSON") None) ;;;
      ret this
  | Some message =>
      type <- prop message (lit "type") ;;
      if Json.is_string type (lit "auth") then
        await (handleAuth this ws clientState message)
      else if Json.is_string type (lit "ping") then
        requestId <- prop message (lit "id") ;;
        sendPong ws requestId ;;;
        ret this
      else if negb (authenticated clientState) then
        sendError ws (lit "NOT_AUTHENTICATED")
          (Literal (lit "Authentication required")) ;;;
        await (Audit.logFailure clientId (lit "unauthorized_message")
                 (lit "Not authenticated")
                 (Some [(lit "messageType", DetailValue type)])) ;;;
        ret this
      else if Json.is_string type (lit "status") then
        sendStatus this ws ;;;
        ret this
      else
        text <- template (lit "Unknown message type: ") type ;;
        sendError ws (lit "UNKNOWN_MESSAGE") text ;;;
        ret this
  end.

(** The [open], [message] and [close] handlers of the WebSocket;
    [data_ip] is [ws.data?.ip]. *)
Definition ws_open (this : RemoteServer) (ws : Ws) (data_ip : option jsstring)
  : M RemoteServer :=
  clientId <- generateClientId ;;
  let clientIp := match data_ip with Some a => a | None => lit "unknown" end in
  connected <- now ;;
  let state := {| id := clientId; ip := clientIp; authenticated := false;
                  connectedAt := connected |} in
  let this := set_clients (map_set ws state (clients this)) this in
  Audit.logConnection (clientId ++ lit "@" ++ clientIp) (lit "connect") ;;;
  notify (onConnect (options this)) (OnConnect clientId) ;;;
  ret this.

Definition ws_message (this : RemoteServer) (ws : Ws) (message : jsstring)
  : M RemoteServer :=
  match map_get ws (clients this) with
  | None => ret this
  | Some clientState => handleMessage this ws clientState message
  end.

Definition ws_close_handler (this : RemoteServer) (ws : Ws) : M RemoteServer :=
  match map_get ws (clients this) with
  | Some clientState =>
      Audit.logConnection (client_label clientState) (lit "disconnect") ;;;
      notify (onDisconnect (options this)) (OnDisconnect (id clientState)) ;;;
      ret (set_clients (map_delete ws (clients this)) this)
  | None => ret this
  end.

(** [hasToken ? '0.0.0.0' : '127.0.0.1'] *)
Definition bind_host (hasToken : bool) : jsstring :=
  if hasToken then lit "0.0.0.0" else lit "127.0.0.1".

Definition start (this : RemoteServer) : M (RemoteServerState * RemoteServer) :=
  match server this with
  | Some _ => throw (JsError (lit "Server is already running"))
  | None =>
      let host := bind_host (hasToken (options this)) in
      srv <- Bun_serve (opt_port (options this)) host ;;
      let this := set_server (Some srv) this in
      started <- now ;;
      let this := set_startedAt (Some started) this in
      pid <- get_pid ;;
      let state := {| running := true; port := opt_port (options this);
                      host := host; startedAt := started;
                      connectedClients := 0; pid := pid |} in
      await (Audit.logServerEvent (lit "start")
               (Some [(lit "port", DetailNumber (opt_port (options this)));
                      (lit "host", DetailString host);
                      (lit "pid", DetailNumber pid)])) ;;;
      notify (onStart (options this)) (OnStart state) ;;;
      ret (state, this)
  end.

(** [for (const [ws] of this.clients) { try { ws.close() } catch {} }] *)
Fixpoint close_all (m : list (Ws * ClientState)) : M unit :=
  match m with
  | [] => ret tt
  | (ws, _) :: rest => try_catch (ws_close ws) (ret tt) ;;; close_all rest
  end.

Definition stop (this : RemoteServer) : M RemoteServer :=
  match server this with
  | None => ret this
  | Some _ =>
      close_all (clients this) ;;;
      let this := set_clients [] this in
      emit ServerStop ;;;
      let this := set_server None this in
      await (Audit.logServerEvent (lit "stop") None) ;;;
      notify (onStop (options this)) OnStop ;;;
      ret this
  end.

Definition getState (this : RemoteServer) : M (option RemoteServerState) :=
  match server this, server_startedAt this with
  | Some _, Some started =>
      pid <- get_pid ;;
      ret (Some {| running := true; port := opt_port (options this);
                   host := bind_host (hasToken (options this));
                   startedAt := started;
                   connectedClients := Z.of_nat (List.length (clients this));
                   pid := pid |})
  | _, _ => ret None
  end.

(** [new RemoteServer(options)] *)
Definition new_RemoteServer (opts : RemoteServerOptions) : RemoteServer :=
  {| server := None; clients := []; options := opts; server_startedAt := None |}.

Definition createRemoteServer (opts : PartialOptions) : M RemoteServer :=
  r <- await Token.getOrCreateToken ;;
  let (token, isNew) := (r : jsstring * bool) in
  let hasToken := negb isNew || (0 <? strlen token) in
  let serverOptions :=
    {| opt_port := match p_port opts with Some p => p | None => 7890 end;
       hasToken := hasToken;
       onStart := p_onStart opts;
       onStop := p_onStop opts;
       onConnect := p_onConnect opts;
       onDisconnect := p_onDisconnect opts |} in
  ret (new_RemoteServer serverOptions).

(** What the operator and the runtime make a server do.  A connection
    arrives on a socket object the runtime has just created; frames and
    disconnections name the socket they come from.  [step] and [run] have
    each handler run to its end before the next one starts: the runs in
    which nothing arrives while a handler waits.  [Turns] has the others. *)
Inductive Action :=
| DoStart
| DoStop
| Connect (data_ip : option jsstring)
| Frame (ws : Ws) (message : jsstring)
| Disconnect (ws : Ws).

(** The server after a method ran: a method that throws does so before it
    assigns to a field. *)
Definition settle (this : RemoteServer) (m : M RemoteServer)
           (env : Oracle) (w : World) : RemoteServer * World :=
  match m env w with
  | (Ret this', w') => (this', w')
  | (Throw _, w') => (this, w')
  end.

Definition step (env : Oracle) (a : Action) (st : RemoteServer * World)
  : RemoteServer * World :=
  let (this, w) := st in
  match a with
  | DoStart => settle this (r <- start this ;; ret (snd r)) env w
  | DoStop => settle this (stop this) env w
  | Connect data_ip =>
      settle this (ws_open this (sockets w) data_ip) env (next_socket w)
  | Frame ws message => settle this (ws_message this ws message) env w
  | Disconnect ws => settle this (ws_close_handler this ws) env w
  end.

Fixpoint run (env : Oracle) (actions : list Action) (st : RemoteServer * World)
  : RemoteServer * World :=
  match actions with
  | [] => st
  | a :: rest => run env rest (step env a st)
  end.

(** The flag of the session of a socket, when the registry has one. *)
Definition session_flag (st : RemoteServer * World) (ws : Ws) : option bool :=
  option_map authenticated (map_get ws (clients (fst st))).

(** The sockets of the registry are sockets the runtime has created. *)
Definition registry_known (st : RemoteServer * World) : Prop :=
  forall ws c, map_get ws (clients (fst st)) = Some c -> (ws < sockets (snd st))%nat.

End Server.

(** ** The event loop *)

(** The methods of [RemoteServer] are async functions.  At an [await] a
    function suspends, and the handlers of other events run before it goes
    on; the [message] handler of the socket calls [handleMessage] and does
    not wait for it, so the handlers of two frames take turns.  [Server]
    has each method as the computation it is when nothing runs in between;
    this module has the same code cut at its [await]s, and the loop that
    picks which piece runs next. *)

Module Turns.

Import Server.

(** What the handlers share: the server object and the world. *)
Definition State : Type := RemoteServer * World.

#[local] Unset Elimination Schemes.

(** A call of an async function: it has settled, with a value or with an
    exception, or it waits at an [await], holding what it does when it
    goes on. *)
Inductive Task (A : Type) : Type :=
| Settled (r : Res A)
| Waiting (resume : Oracle -> State -> Task A * State).

#[local] Set Elimination Schemes.

Arguments Settled {A} r.
Arguments Waiting {A} resume.

(** Code of an async function: run in a state, it goes on until it
    settles or reaches an [await]. *)
Definition Async (A : Type) : Type := Oracle -> State -> Task A * State.

Definition ret {A : Type} (a : A) : Async A := fun _ s => (Settled (Ret a), s).

Definition throw {A : Type} (e : Error) : Async A :=
  fun _ s => (Settled (Throw e), s).

(** What follows a task: at once when it has settled, and in the turn in
    which it settles when it waits. *)
Fixpoint after {A B : Type} (t : Task A) (k : A -> Async B) : Async B :=
  match t with
  | Settled (Ret a) => k a
  | Settled (Throw e) => throw e
  | Waiting resume =>
      fun _ s =>
        (Waiting (fun env' s' =>
                    let (t', s'') := resume env' s' in after t' k env' s''),
         s)
  end.

Definition bind {A B : Type} (m : Async A) (k : A -> Async B) : Async B :=
  fun env s => let (t, s') := m env s in after t k env s'.

Declare Scope turn_scope.
Delimit Scope turn_scope with turn.
Notation "x <- m ;; k" := (bind m (fun x => k))
  (at level 61, m at next level, right associativity) : turn_scope.
Notation "m ;;; k" := (bind m (fun _ => k))
  (at level 61, right associativity) : turn_scope.
#[local] Open Scope turn_scope.

(** Code that does not suspend and leaves the fields of the server
    alone. *)
Definition sync {A : Type} (m : M A) : Async A :=
  fun env s => let (r, w') := m env (snd s) in (Settled r, (fst s, w')).

(** [this], and an assignment to one of its fields. *)
Definition self : Async RemoteServer := fun _ s => (Settled (Ret (fst s)), s).

Definition assign (f : RemoteServer -> RemoteServer) : Async unit :=
  fun _ s => (Settled (Ret tt), (f (fst s), snd s)).

(** A handler that does not suspend, as [Server] has it: it assigns to
    the fields when it returns. *)
Definition method (f : RemoteServer -> M RemoteServer) : Async unit :=
  fun env s =>
    match f (fst s) env (snd s) with
    | (Ret this', w') => (Settled (Ret tt), (this', w'))
    | (Throw e, w') => (Settled (Throw e), (fst s, w'))
    end.

(** The promise awaited is pending: the function goes on in a later
    turn, and other code runs before it does. *)
Definition pause : Async unit :=
  fun _ s => (Waiting (fun _ s' => (Settled (Ret tt), s')), s).

(** [await m]: when [m] has settled, the caller goes on in a later turn.
    As in [Sys.await], an [Await] event records the suspension. *)
Definition await {A : Type} (m : Async A) : Async A :=
  a <- m ;;
  sync (emit Await) ;;;
  pause ;;;
  ret a.

(** [loadRemoteConfig]: it waits for [access], then for [readFile], and
    parses what was read.  On a file that is not there it returns after
    the first wait; it is taken to wait twice all the same, the file being
    what [Token.loadRemoteConfig] finds when it goes on for the last
    time. *)
Definition loadRemoteConfig : Async (option RemoteConfig) :=
  pause ;;;
  pause ;;;
  sync Token.loadRemoteConfig.

Definition validateToken (providedToken : Json.value) : Async bool :=
  config <- await loadRemoteConfig ;;
  match Token.truthy_token config with
  | None => ret false
  | Some storedToken =>
      match providedToken with
      | Json.Str provided =>
          ret (fst (Token.compare_tokens storedToken provided))
      | _ => throw TypeError
      end
  end.

(** [clientState] is the object the [message] handler read from the
    registry when the frame arrived.  The registry holds that object for
    [ws] until the connection closes, and no other afterwards, so the
    assignment to its flag is [set_authenticated ws]: it is lost when the
    session is gone. *)
Definition handleAuth (ws : Ws) (clientState : ClientState)
           (message : Json.value) : Async unit :=
  let clientId := client_label clientState in
  tok <- sync (prop message (lit "token")) ;;
  isValid <- await (validateToken tok) ;;
  if isValid then
    assign (set_authenticated ws) ;;;
    response <- sync (createMessage (AuthResponse true None)) ;;
    sync (send ws response) ;;;
    await (sync (Audit.logAuth clientId true None))
  else
    response <- sync (createMessage
                        (AuthResponse false (Some (lit "Invalid token")))) ;;
    sync (send ws response) ;;;
    await (sync (Audit.logAuth clientId false (Some (lit "Invalid token")))).

Definition handleMessage (ws : Ws) (clientState : ClientState)
           (rawMessage : jsstring) : Async unit :=
  let clientId := client_label clientState in
  match Json.parse rawMessage with
  | None =>
      sync (sendError ws (lit "INVALID_JSON")
              (Literal (lit "Invalid JSON message"))) ;;;
      await (sync (Audit.logFailure clientId (lit "message_parse")
                     (lit "Invalid JSON") None))
  | Some message =>
      type <- sync (prop message (lit "type")) ;;
      if Json.is_string type (lit "auth") then
        await (handleAuth ws clientState message)
      else if Json.is_string type (lit "ping") then
        requestId <- sync (prop message (lit "id")) ;;
        sync (sendPong ws requestId)
      else if negb (authenticated clientState) then
        sync (sendError ws (lit "NOT_AUTHENTICATED")
                (Literal (lit "Authentication required"))) ;;;
        await (sync (Audit.logFailure clientId (lit "unauthorized_message")
                       (lit "Not authenticated")
                       (Some [(lit "messageType", DetailValue type)])))
      else if Json.is_string type (lit "status") then
        this <- self ;;
        sync (sendStatus this ws)
      else
        text <- sync (template (lit "Unknown message type: ") type) ;;
        sync (sendError ws (lit "UNKNOWN_MESSAGE") text)
  end.

(** The [message] handler: it calls [handleMessage] and does not wait for
    it. *)
Definition ws_message (ws : Ws) (message : jsstring) : Async unit :=
  this <- self ;;
  match map_get ws (clients this) with
  | None => ret tt
  | Some clientState => handleMessage ws clientState message
  end.

Definition start : Async RemoteServerState :=
  this <- self ;;
  match server this with
  | Some _ => throw (JsError (lit "Server is already running"))
  | None =>
      let host := bind_host (hasToken (options this)) in
      srv <- sync (Bun_serve (opt_port (options this)) host) ;;
      assign (set_server (Some srv)) ;;;
      started <- sync now ;;
      assign (set_startedAt (Some started)) ;;;
      pid <- sync get_pid ;;
      let state := {| running := true; port := opt_port (options this);
                      host := host; startedAt := started;
                      connectedClients := 0; pid := pid |} in
      await (sync (Audit.logServerEvent (lit "start")
                     (Some [(lit "port", DetailNumber (opt_port (options this)));
                            (lit "host", DetailString host);
                            (lit "pid", DetailNumber pid)]))) ;;;
      sync (notify (onStart (options this)) (OnStart state)) ;;;
      ret state
  end.

Definition stop : Async unit :=
  this <- self ;;
  match server this with
  | None => ret tt
  | Some _ =>
      sync (close_all (clients this)) ;;;
      assign (set_clients []) ;;;
      sync (emit ServerStop) ;;;
      assign (set_server None) ;;;
      await (sync (Audit.logServerEvent (lit "stop") None)) ;;;
      sync (notify (onStop (options this)) OnStop)
  end.

(** What an action makes the process call. *)
Definition call (a : Action) : Async unit :=
  match a with
  | DoStart => _ <- start ;; ret tt
  | DoStop => stop
  | Connect data_ip =>
      fun env s =>
        method (fun this => ws_open this (sockets (snd s)) data_ip) env
          (fst s, next_socket (snd s))
  | Frame ws message => ws_message ws message
  | Disconnect ws => method (fun this => ws_close_handler this ws)
  end.

(** The process between two turns: the server, the world, and the calls
    that wait, each with the action it answers. *)
Record Process := {
  this_server : RemoteServer;
  world : World;
  waiting : list (Action * Async unit)
}.

Definition state (p : Process) : State := (this_server p, world p).

(** A turn of the event loop: an action arrives and its handler runs up
    to its first [await], or one of the calls that wait goes on up to its
    next one.  Which of the two, and which call, is not for the program to
    choose.  Between two turns another process may write the
    configuration file, as the command that rotates the token does. *)
Inductive Turn :=
| Arrive (a : Action)
| Resume (i : nat)
| Rewrite (config : option RemoteConfig).

(** The process after a piece of code ran for an action: a call that
    waits joins the others, one that has settled is gone (what it threw is
    nobody's to catch). *)
Definition after_turn (a : Action) (r : Task unit * State)
           (others : list (Action * Async unit)) : Process :=
  match r with
  | (Settled _, s) =>
      {| this_server := fst s; world := snd s; waiting := others |}
  | (Waiting resume, s) =>
      {| this_server := fst s; world := snd s;
         waiting := others ++ [(a, resume)] |}
  end.

Definition turn (env : Oracle) (t : Turn) (p : Process) : Process :=
  match t with
  | Arrive a => after_turn a (call a env (state p)) (waiting p)
  | Resume i =>
      match nth_error (waiting p) i with
      | Some (a, resume) =>
          after_turn a (resume env (state p))
            (firstn i (waiting p) ++ skipn (S i) (waiting p))
      | None => p
      end
  | Rewrite config =>
      {| this_server := this_server p; world := set_disk config (world p);
         waiting := waiting p |}
  end.

Fixpoint play (env : Oracle) (turns : list Turn) (p : Process) : Process :=
  match turns with
  | [] => p
  | t :: rest => play env rest (turn env t p)
  end.

(** A process that has just built its server. *)
Definition boot (opts : RemoteServerOptions) (w : World) : Process :=
  {| this_server := new_RemoteServer opts; world := w; waiting := [] |}.

(** A task run to its end with nothing in between. *)
Fixpoint finish {A : Type} (t : Task A) (env : Oracle) (s : State)
  : Res A * State :=
  match t with
  | Settled r => (r, s)
  | Waiting resume => let (t', s') := resume env s in finish t' env s'
  end.

Definition uninterrupted {A : Type} (m : Async A) (env : Oracle) (s : State)
  : Res A * State :=
  let (t, s') := m env s in finish t env s'.

(** The outcome of a method of [Server], on the state the handlers
    share: a method that throws has assigned to no field. *)
Definition outcome (this : RemoteServer) (r : Res RemoteServer * World)
  : Res unit * State :=
  match r with
  | (Ret this', w') => (Ret tt, (this', w'))
  | (Throw e, w') => (Throw e, (this, w'))
  end.

End Turns.

(** ** A concrete environment *)

Module Sample.

(** An oracle whose sockets never throw, with a writable disk and a free
    port; the entropy differs from draw to draw. *)
Definition env : Oracle :=
  {| entropy := fun draw k => Z.of_nat (draw * 7 + k * 13);
     clock := fun draw => 1000 * Z.of_nat draw;
     random36 := fun _ => lit "0.k3x9q2m7w1z5";
     disk_writable := true;
     failed_write := fun held _ => held;
     port_free := true;
     ephemeral_port := 49152;
     sock_throws := fun _ => false;
     process_pid := 4242;
     number_text := fun lexeme => lexeme;
     stringify_depth := 1000;
     join_depth := 1000 |}.

(** The same oracle with a socket 1 that throws on [send] and [close]. *)
Definition env_broken_socket : Oracle :=
  {| entropy := entropy env;
     clock := clock env;
     random36 := random36 env;
     disk_writable := true;
     failed_write := fun held _ => held;
     port_free := true;
     ephemeral_port := 49152;
     sock_throws := fun ws => Nat.eqb ws 1;
     process_pid := 4242;
     number_text := number_text env;
     stringify_depth := 1000;
     join_depth := 1000 |}.

(** The text of a frame, written with single quotes where it has double
    ones. *)
Definition frame (s : string) : jsstring :=
  map (fun c => if c =? 39 then 34 else c) (lit s).

(** A fresh machine: no configuration file, nothing logged. *)
Definition empty_world : World :=
  {| disk := None; audit_log := []; trace := []; draws := 0; sockets := 0 |}.

Definition config_ab : RemoteConfig :=
  {| token := lit "ab"; tokenCreatedAt := 0; tokenVersion := 3 |}.

(** A machine whose configuration file holds the token [ab], version 3. *)
Definition world_ab : World :=
  {| disk := Some config_ab; audit_log := []; trace := []; draws := 0;
     sockets := 0 |}.

Definition options_local : Server.RemoteServerOptions :=
  {| Server.opt_port := 7890; Server.hasToken := false;
     Server.onStart := true; Server.onStop := true;
     Server.onConnect := true; Server.onDisconnect := true |}.

Definition options_remote : Server.RemoteServerOptions :=
  {| Server.opt_port := 7890; Server.hasToken := true;
     Server.onStart := true; Server.onStop := true;
     Server.onConnect := true; Server.onDisconnect := true |}.

Definition no_options : Server.PartialOptions :=
  {| Server.p_port := None; Server.p_onStart := false; Server.p_onStop := false;
     Server.p_onConnect := false; Server.p_onDisconnect := false |}.

(** A session that has not authenticated, and one that has. *)
Definition guest : Server.ClientState :=
  {| Server.id := lit "k3x9q2m7"; Server.ip := lit "10.0.0.5";
     Server.authenticated := false; Server.connectedAt := 0 |}.

Definition member : Server.ClientState :=
  {| Server.id := lit "a1b2c3d4"; Server.ip := lit "10.0.0.6";
     Server.authenticated := true; Server.connectedAt := 0 |}.

(** A running server with the guest on socket 0 and the member on socket 1. *)
Definition running_server : Server.RemoteServer :=
  {| Server.server :=
       Some {| Server.listen_port := 7890;
               Server.listen_hostname := lit "0.0.0.0" |};
     Server.clients := [(0%nat, guest); (1%nat, member)];
     Server.options := options_remote;
     Server.server_startedAt := Some 0 |}.

Definition running_world : World :=
  {| disk := Some config_ab; audit_log := []; trace := []; draws := 5;
     sockets := 2 |}.

End Sample.

(** ** The arguments of the [listen] command *)

Module Listen.

(** [ListenOptions] and [DEFAULT_LISTEN_OPTIONS] of [types.ts]. *)
Record ListenOptions := {
  port : Z;
  daemon : bool;
  rotateToken : bool
}.

Definition DEFAULT_LISTEN_OPTIONS : ListenOptions :=
  {| port := 7890; daemon := false; rotateToken := false |}.

(** [Partial<ListenOptions> & { help?: boolean }]: a property is absent
    until the loop assigns it. *)
Record ParsedOptions := {
  parsed_port : option Z;
  parsed_daemon : option bool;
  parsed_rotateToken : option bool;
  parsed_help : option bool
}.

Definition no_options : ParsedOptions :=
  {| parsed_port := None; parsed_daemon := None; parsed_rotateToken := None;
     parsed_help := None |}.

Definition set_port (p : Z) (o : ParsedOptions) : ParsedOptions :=
  {| parsed_port := Some p; parsed_daemon := parsed_daemon o;
     parsed_rotateToken := parsed_rotateToken o; parsed_help := parsed_help o |}.

Definition set_daemon (o : ParsedOptions) : ParsedOptions :=
  {| parsed_port := parsed_port o; parsed_daemon := Some true;
     parsed_rotateToken := parsed_rotateToken o; parsed_help := parsed_help o |}.

Definition set_rotateToken (o : ParsedOptions) : ParsedOptions :=
  {| parsed_port := parsed_port o; parsed_daemon := parsed_daemon o;
     parsed_rotateToken := Some true; parsed_help := parsed_help o |}.

Definition set_help (o : ParsedOptions) : ParsedOptions :=
  {| parsed_port := parsed_port o; parsed_daemon := parsed_daemon o;
     parsed_rotateToken := parsed_rotateToken o; parsed_help := Some true |}.

(** A call that may end the process: [process.exit(code)] after what was
    written to the standard error. *)
Inductive Outcome (A : Type) :=
| Returned (a : A)
| Exited (stderr : jsstring) (code : Z).

Arguments Returned {A} a.
Arguments Exited {A} stderr code.

(** The white space and the line terminators that [parseInt] skips. *)
Definition is_white_space (c : Z) : bool :=
  (c =? 9) || (c =? 10) || (c =? 11) || (c =? 12) || (c =? 13) || (c =? 32)
  || (c =? 160) || (c =? 5760) || ((8192 <=? c) && (c <=? 8202))
  || (c =? 8232) || (c =? 8233) || (c =? 8239) || (c =? 8287)
  || (c =? 12288) || (c =? 65279).

Fixpoint trim_start (s : jsstring) : jsstring :=
  match s with
  | c :: r => if is_white_space c then trim_start r else s
  | [] => []
  end.

Definition digits_value (ds : jsstring) : Z :=
  fold_left (fun acc c => acc * 10 + (c - 48)) ds 0.

(** [parseInt(s, 10)]: white space is skipped, a sign is read, then the
    longest run of decimal digits; without a digit the result is NaN.  The
    result here is the integer read; the Number is its rounding to a
    double, which is the same integer below 2^53 and never moves a value
    across 65536, the only bound the command compares it with. *)
Definition parseInt10 (s : jsstring) : number :=
  let input := trim_start s in
  let sign := match input with
              | c :: _ => if c =? 45 then -1 else 1
              | [] => 1
              end in
  let input := match input with
               | c :: r => if (c =? 43) || (c =? 45) then r else input
               | [] => input
               end in
  match fst (Json.span_digits input) with
  | [] => NaN
  | digits => Int (sign * digits_value digits)
  end.

(** The chain of [else if] on a flag. *)
Definition flag (arg : jsstring) (options : ParsedOptions) : ParsedOptions :=
  if string_eqb arg (lit "--daemon") || string_eqb arg (lit "-d")
  then set_daemon options
  else if string_eqb arg (lit "--rotate-token") then set_rotateToken options
  else if string_eqb arg (lit "--help") || string_eqb arg (lit "-h")
  then set_help options
  else options.

(** The loop of [parseListenArgs] from index [i] on, over the arguments
    [args[i]], [args[i + 1]], ...: the [--port] branch is taken when
    [args[i + 1]] is defined and not the empty string, and its [i++] skips
    the value. *)
Fixpoint scan (args : list jsstring) (options : ParsedOptions)
  : Outcome ParsedOptions :=
  match args with
  | [] => Returned options
  | arg :: rest =>
      match rest with
      | value :: rest' =>
          if string_eqb arg (lit "--port") && negb (strlen value =? 0)
          then
            match parseInt10 value with
            | Int port =>
                if (0 <? port) && (port <? 65536)
                then scan rest' (set_port port options)
                else Exited (lit "Invalid port: " ++ value) 1
            | NaN => Exited (lit "Invalid port: " ++ value) 1
            end
          else scan rest (flag arg options)
      | [] => scan rest (flag arg options)
      end
  end.

Definition parseListenArgs (args : list jsstring) : Outcome ParsedOptions :=
  scan args no_options.

(** [{ ...DEFAULT_LISTEN_OPTIONS, ...options }] of [executeListenCommand],
    on the three properties of [ListenOptions]. *)
Definition with_defaults (options : ParsedOptions) : ListenOptions :=
  {| port := match parsed_port options with
             | Some p => p
             | None => port DEFAULT_LISTEN_OPTIONS
             end;
     daemon := match parsed_daemon options with
               | Some b => b
               | None => daemon DEFAULT_LISTEN_OPTIONS
               end;
     rotateToken := match parsed_rotateToken options with
                    | Some b => b
                    | None => rotateToken DEFAULT_LISTEN_OPTIONS
                    end |}.

(** [n.toString()] for an integer below 10^21: its decimal digits, after a
    minus sign when it is negative. *)
Fixpoint decimal_digits (fuel : nat) (n : Z) (acc : jsstring) : jsstring :=
  match fuel with
  | O => acc
  | S k =>
      let acc := (48 + n mod 10) :: acc in
      if n / 10 =? 0 then acc else decimal_digits k (n / 10) acc
  end.

Definition number_toString (n : Z) : jsstring :=
  if n <? 0
  then 45 :: decimal_digits (S (Z.to_nat (Z.log2 (- n)))) (- n) []
  else decimal_digits (S (Z.to_nat (Z.log2 n))) n [].

(** The arguments [forkAsDaemon] gives to the process it spawns, after the
    path of the script. *)
Definition daemon_args (port : Z) : list jsstring :=
  [lit "listen"; lit "--port"; number_toString port].

End Listen.

(** ** Vocabulary of the further properties *)

Module Facts.

(** A byte as [crypto.randomBytes] returns it. *)
Definition is_byte (b : Z) : Prop := 0 <= b < 256.

(** The characters of the URL-safe base64 alphabet: letters, digits, [-]
    and [_]. *)
Definition url_safe (c : Z) : Prop :=
  65 <= c <= 90 \/ 97 <= c <= 122 \/ 48 <= c <= 57 \/ c = 45 \/ c = 95.

(** The place of a character in the alphabet. *)
Definition b64_index (c : Z) : Z :=
  if (65 <=? c) && (c <=? 90) then c - 65
  else if (97 <=? c) && (c <=? 122) then c - 71
  else if (48 <=? c) && (c <=? 57) then c + 4
  else if c =? 45 then 62
  else 63.

(** The version on record, 0 when there is no record: what [rotateToken]
    adds one to. *)
Definition version_on_record (config : option RemoteConfig) : Z :=
  match config with
  | Some c => tokenVersion c
  | None => 0
  end.



(** The token [generateToken] returns at a draw: the text of the 32 bytes
    of that draw. *)
Definition drawn_token (env : Oracle) (draw : nat) : jsstring :=
  base64url (map (fun k => entropy env draw k mod 256) (seq 0 Token.TOKEN_BYTES)).

(** [n] calls of [rotateToken] in a row, with the secrets they return. *)
Fixpoint rotate_times (n : nat) : M (list jsstring) :=
  match n with
  | O => ret []
  | S k =>
      newToken <- Token.rotateToken ;;
      rest <- rotate_times k ;;
      ret (newToken :: rest)
  end.

(** The world after an [auth] frame was answered, from the world [w1] that
    [validateToken] left: the handler suspends, sends the response, writes
    the audit entry and suspends twice more. *)
Definition after_auth (env : Oracle) (ws : Ws) (clientState : Server.ClientState)
           (ok : bool) (w1 : World) : World :=
  add_event Await
    (add_event Await
       (add_audit
          {| timestamp := clock env (S (S (draws w1)));
             clientId := Server.client_label clientState;
             action := lit "auth";
             details := None;
             success := ok;
             error := if ok then None else Some (lit "Invalid token") |}
          (next_draw
             (add_event
                (Send ws
                   {| msg_id := Json.Str (substring (random36 env (draws w1)) 2 15);
                      msg_timestamp := clock env (S (draws w1));
                      msg_payload :=
                        AuthResponse ok
                          (if ok then None else Some (lit "Invalid token")) |})
                (next_draw (next_draw (add_event Await w1))))))).

(** A computation that leaves a part of the world as it found it. *)
Definition preserves {T A : Type} (part : World -> T) (m : M A) : Prop :=
  forall env w, part (snd (m env w)) = part w.

(** The sockets of the registry are distinct, as the keys of a [Map] are. *)
Definition registry_distinct (st : Server.RemoteServer * World) : Prop :=
  NoDup (map fst (Server.clients (fst st))).

(** A listening socket agrees with the options and has a start time. *)
Definition coherent (this : Server.RemoteServer) : Prop :=
  match Server.server this with
  | Some listening =>
      Server.listen_hostname listening
      = Server.bind_host (Server.hasToken (Server.options this))
      /\ Server.listen_port listening = Server.opt_port (Server.options this)
      /\ Server.server_startedAt this <> None
  | None => True
  end.

(** The actions that come from a socket. *)
Definition from_socket (a : Server.Action) : Prop :=
  match a with
  | Server.Frame _ _ | Server.Disconnect _ => True
  | _ => False
  end.

(** An oracle with other sockets throwing. *)
Definition with_sock_throws (f : Ws -> bool) (env : Oracle) : Oracle :=
  {| entropy := entropy env;
     clock := clock env;
     random36 := random36 env;
     disk_writable := disk_writable env;
     failed_write := failed_write env;
     port_free := port_free env;
     ephemeral_port := ephemeral_port env;
     sock_throws := f;
     process_pid := process_pid env;
     number_text := number_text env;
     stringify_depth := stringify_depth env;
     join_depth := join_depth env |}.

(** The ids that [JSON.stringify] writes as they are: strings, booleans
    and null. *)
Definition written_as_is (I : Json.value) : Prop :=
  match I with
  | Json.Str _ | Json.Bool _ | Json.Null => True
  | _ => False
  end.

(** A computation that does the same whichever sockets throw. *)
Definition blind {A : Type} (m : M A) : Prop :=
  forall f env w, m (with_sock_throws f env) w = m env w.

(** What the loop of [parseListenArgs] leaves in the property of a flag:
    [true] when one of its spellings is among the arguments, nothing
    otherwise. *)
Definition given (spellings : list jsstring) (args : list jsstring) : option bool :=
  if existsb (fun arg => existsb (string_eqb arg) spellings) args
  then Some true
  else None.

(** No [--port] of the arguments is followed by a value: it comes last, or
    before an empty string. *)
Definition no_port_value (args : list jsstring) : Prop :=
  forall pre value rest,
    args = pre ++ lit "--port" :: value :: rest -> value = [].

(** A text that does not go on with a decimal digit. *)
Definition no_digit_ahead (s : jsstring) : Prop :=
  match s with
  | c :: _ => Json.is_digit c = false
  | [] => True
  end.

End Facts.


(** ** What the handlers keep to *)

Module Guarantees.

Import Server.

(** A task keeps to a guarantee: whenever it goes on, in a state in which
    the condition [G] of the turns holds, the piece of code it runs up to
    its next [await] takes the state to one that [R] relates to it, and
    when it returns, [Q] holds of what it returns. *)
Fixpoint abides {A : Type} (G : Turns.State -> Prop)
         (R : Turns.State -> Turns.State -> Prop) (Q : A -> Prop)
         (t : Turns.Task A) : Prop :=
  match t with
  | Turns.Settled (Ret a) => Q a
  | Turns.Settled (Throw _) => True
  | Turns.Waiting resume =>
      forall env s,
        G s -> let (t', s') := resume env s in R s s' /\ abides G R Q t'
  end.

Definition honours {A : Type} (G : Turns.State -> Prop)
           (R : Turns.State -> Turns.State -> Prop) (Q : A -> Prop)
           (m : Turns.Async A) : Prop :=
  forall env s, G s -> let (t, s') := m env s in R s s' /\ abides G R Q t.

(** [validateToken] says true of [tok] when the file holds [d]. *)
Definition accepted (d : option RemoteConfig) (tok : Json.value) : Prop :=
  exists stored provided,
    tok = Json.Str provided
    /\ Token.truthy_token d = Some stored
    /\ fst (Token.compare_tokens stored provided) = true.

(** What the file has held so far: what it held at first, and what the
    rewrites among the turns have put there. *)
Definition held (d : option RemoteConfig) (turns : list Turns.Turn)
           (config : option RemoteConfig) : Prop :=
  config = d \/ In (Turns.Rewrite config) turns.

(** What the file holds after the turns, when it held [d] before. *)
Definition file_after (turns : list Turns.Turn) (d : option RemoteConfig)
  : option RemoteConfig :=
  fold_left (fun held t => match t with
                           | Turns.Rewrite config => config
                           | _ => held
                           end)
    turns d.

(** The action is an [auth] frame on the socket, with a token that
    [validateToken] accepts against one of the contents the file has
    had. *)
Definition may_raise (seen : option RemoteConfig -> Prop) (a : Action) (ws : Ws)
  : Prop :=
  exists rawMessage message tok d,
    a = Frame ws rawMessage
    /\ Json.parse rawMessage = Some message
    /\ Json.get message (lit "type") = Some (Json.Str (lit "auth"))
    /\ Json.get message (lit "token") = Some tok
    /\ seen d
    /\ accepted d tok.

(** The state between two turns: what the file holds is one of the
    contents [seen], the options are [o], the sockets of the registry are
    sockets the runtime created, and a listening socket agrees with the
    options. *)
Definition at_rest (seen : option RemoteConfig -> Prop) (o : RemoteServerOptions)
           (s : Turns.State) : Prop :=
  seen (disk (snd s))
  /\ options (fst s) = o
  /\ registry_known s
  /\ Facts.coherent (fst s).

(** What a piece of the handler of [a] may do. *)
Definition piece (seen : option RemoteConfig -> Prop) (a : Action)
           (s s' : Turns.State) : Prop :=
  disk (snd s') = disk (snd s)
  /\ sockets (snd s') = sockets (snd s)
  /\ options (fst s') = options (fst s)
  /\ (Facts.coherent (fst s) -> Facts.coherent (fst s'))
  /\ forall ws,
      (session_flag s ws = None -> session_flag s' ws = None)
      /\ (session_flag s ws = Some true -> session_flag s' ws <> Some false)
      /\ (session_flag s ws = Some false -> session_flag s' ws = Some true ->
          may_raise seen a ws).

(** The action for which a turn runs code. *)
Definition runs_for (p : Turns.Process) (t : Turns.Turn) : option Action :=
  match t with
  | Turns.Arrive a => Some a
  | Turns.Resume i => option_map fst (nth_error (Turns.waiting p) i)
  | Turns.Rewrite _ => None
  end.

(** A process in which the state is at rest and every call that waits
    keeps to the guarantee of its action. *)
Definition sound (seen : option RemoteConfig -> Prop) (o : RemoteServerOptions)
           (p : Turns.Process) : Prop :=
  at_rest seen o (Turns.state p)
  /\ Forall (fun call => honours (at_rest seen o) (piece seen (fst call))
                           (fun _ => True) (snd call))
       (Turns.waiting p).

(** A task does the same whichever sockets throw, now and whenever it
    goes on. *)
Fixpoint blind_task {A : Type} (t : Turns.Task A) : Prop :=
  match t with
  | Turns.Settled _ => True
  | Turns.Waiting resume =>
      forall f env s,
        resume (Facts.with_sock_throws f env) s = resume env s
        /\ let (t', _) := resume env s in blind_task t'
  end.

Definition blind_code {A : Type} (m : Turns.Async A) : Prop :=
  forall f env s,
    m (Facts.with_sock_throws f env) s = m env s
    /\ let (t, _) := m env s in blind_task t.

End Guarantees.

(** ** Further concrete environments *)

Module Cases.



(** The sample oracle with a port that is taken. *)
Definition env_port_taken : Oracle :=
  {| entropy := entropy Sample.env;
     clock := clock Sample.env;
     random36 := random36 Sample.env;
     disk_writable := true;
     failed_write := fun held _ => held;
     port_free := false;
     ephemeral_port := 49152;
     sock_throws := fun _ => false;
     process_pid := 4242;
     number_text := number_text Sample.env;
     stringify_depth := 1000;
     join_depth := 1000 |}.

(** Two records whose tokens share their first eight characters. *)
Definition config_long_1 : RemoteConfig :=
  {| token := lit "abcdefgh-first-secret"; tokenCreatedAt := 10; tokenVersion := 1 |}.

Definition config_long_2 : RemoteConfig :=
  {| token := lit "abcdefgh-other-secret"; tokenCreatedAt := 20; tokenVersion := 2 |}.

Definition world_long_1 : World :=
  {| disk := Some config_long_1; audit_log := []; trace := []; draws := 0;
     sockets := 0 |}.

Definition world_long_2 : World :=
  {| disk := Some config_long_2; audit_log := []; trace := []; draws := 0;
     sockets := 0 |}.

(** A record at the version 2^53, the first integer whose successor is no
    double. *)
Definition config_at_limit : RemoteConfig :=
  {| token := lit "ab"; tokenCreatedAt := 0; tokenVersion := 2 ^ 53 |}.

Definition world_at_limit : World :=
  {| disk := Some config_at_limit; audit_log := []; trace := []; draws := 0;
     sockets := 0 |}.

(** A record whose token is the empty string, at version 7. *)
Definition config_blank : RemoteConfig :=
  {| token := []; tokenCreatedAt := 0; tokenVersion := 7 |}.

Definition world_blank : World :=
  {| disk := Some config_blank; audit_log := []; trace := []; draws := 0;
     sockets := 0 |}.

End Cases.


(** ** A play in which a frame overtakes another *)

Module Overtaking.

Import Server.

(** The guest sends the stored token, and asks for the status before the
    answer has come. *)
Definition auth_ab : Action :=
  Frame 0%nat (Sample.frame "{'type':'auth','id':'a2','token':'ab'}").

Definition ask_status : Action :=
  Frame 0%nat (Sample.frame "{'type':'status','id':'s1'}").

(** The server starts, the guest connects and sends the two frames; then
    the handler of the [auth] frame goes on three times: it has read the
    file and compared the token, and has not yet acted on the result.  A
    call that goes on and waits again is the last of those that wait. *)
Definition turns : list Turns.Turn :=
  [Turns.Arrive DoStart; Turns.Resume 0; Turns.Arrive (Connect None);
   Turns.Arrive auth_ab; Turns.Arrive ask_status;
   Turns.Resume 0; Turns.Resume 1; Turns.Resume 1].

Definition process : Turns.Process :=
  Turns.play Sample.env turns (Turns.boot Sample.options_remote Sample.world_ab).

(** The payloads of the messages sent so far. *)
Definition sent (p : Turns.Process) : list (Ws * Payload) :=
  flat_map (fun e => match e with
                     | Send ws m => [(ws, msg_payload m)]
                     | _ => []
                     end)
    (trace (Turns.world p)).

End Overtaking.

(** * Properties *)

(** ** Bit operations on code units *)

Section CodeUnits.

Lemma ToInt32_small (z : Z) : 0 <= z < 2 ^ 31 -> ToInt32 (Int z) = z.
Proof.
  intros H. unfold ToInt32.
  rewrite Z.mod_small; lia.
Qed.

Lemma code_unit_high_bits (z : Z) :
  code_unit z -> forall i, 16 <= i -> Z.testbit z i = false.
Proof.
  intros H i Hi.
  rewrite <- (Z.mod_small z (2 ^ 16)) by (unfold code_unit in H; lia).
  apply Z.mod_pow2_bits_high; lia.
Qed.

Lemma high_bits_code_unit (z : Z) :
  0 <= z -> (forall i, 16 <= i -> Z.testbit z i = false) -> code_unit z.
Proof.
  intros Hz H.
  assert (E : z = z mod 2 ^ 16).
  { apply Z.bits_inj'. intros i Hi.
    destruct (Z_lt_ge_dec i 16) as [Hlt | Hge].
    - rewrite Z.mod_pow2_bits_low by lia. reflexivity.
    - rewrite Z.mod_pow2_bits_high by lia. apply H. lia. }
  unfold code_unit. rewrite E.
  pose proof (Z.mod_pos_bound z (2 ^ 16)). lia.
Qed.

Lemma code_unit_lxor (a b : Z) :
  code_unit a -> code_unit b -> code_unit (Z.lxor a b).
Proof.
  intros Ha Hb. apply high_bits_code_unit.
  - apply Z.lxor_nonneg. unfold code_unit in *. lia.
  - intros i Hi. rewrite Z.lxor_spec.
    rewrite (code_unit_high_bits a Ha i Hi), (code_unit_high_bits b Hb i Hi).
    reflexivity.
Qed.

Lemma code_unit_lor (a b : Z) :
  code_unit a -> code_unit b -> code_unit (Z.lor a b).
Proof.
  intros Ha Hb. apply high_bits_code_unit.
  - apply Z.lor_nonneg. unfold code_unit in *. lia.
  - intros i Hi. rewrite Z.lor_spec.
    rewrite (code_unit_high_bits a Ha i Hi), (code_unit_high_bits b Hb i Hi).
    reflexivity.
Qed.

Lemma bitxor_code_units (a b : Z) :
  code_unit a -> code_unit b -> bitxor (Int a) (Int b) = Int (Z.lxor a b).
Proof.
  intros Ha Hb. unfold bitxor.
  rewrite !ToInt32_small by (unfold code_unit in *; lia). reflexivity.
Qed.

Lemma bitor_code_units (a b : Z) :
  code_unit a -> code_unit b -> bitor (Int a) (Int b) = Int (Z.lor a b).
Proof.
  intros Ha Hb. unfold bitor.
  rewrite !ToInt32_small by (unfold code_unit in *; lia). reflexivity.
Qed.

Lemma charCodeAt_middle (pre suf : jsstring) (a : Z) :
  charCodeAt (pre ++ a :: suf) (Int (Z.of_nat (List.length pre))) = Int a.
Proof.
  unfold charCodeAt, strlen. rewrite length_app. cbn [List.length].
  replace (Z.of_nat (List.length pre) <? 0) with false by (symmetry; apply Z.ltb_ge; lia).
  replace (Z.of_nat (List.length pre + S (List.length suf)) <=? Z.of_nat (List.length pre))
    with false by (symmetry; apply Z.leb_gt; lia).
  cbn [orb]. rewrite Nat2Z.id, nth_middle. reflexivity.
Qed.

Lemma for_loop_count {A : Type} (body : Z -> A -> A) (todo : nat) :
  forall i st, snd (for_loop todo i body st) = (snd st + todo)%nat.
Proof.
  induction todo as [| k IH]; intros i st; cbn [for_loop].
  - lia.
  - rewrite IH. cbn [snd]. lia.
Qed.

End CodeUnits.

(** ** The comparison of [validateToken] *)

Section Comparison.

(** The loop over two strings of one length ends in 0 exactly when the
    accumulator was 0 and the remaining characters agree. *)
Lemma same_length_loop (suf_s : jsstring) :
  forall (suf_p pre_s pre_p : jsstring) (acc : Z) (k : nat),
    List.length pre_s = List.length pre_p ->
    List.length suf_s = List.length suf_p ->
    wf_string suf_s -> wf_string suf_p -> code_unit acc ->
    exists r,
      fst (for_loop (List.length suf_s) (Z.of_nat (List.length pre_s))
             (fun i result =>
                bitor result
                  (bitxor (charCodeAt (pre_s ++ suf_s) (Int i))
                     (charCodeAt (pre_p ++ suf_p) (Int i))))
             (Int acc, k))
      = Int r
      /\ code_unit r
      /\ (r = 0 <-> acc = 0 /\ suf_s = suf_p).
Proof.
  induction suf_s as [| a s' IH]; intros suf_p pre_s pre_p acc k Hpre Hsuf Ws Wp Hacc.
  - destruct suf_p as [| b p']; [| discriminate].
    exists acc. cbn [List.length for_loop fst]. intuition auto.
  - destruct suf_p as [| b p']; [discriminate |].
    cbn [List.length] in Hsuf. injection Hsuf as Hsuf.
    inversion Ws as [| ? ? Ha Ws']; subst.
    inversion Wp as [| ? ? Hb Wp']; subst.
    cbn [List.length for_loop fst snd].
    rewrite charCodeAt_middle, Hpre, charCodeAt_middle, <- Hpre.
    rewrite bitxor_code_units by assumption.
    rewrite bitor_code_units by (auto using code_unit_lxor).
    specialize (IH p' (pre_s ++ [a]) (pre_p ++ [b]) (Z.lor acc (Z.lxor a b)) (S k)).
    rewrite <- !app_assoc in IH. cbn [app] in IH.
    rewrite !length_app in IH. cbn [List.length] in IH.
    replace (Z.of_nat (List.length pre_s + 1)) with (Z.of_nat (List.length pre_s) + 1)
      in IH by lia.
    destruct IH as (r & Hr & Hcu & Hiff);
      [lia | assumption | assumption | assumption
       | auto using code_unit_lor, code_unit_lxor |].
    exists r. split; [exact Hr |]. split; [exact Hcu |].
    rewrite Hiff, Z.lor_eq_0_iff. split.
    + intros [[H0 Hx] Heq]. apply Z.lxor_eq in Hx. subst. auto.
    + intros [H0 Heq]. injection Heq as -> ->.
      rewrite Z.lxor_nilpotent. auto.
Qed.

(** On well-formed strings the comparison answers equality. *)
Lemma compare_tokens_true_iff (storedToken providedToken : jsstring) :
  wf_string storedToken -> wf_string providedToken ->
  (fst (Token.compare_tokens storedToken providedToken) = true
   <-> providedToken = storedToken).
Proof.
  intros Ws Wp. unfold Token.compare_tokens, strlen.
  destruct (Z.eqb_spec (Z.of_nat (List.length providedToken))
              (Z.of_nat (List.length storedToken))) as [E | E]; cbn [negb fst].
  - apply Nat2Z.inj in E.
    destruct (same_length_loop storedToken providedToken [] [] 0 O)
      as (r & Hr & _ & Hiff);
      [reflexivity | auto | assumption | assumption | unfold code_unit; lia |].
    cbn [app List.length Z.of_nat] in Hr.
    rewrite Hr. cbn [is_zero].
    rewrite Z.eqb_eq, Hiff. split; [intros [_ H]; auto | intros H; auto].
  - split; [discriminate | intros H; subst; contradiction].
Qed.

(** Both loops run once per character of the stored token. *)
Lemma compare_tokens_iterations (storedToken providedToken : jsstring) :
  snd (Token.compare_tokens storedToken providedToken) = List.length storedToken.
Proof.
  unfold Token.compare_tokens.
  destruct (negb _); cbn [snd]; rewrite for_loop_count; reflexivity.
Qed.


End Comparison.


(** ** Generated tokens *)

Section GeneratedTokens.

Lemma base64url_alphabet_wf : wf_string base64url_alphabet.
Proof.
  unfold wf_string, base64url_alphabet, code_unit.
  vm_compute lit. repeat constructor; lia.
Qed.

Lemma b64_code_unit (n : Z) : code_unit (b64 n).
Proof.
  unfold b64.
  destruct (nth_in_or_default (Z.to_nat n) base64url_alphabet 0) as [Hin | ->].
  - exact (proj1 (Forall_forall _ _) base64url_alphabet_wf _ Hin).
  - unfold code_unit. lia.
Qed.

(** The encoding is defined three bytes at a time; so is the induction. *)
Lemma base64url_ind3 (P : list Z -> jsstring -> Prop) :
  P [] [] ->
  (forall a, P [a] (base64url [a])) ->
  (forall a b, P [a; b] (base64url [a; b])) ->
  (forall a b c rest,
      P rest (base64url rest) ->
      P (a :: b :: c :: rest) (base64url (a :: b :: c :: rest))) ->
  forall bs, P bs (base64url bs).
Proof.
  intros H0 H1 H2 H3.
  assert (H : forall bs,
             P bs (base64url bs)
             /\ (forall a, P (a :: bs) (base64url (a :: bs)))
             /\ (forall a b, P (a :: b :: bs) (base64url (a :: b :: bs)))).
  { induction bs as [| c bs (IH0 & IH1 & IH2)].
    - auto.
    - repeat split; auto. }
  intros bs. apply H.
Qed.

Lemma base64url_wf (bs : list Z) : wf_string (base64url bs).
Proof.
  apply (base64url_ind3 (fun _ s => wf_string s)); unfold wf_string; intros;
    cbn [base64url]; repeat (apply Forall_cons; [apply b64_code_unit |]);
    auto.
Qed.

Lemma base64url_length (bs : list Z) :
  (3 * List.length (base64url bs) = 4 * List.length bs + Nat.modulo (2 * List.length bs) 3)%nat.
Proof.
  apply (base64url_ind3
           (fun bs s => (3 * List.length s = 4 * List.length bs
                                             + Nat.modulo (2 * List.length bs) 3)%nat)).
  - reflexivity.
  - reflexivity.
  - reflexivity.
  - intros a b c rest IH. cbn [base64url List.length].
    replace (2 * S (S (S (List.length rest))))%nat
      with (2 * List.length rest + 2 * 3)%nat by lia.
    rewrite Nat.Div0.mod_add. lia.
Qed.

Lemma randomBytes_run (n : nat) (env : Oracle) (w : World) :
  exists bytes,
    randomBytes n env w = (Ret bytes, next_draw w) /\ List.length bytes = n.
Proof.
  eexists. split; [reflexivity |]. rewrite length_map, length_seq. reflexivity.
Qed.

(** [generateToken] draws once and returns 43 code units of the base64url
    alphabet. *)
Lemma generateToken_run (env : Oracle) (w : World) :
  exists tok,
    Token.generateToken env w = (Ret tok, next_draw w)
    /\ List.length tok = 43%nat
    /\ wf_string tok.
Proof.
  unfold Token.generateToken, bind, ret.
  destruct (randomBytes_run Token.TOKEN_BYTES env w) as (bytes & -> & Hlen).
  exists (base64url bytes). split; [reflexivity |]. split.
  - pose proof (base64url_length bytes) as H. rewrite Hlen in H.
    unfold Token.TOKEN_BYTES in H. cbn in H. lia.
  - apply base64url_wf.
Qed.

End GeneratedTokens.


(** ** The token store *)

Section TokenStore.

Lemma string_eqb_eq (a b : jsstring) : string_eqb a b = true <-> a = b.
Proof.
  unfold string_eqb. destruct (list_eq_dec Z.eq_dec a b); split; congruence.
Qed.

Lemma string_eqb_refl (a : jsstring) : string_eqb a a = true.
Proof. apply string_eqb_eq. reflexivity. Qed.

(** A credential exists when the file holds a record whose token is not the
    empty string. *)
Lemma truthy_token_Some (config : option RemoteConfig) (t : jsstring) :
  Token.truthy_token config = Some t
  <-> exists c, config = Some c /\ token c <> [] /\ t = token c.
Proof.
  unfold Token.truthy_token. destruct config as [c |].
  - destruct (string_eqb (token c) []) eqn:E.
    + apply string_eqb_eq in E. split; [discriminate |].
      intros (c' & H & Hne & _). injection H as <-. contradiction.
    + split.
      * intros H. injection H as <-. exists c. repeat split.
        intros H. rewrite H in E. discriminate.
      * intros (c' & H & _ & ->). injection H as <-. reflexivity.
  - split; [discriminate | intros (c & H & _); discriminate].
Qed.

Lemma truthy_token_None (config : option RemoteConfig) :
  Token.truthy_token config = None
  <-> config = None \/ exists c, config = Some c /\ token c = [].
Proof.
  unfold Token.truthy_token. destruct config as [c |].
  - destruct (string_eqb (token c) []) eqn:E.
    + apply string_eqb_eq in E. split; eauto.
    + split; [discriminate |].
      intros [H | (c' & H & Hc)]; [discriminate |]. injection H as <-.
      rewrite Hc in E. discriminate.
  - split; auto.
Qed.

(** What [validateToken] does with a string: it reads the file, suspends
    once and answers; it writes nothing. *)
Lemma validateToken_string_run (env : Oracle) (w : World) (candidate : jsstring) :
  Token.validateToken (Json.Str candidate) env w
  = (Ret match Token.truthy_token (disk w) with
         | Some storedToken => fst (Token.compare_tokens storedToken candidate)
         | None => false
         end,
     add_event Await w).
Proof.
  unfold Token.validateToken, await, bind, Token.loadRemoteConfig, emit, ret.
  destruct (Token.truthy_token (disk w)); reflexivity.
Qed.

(** What it does with anything else, once a credential exists: the
    comparison calls [charCodeAt] on a value that has none. *)
Remark validateToken_non_string_throws (env : Oracle) (w : World)
       (stored : jsstring) (v : Json.value) :
  Token.truthy_token (disk w) = Some stored ->
  (forall s, v <> Json.Str s) ->
  Token.validateToken v env w = (Throw TypeError, add_event Await w).
Proof.
  intros H Hv.
  unfold Token.validateToken, await, bind, Token.loadRemoteConfig, emit, ret.
  rewrite H. destruct v; try reflexivity. exfalso. eapply Hv. reflexivity.
Qed.

(** C2.  For every state of the configuration file and every candidate
    string, [validateToken] returns (it never throws) and the answer is true
    exactly when a credential exists and the candidate is the stored secret;
    without a credential, and for the empty candidate, the answer is
    false. *)
Theorem validateToken_true_iff (env : Oracle) (w : World) (candidate : jsstring) :
  wf_string candidate ->
  (forall c, disk w = Some c -> wf_string (token c)) ->
  exists b,
    Token.validateToken (Json.Str candidate) env w = (Ret b, add_event Await w)
    /\ (b = true
        <-> exists c, disk w = Some c /\ token c <> [] /\ candidate = token c)
    /\ (Token.truthy_token (disk w) = None -> b = false)
    /\ (candidate = [] -> b = false).
Proof.
  intros Wc Wd. rewrite validateToken_string_run.
  eexists. split; [reflexivity |].
  destruct (Token.truthy_token (disk w)) as [stored |] eqn:E.
  - apply truthy_token_Some in E. destruct E as (c & Hc & Hne & ->).
    pose proof (compare_tokens_true_iff (token c) candidate (Wd c Hc) Wc) as Hiff.
    split; [| split].
    + rewrite Hiff. split.
      * intros ->. exists c. auto.
      * intros (c' & Hc' & _ & ->). congruence.
    + discriminate.
    + intros ->. apply Bool.not_true_is_false. intros F.
      apply Hiff in F. congruence.
  - split; [| auto]. split; [discriminate |].
    intros (c & Hc & Hne & _). apply truthy_token_None in E.
    destruct E as [E | (c' & E & Hempty)]; congruence.
Qed.

(** At the token [ab] of the sample machine: the candidate [ab] is accepted. *)
Lemma validateToken_true_iff_witness :
  exists b,
    Token.validateToken (Json.Str (lit "ab")) Sample.env Sample.world_ab
    = (Ret b, add_event Await Sample.world_ab)
    /\ (b = true
        <-> exists c, disk Sample.world_ab = Some c /\ token c <> []
                      /\ lit "ab" = token c)
    /\ (Token.truthy_token (disk Sample.world_ab) = None -> b = false)
    /\ (lit "ab" = [] -> b = false).
Proof.
  apply (validateToken_true_iff Sample.env Sample.world_ab (lit "ab")).
  - repeat constructor; unfold code_unit; cbn; lia.
  - intros c H. injection H as <-.
    repeat constructor; unfold code_unit; cbn; lia.
Defined.









(** [rotateToken] on a writable disk: one draw for the token, one for the
    date, and the record replaced. *)
Lemma rotateToken_run (env : Oracle) (w : World) :
  disk_writable env = true ->
  exists newToken,
    List.length newToken = 43%nat
    /\ wf_string newToken
    /\ Token.rotateToken env w
       = (Ret newToken,
          add_event Await
            (set_disk
               (Some {| token := newToken;
                        tokenCreatedAt := clock env (S (draws w));
                        tokenVersion :=
                          add match disk w with
                              | Some c => tokenVersion c
                              | None => 0
                              end 1 |})
               (next_draw (next_draw (add_event Await w))))).
Proof.
  intros Hw.
  destruct (generateToken_run env (add_event Await w)) as (tok & Hgen & Hlen & Hwf).
  exists tok. split; [exact Hlen |]. split; [exact Hwf |].
  unfold Token.rotateToken, await, bind, Token.loadRemoteConfig, emit, ret.
  rewrite Hgen. unfold now, Token.saveRemoteConfig. rewrite Hw. reflexivity.
Qed.

(** [getOrCreateToken] when the file holds a credential: nothing is drawn
    and nothing written. *)
Lemma getOrCreateToken_existing (env : Oracle) (w : World) (stored : jsstring) :
  Token.truthy_token (disk w) = Some stored ->
  Token.getOrCreateToken env w = (Ret (stored, false), add_event Await w).
Proof.
  intros H.
  unfold Token.getOrCreateToken, await, bind, Token.loadRemoteConfig, emit, ret.
  rewrite H. reflexivity.
Qed.

(** [getOrCreateToken] when it does not, on a writable disk. *)
Lemma getOrCreateToken_fresh (env : Oracle) (w : World) :
  Token.truthy_token (disk w) = None ->
  disk_writable env = true ->
  exists newToken,
    List.length newToken = 43%nat
    /\ wf_string newToken
    /\ Token.getOrCreateToken env w
       = (Ret (newToken, true),
          add_event Await
            (set_disk
               (Some {| token := newToken;
                        tokenCreatedAt := clock env (S (draws w));
                        tokenVersion := 1 |})
               (next_draw (next_draw (add_event Await w))))).
Proof.
  intros Hnone Hw.
  destruct (generateToken_run env (add_event Await w)) as (tok & Hgen & Hlen & Hwf).
  exists tok. split; [exact Hlen |]. split; [exact Hwf |].
  unfold Token.getOrCreateToken, await, bind, Token.loadRemoteConfig, emit, ret.
  rewrite Hnone, Hgen. unfold now, Token.saveRemoteConfig. rewrite Hw. reflexivity.
Qed.

Lemma length_43_nonempty (s : jsstring) : List.length s = 43%nat -> s <> [].
Proof. intros H ->. discriminate. Qed.

(** Validation looks at the file only: against a record with a non-empty
    well-formed token, exactly that token validates. *)
Lemma validateToken_against (env : Oracle) (w : World) (c : RemoteConfig)
      (candidate : jsstring) :
  disk w = Some c -> token c <> [] -> wf_string (token c) -> wf_string candidate ->
  Token.validateToken (Json.Str candidate) env w
  = (Ret (string_eqb candidate (token c)), add_event Await w).
Proof.
  intros Hd Hne Wt Wc. rewrite validateToken_string_run.
  assert (E : Token.truthy_token (disk w) = Some (token c)).
  { apply truthy_token_Some. exists c. auto. }
  rewrite E. f_equal. f_equal.
  pose proof (compare_tokens_true_iff (token c) candidate Wt Wc) as Hiff.
  pose proof (string_eqb_eq candidate (token c)) as Heq.
  destruct (fst (Token.compare_tokens (token c) candidate)),
    (string_eqb candidate (token c)); intuition congruence.
Qed.

Lemma add_safe (v : Z) : - 2 ^ 53 <= v < 2 ^ 53 -> add v 1 = v + 1.
Proof.
  intros H. unfold add, to_double.
  destruct (Z.abs (v + 1) <? 2 ^ 53) eqn:E; [reflexivity |].
  apply Z.ltb_ge in E. assert (v + 1 = 2 ^ 53) as -> by lia. reflexivity.
Qed.

Lemma rotateToken_drawn (env : Oracle) (w : World) :
  disk_writable env = true ->
  Token.rotateToken env w
  = (Ret (Facts.drawn_token env (draws w)),
     add_event Await
       (set_disk
          (Some {| token := Facts.drawn_token env (draws w);
                   tokenCreatedAt := clock env (S (draws w));
                   tokenVersion := add (Facts.version_on_record (disk w)) 1 |})
          (next_draw (next_draw (add_event Await w))))).
Proof.
  intros Hw.
  unfold Token.rotateToken, await, bind, Token.loadRemoteConfig, emit, ret.
  unfold Token.generateToken, bind, randomBytes, ret, now, Token.saveRemoteConfig.
  rewrite Hw. reflexivity.
Qed.

Lemma drawn_token_shape (env : Oracle) (draw : nat) :
  List.length (Facts.drawn_token env draw) = 43%nat
  /\ wf_string (Facts.drawn_token env draw).
Proof.
  unfold Facts.drawn_token. split; [| apply base64url_wf].
  pose proof (base64url_length
                (map (fun k => entropy env draw k mod 256) (seq 0 Token.TOKEN_BYTES)))
    as H.
  rewrite length_map, length_seq in H.
  change Token.TOKEN_BYTES with 32%nat in *.
  change (Nat.modulo (2 * 32) 3) with 1%nat in H. lia.
Qed.

(** C4, as the code has it.  On a writable disk [rotateToken] returns a
    secret S2, the base64url text of the 32 bytes it draws, and leaves a
    record that holds S2.  The version of that record is the JavaScript sum
    of the version on record (0 without a record) and 1, which is one more
    as long as the version on record is below 2^53.  From then on, as long
    as the file is not written again, a string validates exactly when it is
    S2: S2 does, and the prior secret S1 is refused exactly when it is not
    S2, that is, unless the draw gave the bytes of S1 again. *)
Theorem rotateToken_invalidates (env : Oracle) (w : World) :
  disk_writable env = true ->
  exists S2 w' c',
    Token.rotateToken env w = (Ret S2, w')
    /\ S2 = Facts.drawn_token env (draws w)
    /\ List.length S2 = 43%nat
    /\ disk w' = Some c'
    /\ token c' = S2
    /\ tokenVersion c' = add (Facts.version_on_record (disk w)) 1
    /\ (- 2 ^ 53 <= Facts.version_on_record (disk w) < 2 ^ 53 ->
        tokenVersion c' = Facts.version_on_record (disk w) + 1)
    /\ forall later_env later,
        disk later = disk w' ->
        Token.validateToken (Json.Str S2) later_env later
        = (Ret true, add_event Await later)
        /\ (forall candidate,
               wf_string candidate ->
               exists b,
                 Token.validateToken (Json.Str candidate) later_env later
                 = (Ret b, add_event Await later)
                 /\ (b = true <-> candidate = S2))
        /\ (forall c,
               disk w = Some c -> wf_string (token c) ->
               exists b,
                 Token.validateToken (Json.Str (token c)) later_env later
                 = (Ret b, add_event Await later)
                 /\ (b = false <-> token c <> S2)).
Proof.
  intros Hw.
  destruct (drawn_token_shape env (draws w)) as [Hlen Hwf].
  eexists _, _, _. split; [exact (rotateToken_drawn env w Hw) |].
  split; [reflexivity |]. split; [exact Hlen |].
  split; [reflexivity |]. split; [reflexivity |]. split; [reflexivity |].
  split; [intros Hsafe; cbn [tokenVersion]; apply add_safe; exact Hsafe |].
  intros env2 w2 Hd. cbn [disk add_event set_disk] in Hd.
  assert (Hother : forall candidate,
             wf_string candidate ->
             Token.validateToken (Json.Str candidate) env2 w2
             = (Ret (string_eqb candidate (Facts.drawn_token env (draws w))),
                add_event Await w2)).
  { intros candidate Wc.
    apply (validateToken_against env2 w2 _ candidate Hd);
      cbn [token]; auto using length_43_nonempty. }
  split; [| split].
  - rewrite Hother by assumption. rewrite string_eqb_refl. reflexivity.
  - intros candidate Wc. eexists. split; [apply Hother; exact Wc |].
    apply string_eqb_eq.
  - intros c _ Wc. eexists. split; [apply Hother; exact Wc |].
    rewrite <- string_eqb_eq.
    destruct (string_eqb (token c) (Facts.drawn_token env (draws w)));
      split; congruence.
Qed.

(** On the sample machine, whose file holds [ab] at version 3: the version
    becomes 4 and [ab] is refused. *)
Lemma rotateToken_invalidates_witness :
  exists S2 w' c',
    Token.rotateToken Sample.env Sample.world_ab = (Ret S2, w')
    /\ List.length S2 = 43%nat
    /\ disk w' = Some c'
    /\ token c' = S2
    /\ tokenVersion c' = 4
    /\ Token.validateToken (Json.Str S2) Sample.env w'
       = (Ret true, add_event Await w')
    /\ Token.validateToken (Json.Str (lit "ab")) Sample.env w'
       = (Ret false, add_event Await w').
Proof.
  destruct (rotateToken_invalidates Sample.env Sample.world_ab eq_refl)
    as (S2 & w' & c' & Hrun & HS2 & Hlen & Hd & Ht & _ & Hv & Hlater).
  exists S2, w', c'.
  destruct (Hlater Sample.env w' eq_refl) as (Hnew & _ & Hold).
  destruct (Hold Sample.config_ab eq_refl) as (b & Hb & Hiff).
  { cbv. repeat constructor; discriminate. }
  repeat split; try assumption.
  - apply Hv. vm_compute. split; [discriminate | reflexivity].
  - change (token Sample.config_ab) with (lit "ab") in Hb. rewrite Hb.
    replace b with false; [reflexivity |].
    symmetry. apply Hiff. intros E.
    rewrite <- E in Hlen. discriminate Hlen.
Defined.

(** C4, as stated, fails at the version 2^53: the sum with 1 is 2^53 again,
    so the rotation leaves the version where it was. *)
Lemma rotateToken_version_stuck :
  tokenVersion Cases.config_at_limit = 2 ^ 53
  /\ exists S2 w' c',
       Token.rotateToken Sample.env Cases.world_at_limit = (Ret S2, w')
       /\ disk w' = Some c'
       /\ token c' = S2
       /\ tokenVersion c' = 2 ^ 53
       /\ tokenVersion c' <> tokenVersion Cases.config_at_limit + 1.
Proof.
  split; [reflexivity |].
  eexists _, _, _.
  split; [exact (rotateToken_drawn Sample.env Cases.world_at_limit eq_refl) |].
  repeat split. discriminate.
Qed.



End TokenStore.


(** ** The message router *)

Section Router.

Import Server.

Lemma createMessage_run (data : Payload) (env : Oracle) (w : World) :
  createMessage data env w
  = (Ret {| msg_id := Json.Str (substring (random36 env (draws w)) 2 15);
            msg_timestamp := clock env (S (draws w));
            msg_payload := data |},
     next_draw (next_draw w)).
Proof. reflexivity. Qed.

(** [send] never throws: it sends nothing when the message cannot be
    written, and otherwise records the call with the message as written
    and swallows what the socket throws. *)
Lemma send_written (ws : Ws) (message : WSMessage) (env : Oracle) (w : World) :
  send ws message env w
  = (Ret tt,
     if (stringify_depth env <? Json.nesting (msg_id message))%nat then w
     else
       add_event
         (Send ws {| msg_id := Json.written (number_text env) (msg_id message);
                     msg_timestamp := msg_timestamp message;
                     msg_payload := msg_payload message |}) w).
Proof.
  unfold send, try_catch, JSON_stringify, ws_send, bind, emit, ret.
  destruct (stringify_depth env <? Json.nesting (msg_id message))%nat;
    [reflexivity |].
  destruct (sock_throws env ws); reflexivity.
Qed.

(** A message whose id is a string, as those [createMessage] makes, is
    written as it is. *)
Lemma send_run (ws : Ws) (mid : jsstring) (ts : isotime) (data : Payload)
      (env : Oracle) (w : World) :
  send ws {| msg_id := Json.Str mid; msg_timestamp := ts; msg_payload := data |}
    env w
  = (Ret tt,
     add_event
       (Send ws {| msg_id := Json.Str mid; msg_timestamp := ts;
                   msg_payload := data |}) w).
Proof. rewrite send_written. reflexivity. Qed.

Lemma sendError_run (ws : Ws) (code : jsstring) (message : Text)
      (env : Oracle) (w : World) :
  sendError ws code message env w
  = (Ret tt,
     add_event
       (Send ws {| msg_id := Json.Str (substring (random36 env (draws w)) 2 15);
                   msg_timestamp := clock env (S (draws w));
                   msg_payload := ErrorPayload code message |})
       (next_draw (next_draw w))).
Proof.
  unfold sendError, bind. rewrite createMessage_run, send_run. reflexivity.
Qed.

Lemma sendPong_run (ws : Ws) (requestId : Json.value) (env : Oracle) (w : World) :
  sendPong ws requestId env w
  = (Ret tt,
     if (stringify_depth env <? Json.nesting requestId)%nat
     then next_draw (next_draw w)
     else
       add_event
         (Send ws {| msg_id := Json.written (number_text env) requestId;
                     msg_timestamp := clock env (S (draws w));
                     msg_payload := Pong |})
         (next_draw (next_draw w))).
Proof.
  unfold sendPong, bind. rewrite createMessage_run.
  cbn [msg_timestamp msg_payload]. rewrite send_written. reflexivity.
Qed.

Lemma written_as_is_written (print : jsstring -> jsstring) (I : Json.value) :
  Facts.written_as_is I -> Json.written print I = I /\ Json.nesting I = O.
Proof. destruct I; cbn; intros H; try contradiction; auto. Qed.

Lemma log_run (clientId action : jsstring)
      (details : option (list (jsstring * Detail)))
      (success : bool) (error : option jsstring) (env : Oracle) (w : World) :
  Audit.log clientId action details success error env w
  = (Ret tt,
     add_audit {| timestamp := clock env (draws w); clientId := clientId;
                  action := action; details := details; success := success;
                  error := error |}
       (next_draw w)).
Proof. reflexivity. Qed.

Lemma is_string_ping_auth :
  Json.is_string (Json.Str (lit "ping")) (lit "auth") = false.
Proof. reflexivity. Qed.

Lemma is_string_ping_ping :
  Json.is_string (Json.Str (lit "ping")) (lit "ping") = true.
Proof. reflexivity. Qed.

(** C9, as the code has it.  A ping with correlation id I, on a session in
    whatever state, is answered in the turn in which the frame arrives:
    the call of the handler has settled when that turn ends, without an
    [await].  The answer is one pong whose id is I when I is a string, a
    boolean or null, and in general one pong whose id is I as
    [JSON.stringify] writes it, or nothing when I is nested deeper than the
    serialiser can go.  The server, and with it the session, is as before;
    nothing is logged and the file is not touched. *)
Theorem ping_answered_with_same_id
        (this : RemoteServer) (ws : Ws) (clientState : ClientState)
        (rawMessage : jsstring) (message I : Json.value)
        (env : Oracle) (w : World) :
  map_get ws (clients this) = Some clientState ->
  Json.parse rawMessage = Some message ->
  Json.get message (lit "type") = Some (Json.Str (lit "ping")) ->
  Json.get message (lit "id") = Some I ->
  exists w' ts,
    ws_message this ws rawMessage env w = (Ret this, w')
    /\ (Facts.written_as_is I ->
        trace w'
        = trace w ++ [Send ws {| msg_id := I; msg_timestamp := ts;
                                 msg_payload := Pong |}])
    /\ trace w'
       = trace w
         ++ (if (stringify_depth env <? Json.nesting I)%nat then []
             else [Send ws {| msg_id := Json.written (number_text env) I;
                              msg_timestamp := ts;
                              msg_payload := Pong |}])
    /\ msg_type {| msg_id := I; msg_timestamp := ts; msg_payload := Pong |}
       = lit "pong"
    /\ audit_log w' = audit_log w
    /\ disk w' = disk w
    /\ step env (Frame ws rawMessage) (this, w) = (this, w')
    /\ Turns.call (Frame ws rawMessage) env (this, w)
       = (Turns.Settled (Ret tt), (this, w')).
Proof.
  intros Hget Hparse Htype Hid.
  assert (Hrun : ws_message this ws rawMessage env w
                 = (Ret this,
                    if (stringify_depth env <? Json.nesting I)%nat
                    then next_draw (next_draw w)
                    else
                      add_event
                        (Send ws {| msg_id := Json.written (number_text env) I;
                                    msg_timestamp := clock env (S (draws w));
                                    msg_payload := Pong |})
                        (next_draw (next_draw w)))).
  { unfold ws_message. rewrite Hget. unfold handleMessage. rewrite Hparse.
    unfold prop, bind. rewrite Htype. cbn [ret].
    rewrite is_string_ping_auth, is_string_ping_ping, Hid. cbn [ret].
    rewrite sendPong_run. reflexivity. }
  eexists _, (clock env (S (draws w))). split; [exact Hrun |].
  split; [| split; [| split; [| split; [| split; [| split]]]]].
  - intros Has. destruct (written_as_is_written (number_text env) I Has) as [-> ->].
    reflexivity.
  - destruct (stringify_depth env <? Json.nesting I)%nat;
      [cbn; rewrite app_nil_r |]; reflexivity.
  - reflexivity.
  - destruct (stringify_depth env <? Json.nesting I)%nat; reflexivity.
  - destruct (stringify_depth env <? Json.nesting I)%nat; reflexivity.
  - cbn [step]. unfold settle. rewrite Hrun. reflexivity.
  - cbn [Turns.call]. unfold Turns.ws_message, Turns.bind, Turns.self.
    cbn [Turns.after fst snd]. rewrite Hget.
    unfold Turns.handleMessage. rewrite Hparse.
    unfold Turns.bind, Turns.sync, prop. cbn [fst snd].
    rewrite Htype. cbn [ret Turns.after].
    rewrite is_string_ping_auth, is_string_ping_ping.
    unfold Turns.bind. rewrite Hid. cbn [ret Turns.after fst snd].
    rewrite sendPong_run. reflexivity.
Qed.

(** A ping from the guest of the sample server. *)
Lemma ping_answered_with_same_id_witness :
  exists w' ts,
    ws_message Sample.running_server 0%nat
      (Sample.frame "{'type':'ping','id':'p7'}") Sample.env Sample.running_world
    = (Ret Sample.running_server, w')
    /\ trace w'
       = trace Sample.running_world
         ++ [Send 0%nat {| msg_id := Json.Str (lit "p7"); msg_timestamp := ts;
                           msg_payload := Pong |}]
    /\ audit_log w' = audit_log Sample.running_world
    /\ disk w' = disk Sample.running_world
    /\ step Sample.env (Frame 0%nat (Sample.frame "{'type':'ping','id':'p7'}"))
         (Sample.running_server, Sample.running_world)
       = (Sample.running_server, w')
    /\ Turns.call (Frame 0%nat (Sample.frame "{'type':'ping','id':'p7'}"))
         Sample.env (Sample.running_server, Sample.running_world)
       = (Turns.Settled (Ret tt), (Sample.running_server, w')).
Proof.
  destruct (ping_answered_with_same_id Sample.running_server 0%nat Sample.guest
              (Sample.frame "{'type':'ping','id':'p7'}")
              (Json.Obj [(lit "type", Json.Str (lit "ping"));
                         (lit "id", Json.Str (lit "p7"))])
              (Json.Str (lit "p7")) Sample.env Sample.running_world
              eq_refl eq_refl eq_refl eq_refl)
    as (w' & ts & Hrun & Hsame & _ & _ & Hlog & Hdisk & Hstep & Hturn).
  exists w', ts. repeat split; try assumption. apply Hsame. exact I.
Defined.

(** C9, as stated, fails for an id that is a number too large for a double:
    the ping [{"type":"ping","id":1e400}] parses, and the pong that answers
    it carries the id [null]. *)
Lemma overflowing_id_comes_back_null :
  Json.parse (Sample.frame "{'type':'ping','id':1e400}")
  = Some (Json.Obj [(lit "type", Json.Str (lit "ping"));
                    (lit "id", Json.Num (lit "1e400"))])
  /\ (let (r, w') :=
        ws_message Sample.running_server 0%nat
          (Sample.frame "{'type':'ping','id':1e400}") Sample.env
          Sample.running_world in
      r = Ret Sample.running_server
      /\ trace w'
         = [Send 0%nat {| msg_id := Json.Null; msg_timestamp := 6000;
                          msg_payload := Pong |}])
  /\ Json.Null <> Json.Num (lit "1e400").
Proof.
  split; [vm_compute; reflexivity |].
  split; [vm_compute; split; reflexivity | discriminate].
Qed.

(** C5.  A parsed message whose type is neither [auth] nor [ping], on a
    session that has not authenticated, is answered by one error message
    with code NOT_AUTHENTICATED; the audit log gains exactly one entry, with
    [success] false and the message type as detail; no socket is closed and
    the server, and with it the session, is as before. *)
Theorem unauthenticated_message_refused
        (this : RemoteServer) (ws : Ws) (clientState : ClientState)
        (rawMessage : jsstring) (message type : Json.value)
        (env : Oracle) (w : World) :
  map_get ws (clients this) = Some clientState ->
  authenticated clientState = false ->
  Json.parse rawMessage = Some message ->
  Json.get message (lit "type") = Some type ->
  Json.is_string type (lit "auth") = false ->
  Json.is_string type (lit "ping") = false ->
  exists w' response entry,
    ws_message this ws rawMessage env w = (Ret this, w')
    /\ trace w' = trace w ++ [Send ws response; Await]
    /\ msg_payload response
       = ErrorPayload (lit "NOT_AUTHENTICATED")
           (Literal (lit "Authentication required"))
    /\ audit_log w' = audit_log w ++ [entry]
    /\ success entry = false
    /\ details entry = Some [(lit "messageType", DetailValue type)]
    /\ clientId entry = client_label clientState
    /\ session_flag (step env (Frame ws rawMessage) (this, w)) ws = Some false.
Proof.
  intros Hget Hauth Hparse Htype Hna Hnp.
  assert (Hrun : exists w',
             ws_message this ws rawMessage env w = (Ret this, w')
             /\ trace w'
                = trace w
                  ++ [Send ws
                        {| msg_id := Json.Str (substring (random36 env (draws w)) 2 15);
                           msg_timestamp := clock env (S (draws w));
                           msg_payload :=
                             ErrorPayload (lit "NOT_AUTHENTICATED")
                               (Literal (lit "Authentication required")) |};
                      Await]
             /\ audit_log w'
                = audit_log w
                  ++ [{| timestamp := clock env (S (S (draws w)));
                         clientId := client_label clientState;
                         action := lit "unauthorized_message";
                         details := Some [(lit "messageType", DetailValue type)];
                         success := false;
                         error := Some (lit "Not authenticated") |}]).
  { unfold ws_message. rewrite Hget. unfold handleMessage. rewrite Hparse.
    unfold prop, bind at 1. rewrite Htype. cbn [ret].
    rewrite Hna, Hnp, Hauth. cbn [negb].
    unfold bind, await, Audit.logFailure. rewrite sendError_run.
    unfold bind. rewrite log_run. cbn [emit ret].
    eexists. split; [reflexivity |]. cbn [trace audit_log add_event add_audit next_draw draws].
    rewrite <- app_assoc. split; reflexivity. }
  destruct Hrun as (w' & Hrun & Htrace & Haudit).
  eexists w', _, _. split; [exact Hrun |]. split; [exact Htrace |].
  split; [reflexivity |]. split; [exact Haudit |].
  repeat split.
  cbn [step]. unfold settle. rewrite Hrun.
  unfold session_flag. cbn [fst]. rewrite Hget. cbn [option_map]. congruence.
Qed.

(** A [status] frame from the guest of the sample server. *)
Lemma unauthenticated_message_refused_witness :
  exists w' response entry,
    ws_message Sample.running_server 0%nat
      (Sample.frame "{'type':'status','id':'s1'}") Sample.env Sample.running_world
    = (Ret Sample.running_server, w')
    /\ trace w' = trace Sample.running_world ++ [Send 0%nat response; Await]
    /\ msg_payload response
       = ErrorPayload (lit "NOT_AUTHENTICATED")
           (Literal (lit "Authentication required"))
    /\ audit_log w' = audit_log Sample.running_world ++ [entry]
    /\ success entry = false
    /\ details entry
       = Some [(lit "messageType", DetailValue (Json.Str (lit "status")))]
    /\ clientId entry = client_label Sample.guest
    /\ session_flag
         (step Sample.env (Frame 0%nat (Sample.frame "{'type':'status','id':'s1'}"))
            (Sample.running_server, Sample.running_world)) 0%nat
       = Some false.
Proof.
  apply (unauthenticated_message_refused Sample.running_server 0%nat Sample.guest
           (Sample.frame "{'type':'status','id':'s1'}")
           (Json.Obj [(lit "type", Json.Str (lit "status"));
                      (lit "id", Json.Str (lit "s1"))])
           (Json.Str (lit "status")));
    reflexivity.
Defined.

(** C7, as the code has it.  A frame that is not JSON, on a session in
    whatever state, is answered by one error message with code INVALID_JSON;
    the audit log gains one entry for the parse failure, with [success]
    false; no socket is closed and the server, and with it the session, is
    as before. *)
Theorem unparsable_frame_reported
        (this : RemoteServer) (ws : Ws) (clientState : ClientState)
        (rawMessage : jsstring) (env : Oracle) (w : World) :
  map_get ws (clients this) = Some clientState ->
  Json.parse rawMessage = None ->
  exists w' response entry,
    ws_message this ws rawMessage env w = (Ret this, w')
    /\ trace w' = trace w ++ [Send ws response; Await]
    /\ msg_payload response
       = ErrorPayload (lit "INVALID_JSON") (Literal (lit "Invalid JSON message"))
    /\ audit_log w' = audit_log w ++ [entry]
    /\ success entry = false
    /\ action entry = lit "message_parse"
    /\ clientId entry = client_label clientState
    /\ step env (Frame ws rawMessage) (this, w) = (this, w').
Proof.
  intros Hget Hparse.
  assert (Hrun : exists w',
             ws_message this ws rawMessage env w = (Ret this, w')
             /\ trace w'
                = trace w
                  ++ [Send ws
                        {| msg_id := Json.Str (substring (random36 env (draws w)) 2 15);
                           msg_timestamp := clock env (S (draws w));
                           msg_payload :=
                             ErrorPayload (lit "INVALID_JSON")
                               (Literal (lit "Invalid JSON message")) |};
                      Await]
             /\ audit_log w'
                = audit_log w
                  ++ [{| timestamp := clock env (S (S (draws w)));
                         clientId := client_label clientState;
                         action := lit "message_parse";
                         details := None;
                         success := false;
                         error := Some (lit "Invalid JSON") |}]).
  { unfold ws_message. rewrite Hget. unfold handleMessage. rewrite Hparse.
    unfold bind, await, Audit.logFailure. rewrite sendError_run.
    unfold bind. rewrite log_run. cbn [emit ret].
    eexists. split; [reflexivity |]. cbn [trace audit_log add_event add_audit next_draw draws].
    rewrite <- app_assoc. split; reflexivity. }
  destruct Hrun as (w' & Hrun & Htrace & Haudit).
  eexists w', _, _. split; [exact Hrun |]. split; [exact Htrace |].
  split; [reflexivity |]. split; [exact Haudit |].
  repeat split.
  cbn [step]. unfold settle. rewrite Hrun. reflexivity.
Qed.

(** A frame that is no JSON text, from the member of the sample server. *)
Lemma unparsable_frame_reported_witness :
  exists w' response entry,
    ws_message Sample.running_server 1%nat (lit "{type: ping") Sample.env
      Sample.running_world
    = (Ret Sample.running_server, w')
    /\ trace w' = trace Sample.running_world ++ [Send 1%nat response; Await]
    /\ msg_payload response
       = ErrorPayload (lit "INVALID_JSON") (Literal (lit "Invalid JSON message"))
    /\ audit_log w' = audit_log Sample.running_world ++ [entry]
    /\ success entry = false
    /\ action entry = lit "message_parse"
    /\ clientId entry = client_label Sample.member
    /\ step Sample.env (Frame 1%nat (lit "{type: ping"))
         (Sample.running_server, Sample.running_world)
       = (Sample.running_server, w').
Proof.
  apply (unparsable_frame_reported Sample.running_server 1%nat Sample.member
           (lit "{type: ping"));
    reflexivity.
Defined.

(** C7, as stated, fails: the frame [{}] is JSON but no envelope, and the
    answer to it is not INVALID_JSON.  From the guest of the sample server
    it is refused as unauthenticated, from the member as an unknown
    message, and the parse failure is not what the log records. *)
Lemma empty_object_frame_not_invalid_json :
  Json.parse (lit "{}") = Some (Json.Obj [])
  /\ (let (r, w') :=
        ws_message Sample.running_server 0%nat (lit "{}") Sample.env
          Sample.running_world in
      r = Ret Sample.running_server
      /\ trace w'
         = [Send 0%nat
              {| msg_id := Json.Str (lit "k3x9q2m7w1z5");
                 msg_timestamp := 6000;
                 msg_payload :=
                   ErrorPayload (lit "NOT_AUTHENTICATED")
                     (Literal (lit "Authentication required")) |};
            Await]
      /\ map action (audit_log w') = [lit "unauthorized_message"])
  /\ (let (r, w') :=
        ws_message Sample.running_server 1%nat (lit "{}") Sample.env
          Sample.running_world in
      r = Ret Sample.running_server
      /\ trace w'
         = [Send 1%nat
              {| msg_id := Json.Str (lit "k3x9q2m7w1z5");
                 msg_timestamp := 6000;
                 msg_payload :=
                   ErrorPayload (lit "UNKNOWN_MESSAGE")
                     (Template (lit "Unknown message type: ") Json.Undefined) |}]
      /\ audit_log w' = [])
  /\ lit "NOT_AUTHENTICATED" <> lit "INVALID_JSON"
  /\ lit "UNKNOWN_MESSAGE" <> lit "INVALID_JSON".
Proof.
  repeat split; try reflexivity; discriminate.
Qed.

End Router.


(** ** Starting and stopping *)

Section Lifecycle.

Import Server.

Lemma try_close_run (ws : Ws) (env : Oracle) (w : World) :
  try_catch (ws_close ws) (ret tt) env w = (Ret tt, add_event (Close ws) w).
Proof.
  unfold try_catch, ws_close, bind, emit, ret.
  destruct (sock_throws env ws); reflexivity.
Qed.

(** The loop of [stop] calls [close] on every socket of the registry, in
    the order of the registry, whatever the sockets throw. *)
Lemma close_all_run (m : list (Ws * ClientState)) :
  forall (env : Oracle) (w : World),
  exists w',
    close_all m env w = (Ret tt, w')
    /\ trace w' = trace w ++ map (fun entry => Close (fst entry)) m
    /\ audit_log w' = audit_log w
    /\ disk w' = disk w
    /\ draws w' = draws w
    /\ sockets w' = sockets w.
Proof.
  induction m as [| [ws c] rest IH]; intros env w.
  - exists w. cbn [close_all map]. rewrite app_nil_r. repeat split.
  - cbn [close_all]. unfold bind. rewrite try_close_run.
    destruct (IH env (add_event (Close ws) w)) as (w' & Hrun & Ht & Ha & Hd & Hn & Hs).
    exists w'. rewrite Hrun. split; [reflexivity |].
    cbn [trace audit_log disk draws sockets add_event map fst] in *.
    rewrite Ht, <- app_assoc. repeat split; assumption.
Qed.

Lemma stop_not_running (this : RemoteServer) (env : Oracle) (w : World) :
  server this = None -> stop this env w = (Ret this, w).
Proof. intros H. unfold stop. rewrite H. reflexivity. Qed.

Lemma stop_running (this : RemoteServer) (env : Oracle) (w : World)
      (listening : BunServer) :
  server this = Some listening ->
  exists this' w' entry,
    stop this env w = (Ret this', w')
    /\ trace w'
       = trace w
         ++ map (fun session => Close (fst session)) (clients this)
         ++ [ServerStop; Await]
         ++ (if onStop (options this) then [Notify OnStop] else [])
    /\ clients this' = []
    /\ server this' = None
    /\ audit_log w' = audit_log w ++ [entry]
    /\ action entry = lit "stop"
    /\ success entry = true.
Proof.
  intros H. unfold stop at 1. rewrite H.
  unfold bind at 1.
  destruct (close_all_run (clients this) env w) as (w1 & Hrun & Ht & Ha & Hd & Hn & Hs).
  rewrite Hrun.
  unfold await, Audit.logServerEvent, bind, emit. rewrite log_run.
  cbn [ret set_clients set_server options].
  destruct (onStop (options this));
    cbn [notify emit ret];
    (eexists _, _, _; split; [reflexivity |]);
    cbn [trace audit_log add_event add_audit next_draw clients server
           set_server set_clients action success];
    rewrite Ht, Ha, <- ?app_assoc; repeat split.
Qed.

(** C10.  [stop] returns in every state.  On a server that is not running
    it does nothing.  On a running one it calls [close] on every socket of
    the registry, whatever those calls throw, empties the registry, stops
    the listening socket and drops it, and logs one stop event; a second
    [stop] right after does nothing. *)
Theorem stop_idempotent (this : RemoteServer) (env : Oracle) (w : World) :
  (server this = None -> stop this env w = (Ret this, w))
  /\ (forall listening,
        server this = Some listening ->
        exists this' w' entry,
          stop this env w = (Ret this', w')
          /\ trace w'
             = trace w
               ++ map (fun session => Close (fst session)) (clients this)
               ++ [ServerStop; Await]
               ++ (if onStop (options this) then [Notify OnStop] else [])
          /\ clients this' = []
          /\ server this' = None
          /\ audit_log w' = audit_log w ++ [entry]
          /\ action entry = lit "stop"
          /\ success entry = true
          /\ stop this' env w' = (Ret this', w')).
Proof.
  split.
  - apply stop_not_running.
  - intros listening H.
    destruct (stop_running this env w listening H)
      as (this' & w' & entry & Hrun & Ht & Hc & Hs & Ha & Hact & Hok).
    exists this', w', entry. repeat split; try assumption.
    apply stop_not_running. exact Hs.
Qed.

(** The sample server, whose socket 1 throws on [close]. *)
Lemma stop_idempotent_witness :
  exists this' w' entry,
    stop Sample.running_server Sample.env_broken_socket Sample.running_world
    = (Ret this', w')
    /\ trace w' = [Close 0%nat; Close 1%nat; ServerStop; Await; Notify OnStop]
    /\ clients this' = []
    /\ server this' = None
    /\ audit_log w' = [entry]
    /\ action entry = lit "stop"
    /\ success entry = true
    /\ stop this' Sample.env_broken_socket w' = (Ret this', w').
Proof.
  exact (proj2 (stop_idempotent Sample.running_server Sample.env_broken_socket
                  Sample.running_world) _ eq_refl).
Defined.

(** [createRemoteServer] when the file holds a credential, and when it does
    not and the disk is writable: in both cases the option says that a token
    is configured. *)
Lemma createRemoteServer_run (opts : PartialOptions) (env : Oracle) (w : World) :
  Token.truthy_token (disk w) <> None \/ disk_writable env = true ->
  exists this w',
    createRemoteServer opts env w = (Ret this, w')
    /\ hasToken (options this) = true
    /\ server this = None
    /\ clients this = []
    /\ Token.truthy_token (disk w') <> None
    /\ (Token.truthy_token (disk w) = None ->
        exists c, disk w' = Some c /\ tokenVersion c = 1).
Proof.
  intros H. unfold createRemoteServer, await.
  destruct (Token.truthy_token (disk w)) as [stored |] eqn:E.
  - unfold bind at 1 2. rewrite (getOrCreateToken_existing env w stored E).
    unfold bind, emit, ret. cbn [negb orb].
    eexists _, _. split; [reflexivity |].
    cbn [options hasToken new_RemoteServer server clients disk add_event].
    rewrite E. repeat split; discriminate.
  - destruct H as [H | H]; [contradiction |].
    destruct (getOrCreateToken_fresh env w E H) as (tok & Hlen & Hwf & Hrun).
    unfold bind at 1 2. rewrite Hrun.
    unfold bind, emit, ret. cbn [negb orb].
    eexists _, _. split; [reflexivity |].
    cbn [options hasToken new_RemoteServer server clients disk add_event set_disk].
    unfold strlen. rewrite Hlen.
    assert (Ht : Token.truthy_token
                   (Some {| token := tok;
                            tokenCreatedAt := clock env (S (draws w));
                            tokenVersion := 1 |}) <> None).
    { unfold Token.truthy_token. cbn [token].
      destruct (string_eqb tok []) eqn:F; [| discriminate].
      apply string_eqb_eq in F. subst. discriminate. }
    repeat split; [exact Ht |]. intros _. eexists. split; reflexivity.
Qed.

(** C1, as the code has it.  A server that is not running asks for one
    bind when started, at 127.0.0.1 when its [hasToken] option is false and
    at 0.0.0.0 when it is true, and if the port is free that is where it
    listens and what the returned state names; the option decides, the token
    store is not read.  [createRemoteServer] returns, when a credential
    exists or the disk is writable, a server whose option is true: it
    creates the credential that is missing, so a credential is on record
    from the construction on and the server binds to all interfaces. *)
Theorem start_binds_by_option :
  (forall this env w,
      server this = None ->
      exists r w' rest,
        start this env w = (r, w')
        /\ trace w'
           = trace w
             ++ Serve (opt_port (options this)) (bind_host (hasToken (options this)))
             :: rest
        /\ (forall p h, ~ In (Serve p h) rest)
        /\ (port_free env = true ->
            exists state this',
              r = Ret (state, this')
              /\ host state = bind_host (hasToken (options this))
              /\ server this'
                 = Some {| listen_port := opt_port (options this);
                           listen_hostname := bind_host (hasToken (options this)) |}))
  /\ bind_host false = lit "127.0.0.1"
  /\ bind_host true = lit "0.0.0.0"
  /\ (forall opts env w,
        Token.truthy_token (disk w) <> None \/ disk_writable env = true ->
        exists this w',
          createRemoteServer opts env w = (Ret this, w')
          /\ hasToken (options this) = true
          /\ server this = None
          /\ Token.truthy_token (disk w') <> None).
Proof.
  split; [| split; [reflexivity | split; [reflexivity |]]].
  - intros this env w Hstopped. unfold start. rewrite Hstopped.
    unfold await, Audit.logServerEvent, Bun_serve, bind, emit, now, get_pid.
    destruct (port_free env).
    + rewrite log_run. cbn [ret options set_server set_startedAt].
      destruct (onStart (options this)); cbn [notify emit ret];
        eexists _, _, _;
        (split; [reflexivity |]);
        cbn [trace add_event add_audit next_draw];
        rewrite <- ?app_assoc; cbn [app];
        (split; [reflexivity |]);
        (split;
         [ intros p h F; cbn [In] in F;
           repeat (destruct F as [F | F]; [discriminate F |]); exact F
         | intros _; eexists _, _; repeat split ]).
    + eexists _, _, []. split; [reflexivity |].
      cbn [trace add_event]. repeat split;
        [intros p h F; exact F | discriminate].
  - intros opts env w H.
    destruct (createRemoteServer_run opts env w H)
      as (this & w' & Hrun & Hopt & Hsrv & _ & Hcred & _).
    exists this, w'. auto.
Qed.

(** A server with the option unset on the fresh machine, and the server
    [createRemoteServer] builds there. *)
Lemma start_binds_by_option_witness :
  (exists r w' rest,
      start (new_RemoteServer Sample.options_local) Sample.env Sample.empty_world
      = (r, w')
      /\ trace w' = Serve 7890 (lit "127.0.0.1") :: rest
      /\ (forall p h, ~ In (Serve p h) rest)
      /\ (port_free Sample.env = true ->
          exists state this',
            r = Ret (state, this')
            /\ host state = lit "127.0.0.1"
            /\ server this'
               = Some {| listen_port := 7890;
                         listen_hostname := lit "127.0.0.1" |}))
  /\ (exists this w',
        createRemoteServer Sample.no_options Sample.env Sample.empty_world
        = (Ret this, w')
        /\ hasToken (options this) = true
        /\ server this = None
        /\ Token.truthy_token (disk w') <> None).
Proof.
  split.
  - exact (proj1 start_binds_by_option (new_RemoteServer Sample.options_local)
             Sample.env Sample.empty_world eq_refl).
  - exact (proj2 (proj2 (proj2 start_binds_by_option)) Sample.no_options
             Sample.env Sample.empty_world (or_intror eq_refl)).
Defined.

(** C1, as stated, fails.  On the fresh machine no credential is on record;
    the server [createRemoteServer] builds there asks, when started, for
    0.0.0.0 and not for the loopback address.  It does so too when the file
    is gone again by the time of the start, the store then holding no
    credential. *)
Lemma created_server_binds_all_interfaces :
  Token.truthy_token (disk Sample.empty_world) = None
  /\ match createRemoteServer Sample.no_options Sample.env Sample.empty_world with
     | (Ret this, w1) =>
         hasToken (options this) = true
         /\ (exists state this' w2,
               start this Sample.env w1 = (Ret (state, this'), w2)
               /\ host state = lit "0.0.0.0"
               /\ In (Serve 7890 (lit "0.0.0.0")) (trace w2)
               /\ ~ In (Serve 7890 (lit "127.0.0.1")) (trace w2))
         /\ Token.truthy_token (disk (set_disk None w1)) = None
         /\ (exists state this' w2,
               start this Sample.env (set_disk None w1) = (Ret (state, this'), w2)
               /\ host state = lit "0.0.0.0"
               /\ In (Serve 7890 (lit "0.0.0.0")) (trace w2)
               /\ ~ In (Serve 7890 (lit "127.0.0.1")) (trace w2))
     | (Throw _, _) => False
     end
  /\ lit "0.0.0.0" <> lit "127.0.0.1".
Proof.
  split; [reflexivity |]. split; [| discriminate].
  vm_compute createRemoteServer.
  split; [reflexivity |].
  split; [| split; [reflexivity |]].
  - eexists _, _, _. split; [vm_compute; reflexivity |].
    split; [reflexivity |]. split.
    + vm_compute. tauto.
    + vm_compute. intros H. repeat (destruct H as [H | H]; [discriminate H |]).
      exact H.
  - eexists _, _, _. split; [vm_compute; reflexivity |].
    split; [reflexivity |]. split.
    + vm_compute. tauto.
    + vm_compute. intros H. repeat (destruct H as [H | H]; [discriminate H |]).
      exact H.
Qed.

End Lifecycle.


(** ** Sessions *)

Section Sessions.

Import Server.

(** *** No handler creates a socket *)

Lemma keeps_ret {A} (a : A) : keeps_sockets (ret a).
Proof. intros env w. reflexivity. Qed.

Lemma keeps_throw {A} (e : Error) : keeps_sockets (@throw A e).
Proof. intros env w. reflexivity. Qed.

Lemma keeps_bind {A B} (m : M A) (k : A -> M B) :
  keeps_sockets m -> (forall a, keeps_sockets (k a)) -> keeps_sockets (bind m k).
Proof.
  intros Hm Hk env w. unfold bind. specialize (Hm env w).
  destruct (m env w) as [[a | e] w1]; cbn [snd] in *.
  - rewrite Hk. exact Hm.
  - exact Hm.
Qed.

Lemma keeps_try_catch {A} (m h : M A) :
  keeps_sockets m -> keeps_sockets h -> keeps_sockets (try_catch m h).
Proof.
  intros Hm Hh env w. unfold try_catch. specialize (Hm env w).
  destruct (m env w) as [[a | e] w1]; cbn [snd] in *.
  - exact Hm.
  - rewrite Hh. exact Hm.
Qed.

Lemma keeps_emit (e : Event) : keeps_sockets (emit e).
Proof. intros env w. reflexivity. Qed.

Lemma keeps_now : keeps_sockets now.
Proof. intros env w. reflexivity. Qed.

Lemma keeps_randomBytes (n : nat) : keeps_sockets (randomBytes n).
Proof. intros env w. reflexivity. Qed.

Lemma keeps_random_base36 : keeps_sockets random_base36.
Proof. intros env w. reflexivity. Qed.

Lemma keeps_get_pid : keeps_sockets get_pid.
Proof. intros env w. reflexivity. Qed.

Lemma keeps_prop (v : Json.value) (key : jsstring) : keeps_sockets (prop v key).
Proof. intros env w. unfold prop. destruct (Json.get v key); reflexivity. Qed.

Lemma keeps_loadRemoteConfig : keeps_sockets Token.loadRemoteConfig.
Proof. intros env w. reflexivity. Qed.

Lemma keeps_saveRemoteConfig (c : RemoteConfig) :
  keeps_sockets (Token.saveRemoteConfig c).
Proof.
  intros env w. unfold Token.saveRemoteConfig.
  destruct (disk_writable env); reflexivity.
Qed.

Lemma keeps_log clientId action details success error :
  keeps_sockets (Audit.log clientId action details success error).
Proof. intros env w. reflexivity. Qed.

Lemma keeps_ws_send (ws : Ws) (m : WSMessage) : keeps_sockets (ws_send ws m).
Proof.
  intros env w. unfold ws_send, bind, emit.
  destruct (sock_throws env ws); reflexivity.
Qed.

Lemma keeps_ws_close (ws : Ws) : keeps_sockets (ws_close ws).
Proof.
  intros env w. unfold ws_close, bind, emit.
  destruct (sock_throws env ws); reflexivity.
Qed.

Lemma keeps_Bun_serve (p : Z) (h : jsstring) : keeps_sockets (Bun_serve p h).
Proof.
  intros env w. unfold Bun_serve, bind, emit.
  destruct (port_free env); reflexivity.
Qed.

Lemma keeps_JSON_stringify (m : WSMessage) : keeps_sockets (JSON_stringify m).
Proof.
  intros env w. unfold JSON_stringify.
  destruct (stringify_depth env <? Json.nesting (msg_id m))%nat; reflexivity.
Qed.

Lemma keeps_template (prefix : jsstring) (v : Json.value) :
  keeps_sockets (template prefix v).
Proof.
  intros env w. unfold template.
  destruct (Json.to_string_failure (join_depth env) v) as [[|] |]; reflexivity.
Qed.

Create HintDb sockets.

#[local] Hint Resolve keeps_ret keeps_throw keeps_try_catch keeps_emit keeps_now
  keeps_randomBytes keeps_random_base36 keeps_get_pid keeps_prop
  keeps_loadRemoteConfig keeps_saveRemoteConfig keeps_log keeps_ws_send
  keeps_ws_close keeps_Bun_serve keeps_JSON_stringify keeps_template : sockets.

(** Follows the shape of a computation: binds, branches and the
    primitives above. *)
Ltac keeps :=
  repeat first
    [ progress intros
    | progress cbv zeta
    | solve [auto with sockets]
    | apply keeps_bind
    | match goal with
      | |- keeps_sockets (match ?x with _ => _ end) => destruct x
      | |- keeps_sockets (let (_, _) := ?x in _) => destruct x
      end ].

Lemma keeps_await {A} (m : M A) : keeps_sockets m -> keeps_sockets (await m).
Proof. intros H. unfold await. keeps. Qed.

#[local] Hint Resolve keeps_await : sockets.

Lemma keeps_validateToken (v : Json.value) : keeps_sockets (Token.validateToken v).
Proof. unfold Token.validateToken. keeps. Qed.

Lemma keeps_getOrCreateToken : keeps_sockets Token.getOrCreateToken.
Proof. unfold Token.getOrCreateToken, Token.generateToken. keeps. Qed.

Lemma keeps_createMessage (data : Payload) : keeps_sockets (createMessage data).
Proof. unfold createMessage, generateMessageId. keeps. Qed.

Lemma keeps_send (ws : Ws) (m : WSMessage) : keeps_sockets (send ws m).
Proof. unfold send. apply keeps_try_catch; keeps. Qed.

#[local] Hint Resolve keeps_validateToken keeps_getOrCreateToken
  keeps_createMessage keeps_send : sockets.

Lemma keeps_notify (given : bool) (cb : Callback) : keeps_sockets (notify given cb).
Proof. unfold notify. keeps. Qed.

#[local] Hint Resolve keeps_notify : sockets.

Lemma keeps_handleAuth this ws c message :
  keeps_sockets (handleAuth this ws c message).
Proof.
  unfold handleAuth, Audit.logAuth. keeps.
Qed.

#[local] Hint Resolve keeps_handleAuth : sockets.

Lemma keeps_handleMessage this ws c raw :
  keeps_sockets (handleMessage this ws c raw).
Proof.
  unfold handleMessage, sendError, sendPong, sendStatus, Audit.logFailure. keeps.
Qed.

Lemma keeps_ws_message this ws raw : keeps_sockets (ws_message this ws raw).
Proof.
  unfold ws_message. destruct (map_get ws (clients this));
    auto using keeps_handleMessage with sockets.
Qed.

Lemma keeps_ws_open this ws data_ip : keeps_sockets (ws_open this ws data_ip).
Proof. unfold ws_open, generateClientId, Audit.logConnection. keeps. Qed.

Lemma keeps_ws_close_handler this ws : keeps_sockets (ws_close_handler this ws).
Proof. unfold ws_close_handler, Audit.logConnection. keeps. Qed.

Lemma keeps_close_all (m : list (Ws * ClientState)) : keeps_sockets (close_all m).
Proof.
  induction m as [| [ws c] rest IH]; cbn [close_all]; keeps.
Qed.

#[local] Hint Resolve keeps_close_all : sockets.

Lemma keeps_start this : keeps_sockets (start this).
Proof. unfold start, Audit.logServerEvent. keeps. Qed.

Lemma keeps_stop this : keeps_sockets (stop this).
Proof. unfold stop, Audit.logServerEvent. keeps. Qed.

(** *** The registry *)

Lemma map_get_set (k ws : Ws) (v : ClientState) (m : list (Ws * ClientState)) :
  map_get k (map_set ws v m) = if Nat.eqb k ws then Some v else map_get k m.
Proof.
  induction m as [| [k' v'] rest IH]; cbn [map_set map_get].
  - rewrite Nat.eqb_sym. reflexivity.
  - destruct (Nat.eqb_spec k' ws) as [-> | Hne]; cbn [map_get].
    + destruct (Nat.eqb_spec ws k) as [-> | Hne'].
      * rewrite Nat.eqb_refl. reflexivity.
      * destruct (Nat.eqb_spec k ws); [congruence | reflexivity].
    + destruct (Nat.eqb_spec k' k) as [-> | Hne'].
      * destruct (Nat.eqb_spec k ws); [congruence | reflexivity].
      * exact IH.
Qed.

Lemma map_get_delete (k ws : Ws) (m : list (Ws * ClientState)) :
  map_get k (map_delete ws m) = if Nat.eqb k ws then None else map_get k m.
Proof.
  unfold map_delete.
  induction m as [| [k' v'] rest IH]; cbn [filter map_get fst].
  - destruct (Nat.eqb k ws); reflexivity.
  - destruct (Nat.eqb_spec k' ws) as [-> | Hne]; cbn [negb map_get].
    + rewrite IH. destruct (Nat.eqb_spec k ws) as [-> | Hne'].
      * reflexivity.
      * destruct (Nat.eqb_spec ws k); [congruence | reflexivity].
    + destruct (Nat.eqb_spec k' k) as [-> | Hne'].
      * destruct (Nat.eqb_spec k ws); [congruence | reflexivity].
      * exact IH.
Qed.

(** The flag after [clientState.authenticated = true] on the session of
    [ws]: that session has it set, every other is as before. *)
Lemma flag_set_authenticated (this : RemoteServer) (w w' : World) (ws k : Ws) :
  session_flag (set_authenticated ws this, w') k
  = if Nat.eqb k ws
    then option_map (fun _ => true) (session_flag (this, w) ws)
    else session_flag (this, w) k.
Proof.
  unfold session_flag, set_authenticated. cbn [fst].
  destruct (map_get ws (clients this)) as [c |] eqn:E.
  - cbn [clients set_clients]. rewrite map_get_set.
    destruct (Nat.eqb_spec k ws) as [-> | Hne]; reflexivity.
  - destruct (Nat.eqb_spec k ws) as [-> | Hne]; [rewrite E |]; reflexivity.
Qed.

(** *** What a frame can do to the server *)

(** Runs the binds of a computation whose steps are messages, sends and
    log entries. *)
Ltac run_binds :=
  repeat (unfold bind at 1;
          rewrite ?createMessage_run, ?send_run, ?log_run, ?sendError_run,
            ?sendPong_run;
          cbv beta iota).

Lemma is_string_true (v : Json.value) (s : jsstring) :
  Json.is_string v s = true -> v = Json.Str s.
Proof.
  destruct v; cbn [Json.is_string]; try discriminate.
  intros H. apply string_eqb_eq in H. congruence.
Qed.

(** [handleAuth] throws, or returns the server as it was, or returns it with
    the flag of the session set, and this only after [validateToken] said
    true of the token of the message. *)
Lemma handleAuth_outcome (this : RemoteServer) (ws : Ws) (c : ClientState)
      (message : Json.value) (env : Oracle) (w : World) :
  exists r w',
    handleAuth this ws c message env w = (r, w')
    /\ ((exists e, r = Throw e)
        \/ r = Ret this
        \/ (r = Ret (set_authenticated ws this)
            /\ exists tok w1,
                Json.get message (lit "token") = Some tok
                /\ Token.validateToken tok env w = (Ret true, w1))).
Proof.
  unfold handleAuth, prop. unfold bind at 1.
  destruct (Json.get message (lit "token")) as [tok |]; cbn [ret throw].
  - unfold await at 1. unfold bind at 1 2.
    destruct (Token.validateToken tok env w) as [[[|] | e] w1] eqn:E.
    + unfold await, Audit.logAuth, emit, ret. run_binds.
      eexists _, _. split; [reflexivity |]. right. right.
      split; [reflexivity |]. eauto.
    + unfold await, Audit.logAuth, emit, ret. run_binds.
      eexists _, _. split; [reflexivity |]. right. left. reflexivity.
    + eexists _, _. split; [reflexivity |]. left. eauto.
  - eexists _, _. split; [reflexivity |]. left. eauto.
Qed.

(** A frame leaves the server as it was, or sets the flag of the session it
    came on, and this only when it is an [auth] message whose token
    [validateToken] accepts. *)
Lemma frame_outcome (env : Oracle) (this : RemoteServer) (w : World)
      (ws : Ws) (rawMessage : jsstring) :
  exists this' w',
    step env (Frame ws rawMessage) (this, w) = (this', w')
    /\ (this' = this
        \/ (this' = set_authenticated ws this
            /\ exists message tok w1,
                Json.parse rawMessage = Some message
                /\ Json.get message (lit "type") = Some (Json.Str (lit "auth"))
                /\ Json.get message (lit "token") = Some tok
                /\ Token.validateToken tok env w = (Ret true, w1))).
Proof.
  cbn [step]. unfold settle, ws_message.
  destruct (map_get ws (clients this)) as [c |]; [| cbn [ret]; eauto].
  unfold handleMessage.
  destruct (Json.parse rawMessage) as [message |] eqn:Hparse.
  - unfold prop. unfold bind at 1.
    destruct (Json.get message (lit "type")) as [type |] eqn:Htype;
      cbn [ret throw]; [| eauto].
    destruct (Json.is_string type (lit "auth")) eqn:Hauth.
    + apply is_string_true in Hauth. subst type.
      unfold await. unfold bind at 1.
      destruct (handleAuth_outcome this ws c message env w)
        as (r & w1 & Hrun & [[e ->] | [-> | [-> (tok & w2 & Htok & Hval)]]]);
        rewrite Hrun; unfold emit, ret, bind; cbv beta iota.
      * eauto.
      * eauto.
      * eexists _, _. split; [reflexivity |]. right.
        split; [reflexivity |]. exists message, tok, w2. auto.
    + destruct (Json.is_string type (lit "ping")).
      * unfold bind at 1. destruct (Json.get message (lit "id")) as [requestId |];
          cbn [ret throw]; [| eauto].
        unfold bind. rewrite sendPong_run. cbn [ret]. eauto.
      * destruct (negb (authenticated c)).
        -- unfold await, Audit.logFailure, bind. rewrite sendError_run, log_run.
           cbn [emit ret]. eauto.
        -- destruct (Json.is_string type (lit "status")).
           ++ unfold bind at 1.
              destruct (sendStatus this ws env w) as [[[] | e] w1]; cbn [ret]; eauto.
           ++ unfold bind at 1. unfold template.
              destruct (Json.to_string_failure (join_depth env) type) as [[|] |];
                [eauto | eauto |].
              unfold bind. rewrite sendError_run. cbn [ret]. eauto.
  - unfold await, Audit.logFailure, bind. rewrite sendError_run, log_run.
    cbn [emit ret]. eauto.
Qed.

(** *** What the other actions do to the registry *)

Lemma settle_world (this : RemoteServer) (m : M RemoteServer)
      (env : Oracle) (w : World) :
  snd (settle this m env w) = snd (m env w).
Proof. unfold settle. destruct (m env w) as [[a | e] w1]; reflexivity. Qed.

Lemma start_clients (env : Oracle) (this : RemoteServer) (w : World) :
  clients (fst (step env DoStart (this, w))) = clients this.
Proof.
  cbn [step]. unfold settle, start.
  destruct (server this); [reflexivity |].
  unfold await, Audit.logServerEvent, Bun_serve, bind, emit, now, get_pid.
  destruct (port_free env); [| reflexivity].
  rewrite log_run. cbn [ret options set_server set_startedAt].
  destruct (onStart (options this)); reflexivity.
Qed.

Lemma stop_clients (env : Oracle) (this : RemoteServer) (w : World) :
  clients (fst (step env DoStop (this, w))) = []
  \/ clients (fst (step env DoStop (this, w))) = clients this.
Proof.
  cbn [step]. unfold settle.
  destruct (server this) as [listening |] eqn:E.
  - destruct (stop_running this env w listening E)
      as (this' & w' & entry & Hrun & _ & Hc & _).
    rewrite Hrun. auto.
  - rewrite (stop_not_running this env w E). auto.
Qed.

Lemma connect_clients (env : Oracle) (this : RemoteServer) (w : World)
      (data_ip : option jsstring) :
  exists state,
    authenticated state = false
    /\ clients (fst (step env (Connect data_ip) (this, w)))
       = map_set (sockets w) state (clients this).
Proof.
  cbn [step]. unfold settle, ws_open, generateClientId, Audit.logConnection.
  unfold bind, random_base36, now, ret. cbv beta iota. rewrite log_run.
  cbn [options set_clients].
  eexists {| id := _; ip := _; authenticated := false; connectedAt := _ |}.
  split; [reflexivity |].
  destruct (onConnect (options this)); reflexivity.
Qed.

Lemma disconnect_flag (env : Oracle) (this : RemoteServer) (w : World) (ws k : Ws) :
  session_flag (step env (Disconnect ws) (this, w)) k
  = if Nat.eqb k ws then None else session_flag (this, w) k.
Proof.
  cbn [step]. unfold settle, ws_close_handler, session_flag.
  destruct (map_get ws (clients this)) as [c |] eqn:E.
  - unfold Audit.logConnection, bind. rewrite log_run.
    destruct (onDisconnect (options this)); cbn [notify emit ret fst clients set_clients];
      rewrite map_get_delete; destruct (Nat.eqb k ws); reflexivity.
  - cbn [ret fst]. destruct (Nat.eqb_spec k ws) as [-> | Hne]; [rewrite E |]; reflexivity.
Qed.

(** *** One step *)

(** The runtime creates one socket per connection and none otherwise. *)
Lemma step_sockets (env : Oracle) (a : Action) (this : RemoteServer) (w : World) :
  sockets (snd (step env a (this, w)))
  = match a with
    | Connect _ => S (sockets w)
    | _ => sockets w
    end.
Proof.
  destruct a; cbn [step]; rewrite settle_world.
  - apply keeps_bind; [apply keeps_start | intros; apply keeps_ret].
  - apply keeps_stop.
  - rewrite keeps_ws_open. reflexivity.
  - apply keeps_ws_message.
  - apply keeps_ws_close_handler.
Qed.

(** What one action does to the flag of the session of a socket [k]: it
    leaves it, or it ends the session, or it is the connection that creates
    the session, unauthenticated, or it is an [auth] frame on [k] with a
    token that validates and takes the flag from false to true. *)
Lemma step_flag (env : Oracle) (a : Action) (this : RemoteServer) (w : World)
      (k : Ws) :
  registry_known (this, w) ->
  session_flag (step env a (this, w)) k = session_flag (this, w) k
  \/ session_flag (step env a (this, w)) k = None
  \/ (k = sockets w
      /\ session_flag (this, w) k = None
      /\ session_flag (step env a (this, w)) k = Some false
      /\ exists data_ip, a = Connect data_ip)
  \/ (session_flag (this, w) k = Some false
      /\ session_flag (step env a (this, w)) k = Some true
      /\ exists rawMessage message tok w1,
          a = Frame k rawMessage
          /\ Json.parse rawMessage = Some message
          /\ Json.get message (lit "type") = Some (Json.Str (lit "auth"))
          /\ Json.get message (lit "token") = Some tok
          /\ Token.validateToken tok env w = (Ret true, w1)).
Proof.
  intros Hknown. destruct a as [| | data_ip | ws rawMessage | ws].
  - left. unfold session_flag. rewrite start_clients. reflexivity.
  - destruct (stop_clients env this w) as [H | H]; unfold session_flag; rewrite H.
    + right. left. reflexivity.
    + left. reflexivity.
  - destruct (connect_clients env this w data_ip) as (state & Hfalse & Hc).
    unfold session_flag. rewrite Hc, map_get_set. cbn [fst].
    destruct (Nat.eqb_spec k (sockets w)) as [-> | Hne].
    + right. right. left. cbn [option_map]. rewrite Hfalse.
      destruct (map_get (sockets w) (clients this)) as [c |] eqn:E.
      * apply Hknown in E. cbn [snd] in E. lia.
      * eauto.
    + left. reflexivity.
  - destruct (frame_outcome env this w ws rawMessage)
      as (this' & w' & Hstep & [-> | [-> (message & tok & w1 & Hp & Hty & Htok & Hval)]]);
      rewrite Hstep.
    + left. reflexivity.
    + rewrite (flag_set_authenticated this w w' ws k).
      destruct (Nat.eqb_spec k ws) as [-> | Hne]; [| left; reflexivity].
      destruct (session_flag (this, w) ws) as [[|] |] eqn:F; cbn [option_map].
      * left. reflexivity.
      * right. right. right. repeat split. eauto 10.
      * left. reflexivity.
  - rewrite disconnect_flag. destruct (Nat.eqb k ws); auto.
Qed.

(** The registry stays within the sockets the runtime has created. *)
Lemma step_known (env : Oracle) (a : Action) (st : RemoteServer * World) :
  registry_known st -> registry_known (step env a st).
Proof.
  destruct st as [this w]. intros Hknown k c Hk.
  assert (Hflag : session_flag (step env a (this, w)) k <> None).
  { unfold session_flag. rewrite Hk. discriminate. }
  assert (Hold : forall c0, map_get k (clients this) = Some c0 ->
                            (k < sockets (snd (step env a (this, w))))%nat).
  { intros c0 H0. apply Hknown in H0. cbn [snd] in H0.
    rewrite step_sockets. destruct a; lia. }
  destruct (step_flag env a this w k Hknown)
    as [H | [H | [(-> & _ & _ & data_ip & ->) | (H & _)]]].
  - rewrite H in Hflag. unfold session_flag in Hflag. cbn [fst] in Hflag.
    destruct (map_get k (clients this)) as [c0 |] eqn:E; [| contradiction].
    eauto.
  - contradiction.
  - rewrite step_sockets. lia.
  - unfold session_flag in H. cbn [fst] in H.
    destruct (map_get k (clients this)) as [c0 |] eqn:E; [| discriminate].
    eauto.
Qed.

(** An [auth] frame whose token [validateToken] refuses. *)
Lemma failed_auth_run (this : RemoteServer) (ws : Ws) (c : ClientState)
      (rawMessage : jsstring) (message tok : Json.value)
      (env : Oracle) (w w1 : World) :
  map_get ws (clients this) = Some c ->
  Json.parse rawMessage = Some message ->
  Json.get message (lit "type") = Some (Json.Str (lit "auth")) ->
  Json.get message (lit "token") = Some tok ->
  Token.validateToken tok env w = (Ret false, w1) ->
  exists w' response entry,
    ws_message this ws rawMessage env w = (Ret this, w')
    /\ trace w' = trace w1 ++ [Await; Send ws response; Await; Await]
    /\ msg_payload response = AuthResponse false (Some (lit "Invalid token"))
    /\ audit_log w' = audit_log w1 ++ [entry]
    /\ success entry = false.
Proof.
  intros Hget Hparse Htype Htok Hval.
  unfold ws_message. rewrite Hget. unfold handleMessage. rewrite Hparse.
  unfold prop. unfold bind at 1. rewrite Htype. cbn [ret].
  replace (Json.is_string (Json.Str (lit "auth")) (lit "auth")) with true
    by reflexivity.
  unfold handleAuth, prop. unfold await at 1. unfold bind at 1 2.
  rewrite Htok. cbn [ret]. unfold await at 1. unfold bind at 1 2. rewrite Hval.
  unfold await, Audit.logAuth, emit, ret. run_binds.
  eexists _, _, _. split; [reflexivity |].
  cbn [trace audit_log add_event add_audit next_draw success msg_payload].
  rewrite <- !app_assoc. repeat split.
Qed.

End Sessions.


(** ** The encoding of generated tokens *)

Section Base64Url.

Import Facts.

Lemma lor_shifted (x y k : Z) :
  0 <= k -> 0 <= y < 2 ^ k -> Z.lor (Z.shiftl x k) y = x * 2 ^ k + y.
Proof.
  intros Hk Hy.
  assert (Hland : Z.land (Z.shiftl x k) y = 0).
  { apply Z.bits_inj'. intros i Hi. rewrite Z.land_spec, Z.bits_0.
    destruct (Z_lt_ge_dec i k) as [Hlt | Hge].
    - rewrite Z.shiftl_spec_low by lia. reflexivity.
    - replace (Z.testbit y i) with false; [apply andb_false_r |].
      symmetry. rewrite <- (Z.mod_small y (2 ^ k)) by lia.
      apply Z.mod_pow2_bits_high. lia. }
  rewrite <- Z.lxor_lor by exact Hland.
  rewrite <- Z.add_nocarry_lxor by exact Hland.
  rewrite Z.shiftl_mul_pow2 by lia. reflexivity.
Qed.

Lemma land_3 (a : Z) : Z.land a 3 = a mod 4.
Proof. exact (Z.land_ones a 2 ltac:(lia)). Qed.

Lemma land_15 (a : Z) : Z.land a 15 = a mod 16.
Proof. exact (Z.land_ones a 4 ltac:(lia)). Qed.

Lemma land_63 (a : Z) : Z.land a 63 = a mod 64.
Proof. exact (Z.land_ones a 6 ltac:(lia)). Qed.

(** The four indices of a group of three bytes, and those of the shorter
    last group, in arithmetic. *)
Lemma sextet_0 (a : Z) : Z.shiftr a 2 = a / 4.
Proof. exact (Z.shiftr_div_pow2 a 2 ltac:(lia)). Qed.

Lemma sextet_1 (a b : Z) :
  is_byte b ->
  Z.lor (Z.shiftl (Z.land a 3) 4) (Z.shiftr b 4) = a mod 4 * 16 + b / 16.
Proof.
  intros Hb. unfold is_byte in Hb.
  rewrite land_3, (Z.shiftr_div_pow2 b 4) by lia.
  rewrite lor_shifted by (change (2 ^ 4) with 16; Z.to_euclidean_division_equations; lia).
  change (2 ^ 4) with 16. lia.
Qed.

Lemma sextet_1_last (a : Z) : Z.shiftl (Z.land a 3) 4 = a mod 4 * 16.
Proof.
  rewrite land_3, Z.shiftl_mul_pow2 by lia. change (2 ^ 4) with 16. lia.
Qed.

Lemma sextet_2 (b c : Z) :
  is_byte c ->
  Z.lor (Z.shiftl (Z.land b 15) 2) (Z.shiftr c 6) = b mod 16 * 4 + c / 64.
Proof.
  intros Hc. unfold is_byte in Hc.
  rewrite land_15, (Z.shiftr_div_pow2 c 6) by lia.
  change (2 ^ 6) with 64.
  rewrite lor_shifted by (change (2 ^ 2) with 4; Z.to_euclidean_division_equations; lia).
  change (2 ^ 2) with 4. lia.
Qed.

Lemma sextet_2_last (b : Z) : Z.shiftl (Z.land b 15) 2 = b mod 16 * 4.
Proof.
  rewrite land_15, Z.shiftl_mul_pow2 by lia. change (2 ^ 2) with 4. lia.
Qed.

(** Each of the 64 characters of the alphabet sits at its index and is
    URL-safe. *)
Lemma b64_index_b64 (n : Z) :
  0 <= n < 64 -> b64_index (b64 n) = n /\ url_safe (b64 n).
Proof.
  intros Hn. rewrite <- (Z2Nat.id n) by lia.
  assert (Hk : (Z.to_nat n < 64)%nat) by lia.
  generalize dependent (Z.to_nat n). clear n Hn. intros k Hk.
  do 64 (destruct k as [| k];
         [ split; [reflexivity | vm_compute; intuition discriminate] |]).
  lia.
Qed.

Lemma b64_inj (n m : Z) : 0 <= n < 64 -> 0 <= m < 64 -> b64 n = b64 m -> n = m.
Proof.
  intros Hn Hm H.
  rewrite <- (proj1 (b64_index_b64 n Hn)), <- (proj1 (b64_index_b64 m Hm)), H.
  reflexivity.
Qed.

Lemma b64_url_safe (n : Z) : 0 <= n < 64 -> url_safe (b64 n).
Proof. intros Hn. apply b64_index_b64. exact Hn. Qed.

(** Bytes encode to URL-safe characters only. *)
Lemma base64url_url_safe (bs : list Z) :
  Forall is_byte bs -> Forall url_safe (base64url bs).
Proof.
  apply (base64url_ind3 (fun bs s => Forall is_byte bs -> Forall url_safe s)).
  - constructor.
  - intros a Ha. inversion Ha as [| ? ? Hb _]; subst. unfold is_byte in Hb.
    cbn [base64url]. rewrite sextet_0, sextet_1_last.
    repeat (apply Forall_cons;
            [apply b64_url_safe; Z.to_euclidean_division_equations; lia |]).
    constructor.
  - intros a b Hab. inversion Hab as [| ? ? Ha Hab']; subst.
    inversion Hab' as [| ? ? Hb _]; subst.
    cbn [base64url]. rewrite sextet_0, sextet_1, sextet_2_last by assumption.
    unfold is_byte in *.
    repeat (apply Forall_cons;
            [apply b64_url_safe; Z.to_euclidean_division_equations; lia |]).
    constructor.
  - intros a b c rest IH H. inversion H as [| ? ? Ha H1]; subst.
    inversion H1 as [| ? ? Hb H2]; subst. inversion H2 as [| ? ? Hc H3]; subst.
    cbn [base64url]. rewrite sextet_0, sextet_1, sextet_2, land_63 by assumption.
    unfold is_byte in *.
    repeat (apply Forall_cons;
            [apply b64_url_safe; Z.to_euclidean_division_equations; lia |]).
    apply IH. exact H3.
Qed.

(** Two byte strings with the same encoding are the same: the encoding
    loses none of the bits. *)
Lemma base64url_injective (bs1 : list Z) :
  forall bs2,
    Forall is_byte bs1 -> Forall is_byte bs2 ->
    base64url bs1 = base64url bs2 -> bs1 = bs2.
Proof.
  apply (base64url_ind3
           (fun bs1 s => forall bs2, Forall is_byte bs1 -> Forall is_byte bs2 ->
                                     s = base64url bs2 -> bs1 = bs2)).
  - intros [| a' [| b' [| c' rest']]] _ _ H; cbn [base64url] in H;
      [reflexivity | discriminate H ..].
  - intros a [| a' [| b' [| c' rest']]] H1 H2 H; cbn [base64url] in H;
      try discriminate H.
    inversion H1 as [| ? ? Ha _]; subst. inversion H2 as [| ? ? Ha' _]; subst.
    unfold is_byte in *.
    rewrite !sextet_0, !sextet_1_last in H. injection H as E0 E1.
    apply b64_inj in E0, E1; try (Z.to_euclidean_division_equations; lia).
    f_equal. Z.to_euclidean_division_equations; lia.
  - intros a b [| a' [| b' [| c' rest']]] H1 H2 H; cbn [base64url] in H;
      try discriminate H.
    inversion H1 as [| ? ? Ha H1']; subst. inversion H1' as [| ? ? Hb _]; subst.
    inversion H2 as [| ? ? Ha' H2']; subst. inversion H2' as [| ? ? Hb' _]; subst.
    rewrite !sextet_0, !sextet_1, !sextet_2_last in H by assumption.
    unfold is_byte in *. injection H as E0 E1 E2.
    apply b64_inj in E0, E1, E2; try (Z.to_euclidean_division_equations; lia).
    assert (a = a' /\ b = b') as [-> ->]
        by (Z.to_euclidean_division_equations; lia).
    reflexivity.
  - intros a b c rest IH [| a' [| b' [| c' rest']]] H1 H2 H; cbn [base64url] in H;
      try discriminate H.
    inversion H1 as [| ? ? Ha H1']; subst. inversion H1' as [| ? ? Hb H1'']; subst.
    inversion H1'' as [| ? ? Hc Hrest]; subst.
    inversion H2 as [| ? ? Ha' H2']; subst. inversion H2' as [| ? ? Hb' H2'']; subst.
    inversion H2'' as [| ? ? Hc' Hrest']; subst.
    rewrite !sextet_0, !sextet_1, !sextet_2, !land_63 in H by assumption.
    injection H as E0 E1 E2 E3 Etail.
    unfold is_byte in *.
    apply b64_inj in E0, E1, E2, E3; try (Z.to_euclidean_division_equations; lia).
    assert (a = a' /\ b = b' /\ c = c') as (-> & -> & ->)
        by (Z.to_euclidean_division_equations; lia).
    rewrite (IH rest' Hrest Hrest' Etail). reflexivity.
Qed.

End Base64Url.


(** ** More on the token store *)

Section TokenStoreFurther.

Import Facts.

Lemma randomBytes_bytes (n : nat) (env : Oracle) (w : World) :
  randomBytes n env w
  = (Ret (map (fun k => entropy env (draws w) k mod 256) (seq 0 n)), next_draw w)
  /\ Forall is_byte (map (fun k => entropy env (draws w) k mod 256) (seq 0 n)).
Proof.
  split; [reflexivity |].
  apply Forall_forall. intros b Hb. apply in_map_iff in Hb.
  destruct Hb as (k & <- & _). unfold is_byte. apply Z.mod_pos_bound. lia.
Qed.

Lemma generateToken_bytes (env : Oracle) (w : World) :
  Token.generateToken env w
  = (Ret (base64url (map (fun k => entropy env (draws w) k mod 256)
                       (seq 0 Token.TOKEN_BYTES))),
     next_draw w).
Proof. reflexivity. Qed.

(** X1.  [generateToken] returns 43 characters, each a letter, a digit, [-]
    or [_]: the token can go into a URL or a header as it is. *)
Theorem generateToken_url_safe (env : Oracle) (w : World) :
  exists tok,
    Token.generateToken env w = (Ret tok, next_draw w)
    /\ List.length tok = 43%nat
    /\ Forall url_safe tok.
Proof.
  destruct (generateToken_run env w) as (tok & Hrun & Hlen & _).
  exists tok. split; [exact Hrun |]. split; [exact Hlen |].
  rewrite generateToken_bytes in Hrun.
  replace tok with (base64url (map (fun k => entropy env (draws w) k mod 256)
                                 (seq 0 Token.TOKEN_BYTES))) by congruence.
  apply base64url_url_safe. apply randomBytes_bytes.
Qed.

(** X2.  Two calls of [generateToken] return the same token exactly when
    the 32 random bytes they drew are the same: the token keeps all 256
    bits of the draw. *)
Theorem generateToken_keeps_entropy (env1 env2 : Oracle) (w1 w2 : World) :
  fst (Token.generateToken env1 w1) = fst (Token.generateToken env2 w2)
  <-> forall k, (k < 32)%nat ->
                entropy env1 (draws w1) k mod 256 = entropy env2 (draws w2) k mod 256.
Proof.
  rewrite !generateToken_bytes. cbn [fst]. split.
  - intros H k Hk.
    assert (H' : base64url (map (fun k => entropy env1 (draws w1) k mod 256)
                              (seq 0 Token.TOKEN_BYTES))
                 = base64url (map (fun k => entropy env2 (draws w2) k mod 256)
                                (seq 0 Token.TOKEN_BYTES))) by congruence.
    clear H. apply base64url_injective in H'; try apply randomBytes_bytes.
    assert (Hin : In k (seq 0 Token.TOKEN_BYTES))
      by (apply in_seq; unfold Token.TOKEN_BYTES; lia).
    exact (proj1 map_ext_in_iff H' k Hin).
  - intros H. do 2 f_equal. apply map_ext_in. intros k Hk.
    apply in_seq in Hk. apply H. unfold Token.TOKEN_BYTES in Hk. lia.
Qed.

Lemma getTokenInfo_run (env : Oracle) (w : World) :
  Token.getTokenInfo env w
  = (Ret match disk w, Token.truthy_token (disk w) with
         | Some c, Some stored =>
             {| Token.exists_ := true;
                Token.createdAt := Some (tokenCreatedAt c);
                Token.version := Some (tokenVersion c);
                Token.preview := Some (slice0 stored 8 ++ lit "...") |}
         | _, _ =>
             {| Token.exists_ := false; Token.createdAt := None;
                Token.version := None; Token.preview := None |}
         end,
     add_event Await w).
Proof.
  unfold Token.getTokenInfo, await, bind, Token.loadRemoteConfig, emit, ret.
  destruct (disk w) as [c |]; [| reflexivity].
  destruct (Token.truthy_token (Some c)); reflexivity.
Qed.

(** X3.  The preview of [getTokenInfo] shows the first eight characters of
    the token and nothing else of it: two stores whose tokens agree on
    those characters give the same preview, of at most eleven characters;
    and the call leaves the file as it is. *)
Theorem getTokenInfo_shows_prefix_only
        (env1 env2 : Oracle) (w1 w2 : World) (c1 c2 : RemoteConfig) :
  disk w1 = Some c1 -> disk w2 = Some c2 ->
  token c1 <> [] -> token c2 <> [] ->
  firstn 8 (token c1) = firstn 8 (token c2) ->
  exists info1 info2 w1' w2' shown,
    Token.getTokenInfo env1 w1 = (Ret info1, w1')
    /\ Token.getTokenInfo env2 w2 = (Ret info2, w2')
    /\ Token.exists_ info1 = true
    /\ Token.preview info1 = Some shown
    /\ Token.preview info2 = Some shown
    /\ shown = firstn 8 (token c1) ++ lit "..."
    /\ (List.length shown <= 11)%nat
    /\ Token.version info1 = Some (tokenVersion c1)
    /\ disk w1' = disk w1.
Proof.
  intros Hd1 Hd2 Hn1 Hn2 Hprefix.
  assert (T1 : Token.truthy_token (disk w1) = Some (token c1))
    by (apply truthy_token_Some; exists c1; auto).
  assert (T2 : Token.truthy_token (disk w2) = Some (token c2))
    by (apply truthy_token_Some; exists c2; auto).
  rewrite (getTokenInfo_run env1 w1), (getTokenInfo_run env2 w2).
  rewrite T1, T2, Hd1, Hd2. unfold slice0. rewrite <- Hprefix.
  eexists _, _, _, _, _. repeat split.
  - rewrite length_app, length_firstn. change (List.length (lit "...")) with 3%nat.
    lia.
  - exact Hd1.
Qed.

Lemma getTokenInfo_shows_prefix_only_witness :
  exists info1 info2 w1' w2' shown,
    Token.getTokenInfo Sample.env Cases.world_long_1 = (Ret info1, w1')
    /\ Token.getTokenInfo Sample.env Cases.world_long_2 = (Ret info2, w2')
    /\ Token.exists_ info1 = true
    /\ Token.preview info1 = Some shown
    /\ Token.preview info2 = Some shown
    /\ shown = firstn 8 (token Cases.config_long_1) ++ lit "..."
    /\ (List.length shown <= 11)%nat
    /\ Token.version info1 = Some (tokenVersion Cases.config_long_1)
    /\ disk w1' = disk Cases.world_long_1.
Proof.
  apply (getTokenInfo_shows_prefix_only Sample.env Sample.env
           Cases.world_long_1 Cases.world_long_2
           Cases.config_long_1 Cases.config_long_2);
    try reflexivity; discriminate.
Defined.

(** What [validateToken] answers depends on the file alone. *)
Lemma validateToken_reads_disk (v : Json.value) (env1 env2 : Oracle) (w1 w2 : World) :
  disk w1 = disk w2 ->
  fst (Token.validateToken v env1 w1) = fst (Token.validateToken v env2 w2).
Proof.
  intros H. unfold Token.validateToken, await, bind, Token.loadRemoteConfig, emit, ret.
  rewrite H. destruct (Token.truthy_token (disk w2)); [| reflexivity].
  destruct v; reflexivity.
Qed.



(** X5.  A record whose token is the empty string is no credential:
    [validateToken] refuses every value, the empty string too, and does not
    throw; [getTokenInfo] says that no token exists; [getOrCreateToken]
    replaces the record by a new one of version 1, whatever version it had,
    where [rotateToken] goes on from that version: it stores the
    JavaScript sum of that version and 1, which is one more for a version
    below 2^53. *)
Theorem blank_token_is_no_credential (env : Oracle) (w : World) (c : RemoteConfig) :
  disk w = Some c -> token c = [] -> disk_writable env = true ->
  (forall v, Token.validateToken v env w = (Ret false, add_event Await w))
  /\ (exists info w', Token.getTokenInfo env w = (Ret info, w')
                      /\ Token.exists_ info = false
                      /\ Token.preview info = None)
  /\ (exists S w' c',
        Token.getOrCreateToken env w = (Ret (S, true), w')
        /\ disk w' = Some c' /\ token c' = S /\ S <> []
        /\ tokenVersion c' = 1)
  /\ (exists S w' c',
        Token.rotateToken env w = (Ret S, w')
        /\ disk w' = Some c' /\ token c' = S
        /\ tokenVersion c' = add (tokenVersion c) 1
        /\ (- 2 ^ 53 <= tokenVersion c < 2 ^ 53 ->
            tokenVersion c' = tokenVersion c + 1)).
Proof.
  intros Hd Hblank Hw.
  assert (Hnone : Token.truthy_token (disk w) = None)
    by (apply truthy_token_None; right; exists c; auto).
  split; [| split; [| split]].
  - intros v.
    unfold Token.validateToken, await, bind, Token.loadRemoteConfig, emit, ret.
    rewrite Hnone. reflexivity.
  - rewrite getTokenInfo_run, Hnone, Hd. eexists _, _. repeat split.
  - destruct (getOrCreateToken_fresh env w Hnone Hw) as (tok & Hlen & _ & Hrun).
    eexists tok, _, _. split; [exact Hrun |].
    repeat split. apply length_43_nonempty. exact Hlen.
  - destruct (rotateToken_run env w Hw) as (tok & _ & _ & Hrun).
    eexists tok, _, _. split; [exact Hrun |].
    rewrite Hd. cbn [disk add_event set_disk token tokenVersion].
    repeat split. apply add_safe.
Qed.

Lemma blank_token_is_no_credential_witness :
  (forall v, Token.validateToken v Sample.env Cases.world_blank
             = (Ret false, add_event Await Cases.world_blank))
  /\ (exists info w', Token.getTokenInfo Sample.env Cases.world_blank = (Ret info, w')
                      /\ Token.exists_ info = false
                      /\ Token.preview info = None)
  /\ (exists S w' c',
        Token.getOrCreateToken Sample.env Cases.world_blank = (Ret (S, true), w')
        /\ disk w' = Some c' /\ token c' = S /\ S <> []
        /\ tokenVersion c' = 1)
  /\ (exists S w' c',
        Token.rotateToken Sample.env Cases.world_blank = (Ret S, w')
        /\ disk w' = Some c' /\ token c' = S
        /\ tokenVersion c' = 8
        /\ (- 2 ^ 53 <= tokenVersion Cases.config_blank < 2 ^ 53 ->
            tokenVersion c' = tokenVersion Cases.config_blank + 1)).
Proof.
  exact (blank_token_is_no_credential Sample.env Cases.world_blank
           Cases.config_blank eq_refl eq_refl eq_refl).
Defined.

(** The version after [n] rotations. *)
Lemma rotate_times_run (env : Oracle) (n : nat) :
  disk_writable env = true ->
  forall w,
  - 2 ^ 53 <= version_on_record (disk w) ->
  version_on_record (disk w) + Z.of_nat n <= 2 ^ 53 ->
  exists secrets w',
    rotate_times n env w = (Ret secrets, w')
    /\ List.length secrets = n
    /\ version_on_record (disk w') = version_on_record (disk w) + Z.of_nat n
    /\ (n <> O ->
        exists c, disk w' = Some c /\ Some (token c) = last (map Some secrets) None
                  /\ token c <> [] /\ wf_string (token c)).
Proof.
  intros Hw. induction n as [| k IH]; intros w Hlow Hhigh.
  - exists [], w. cbn [rotate_times ret]. repeat split; try lia; try congruence.
  - cbn [rotate_times]. unfold bind at 1.
    destruct (rotateToken_run env w Hw) as (tok & Hlen & Hwf & Hrun).
    rewrite Hrun. unfold bind at 1.
    assert (Hone : add match disk w with
                       | Some c => tokenVersion c
                       | None => 0
                       end 1
                   = version_on_record (disk w) + 1).
    { apply add_safe. unfold version_on_record in *. lia. }
    match goal with
    | |- context [rotate_times k env ?w1] =>
        destruct (IH w1) as (secrets & w' & Hk & Hn & Hv & Hlast);
          [cbn [disk add_event set_disk version_on_record tokenVersion];
           rewrite Hone; lia ..
          | rewrite Hk]
    end.
    cbn [ret]. exists (tok :: secrets), w'. split; [reflexivity |].
    split; [cbn [List.length]; lia |]. split.
    + rewrite Hv. cbn [disk add_event set_disk version_on_record tokenVersion].
      rewrite Hone. lia.
    + intros _. destruct k as [| k'].
      * destruct secrets; [| discriminate Hn].
        cbn [rotate_times ret] in Hk. injection Hk as <-.
        eexists. split; [reflexivity |]. cbn [token map last].
        repeat split; auto using length_43_nonempty.
      * destruct (Hlast ltac:(discriminate)) as (c & Hc & Hl & Hne & Hwfc).
        exists c. split; [exact Hc |]. split; [| auto].
        destruct secrets as [| s rest]; [discriminate Hn |].
        cbn [map last] in *. exact Hl.
Qed.

(** X6.  [n] rotations in a row raise the version on record by exactly
    [n], so every rotation has a version of its own, as long as the
    versions stay within the integers a JavaScript number counts, up to
    2^53; each returns a secret, and after the last one it is the last
    secret that validates. *)
Theorem rotations_count_versions (env : Oracle) (w : World) (n : nat) :
  disk_writable env = true ->
  - 2 ^ 53 <= version_on_record (disk w) ->
  version_on_record (disk w) + Z.of_nat n <= 2 ^ 53 ->
  exists secrets w',
    rotate_times n env w = (Ret secrets, w')
    /\ List.length secrets = n
    /\ version_on_record (disk w') = version_on_record (disk w) + Z.of_nat n
    /\ forall newest,
        last (map Some secrets) None = Some newest ->
        Token.validateToken (Json.Str newest) env w'
        = (Ret true, add_event Await w').
Proof.
  intros Hw Hlow Hhigh.
  destruct (rotate_times_run env n Hw w Hlow Hhigh)
    as (secrets & w' & Hrun & Hn & Hv & Hlast).
  exists secrets, w'. split; [exact Hrun |]. split; [exact Hn |].
  split; [exact Hv |].
  intros newest Hnewest.
  destruct n as [| k].
  - destruct secrets; [discriminate Hnewest | discriminate Hn].
  - destruct (Hlast ltac:(discriminate)) as (c & Hc & Hl & Hne & Hwfc).
    rewrite Hnewest in Hl. injection Hl as Hl. subst newest.
    rewrite (validateToken_against env w' c (token c) Hc Hne Hwfc Hwfc).
    rewrite string_eqb_refl. reflexivity.
Qed.

Lemma rotations_count_versions_witness :
  exists secrets w',
    rotate_times 3 Sample.env Sample.world_ab = (Ret secrets, w')
    /\ List.length secrets = 3%nat
    /\ version_on_record (disk w') = 6
    /\ forall newest,
        last (map Some secrets) None = Some newest ->
        Token.validateToken (Json.Str newest) Sample.env w'
        = (Ret true, add_event Await w').
Proof.
  apply (rotations_count_versions Sample.env Sample.world_ab 3 eq_refl);
    vm_compute; discriminate.
Defined.

(** Whatever it is given, [validateToken] suspends once and touches
    nothing else. *)
Lemma validateToken_world (v : Json.value) (env : Oracle) (w : World) :
  snd (Token.validateToken v env w) = add_event Await w.
Proof.
  unfold Token.validateToken, await, bind, Token.loadRemoteConfig, emit, ret.
  destruct (Token.truthy_token (disk w)); [| reflexivity].
  destruct v; reflexivity.
Qed.

End TokenStoreFurther.


(** ** More on the router *)

Section RouterFurther.

Import Server Facts.

(** Runs the binds of a computation whose steps are messages, sends and
    log entries. *)
Ltac run_router :=
  repeat (unfold bind at 1;
          rewrite ?createMessage_run, ?send_run, ?log_run, ?sendError_run,
            ?sendPong_run;
          cbv beta iota).

(** An [auth] frame on a registered socket: everything hangs on what
    [validateToken] makes of the token. *)
Lemma auth_frame_run (this : RemoteServer) (ws : Ws) (c : ClientState)
      (rawMessage : jsstring) (message tok : Json.value)
      (env : Oracle) (w : World) :
  map_get ws (clients this) = Some c ->
  Json.parse rawMessage = Some message ->
  Json.get message (lit "type") = Some (Json.Str (lit "auth")) ->
  Json.get message (lit "token") = Some tok ->
  ws_message this ws rawMessage env w
  = match Token.validateToken tok env w with
    | (Ret true, w1) => (Ret (set_authenticated ws this), after_auth env ws c true w1)
    | (Ret false, w1) => (Ret this, after_auth env ws c false w1)
    | (Throw e, w1) => (Throw e, w1)
    end.
Proof.
  intros Hget Hparse Htype Htok.
  unfold ws_message. rewrite Hget. unfold handleMessage. rewrite Hparse.
  unfold prop. unfold bind at 1. rewrite Htype. cbn [ret].
  replace (Json.is_string (Json.Str (lit "auth")) (lit "auth")) with true
    by reflexivity.
  unfold handleAuth, prop. unfold await at 1. unfold bind at 1 2.
  rewrite Htok. cbn [ret]. unfold await at 1. unfold bind at 1 2.
  destruct (Token.validateToken tok env w) as [[[|] | e] w1]; [| | reflexivity];
    unfold await, Audit.logAuth, emit, ret; run_router; reflexivity.
Qed.

(** X8.  An [auth] frame that carries the stored secret authenticates the
    session it comes on, and only that one: the flag of the session is set,
    the response says [success] true, the audit log gains one entry with
    [success] true for this client, and every other session is as it
    was. *)
Theorem stored_secret_authenticates
        (this : RemoteServer) (ws : Ws) (c : ClientState) (config : RemoteConfig)
        (rawMessage : jsstring) (message : Json.value)
        (env : Oracle) (w : World) :
  map_get ws (clients this) = Some c ->
  disk w = Some config -> token config <> [] -> wf_string (token config) ->
  Json.parse rawMessage = Some message ->
  Json.get message (lit "type") = Some (Json.Str (lit "auth")) ->
  Json.get message (lit "token") = Some (Json.Str (token config)) ->
  exists this' w' response entry,
    step env (Frame ws rawMessage) (this, w) = (this', w')
    /\ session_flag (this', w') ws = Some true
    /\ (forall k, k <> ws -> map_get k (clients this') = map_get k (clients this))
    /\ trace w' = trace w ++ [Await; Await; Send ws response; Await; Await]
    /\ msg_payload response = AuthResponse true None
    /\ audit_log w' = audit_log w ++ [entry]
    /\ success entry = true
    /\ clientId entry = client_label c.
Proof.
  intros Hget Hd Hne Hwf Hparse Htype Htok.
  cbn [step]. unfold settle.
  rewrite (auth_frame_run this ws c rawMessage message _ env w Hget Hparse Htype Htok).
  rewrite (validateToken_against env w config (token config) Hd Hne Hwf Hwf).
  rewrite string_eqb_refl.
  eexists _, _, _, _. split; [reflexivity |].
  split; [| split; [| split; [| repeat split]]].
  - rewrite (flag_set_authenticated this w _ ws ws), Nat.eqb_refl.
    unfold session_flag. cbn [fst]. rewrite Hget. reflexivity.
  - intros k Hk. unfold set_authenticated. rewrite Hget.
    cbn [clients set_clients]. rewrite map_get_set.
    destruct (Nat.eqb_spec k ws); [contradiction | reflexivity].
  - unfold after_auth. cbn [trace add_event add_audit next_draw].
    rewrite <- !app_assoc. reflexivity.
  - reflexivity.
Qed.

Lemma stored_secret_authenticates_witness :
  exists this' w' response entry,
    step Sample.env (Frame 0%nat (Sample.frame "{'type':'auth','id':'a2','token':'ab'}"))
      (Sample.running_server, Sample.running_world)
    = (this', w')
    /\ session_flag (this', w') 0%nat = Some true
    /\ (forall k, k <> 0%nat ->
                  map_get k (clients this') = map_get k (clients Sample.running_server))
    /\ trace w'
       = trace Sample.running_world ++ [Await; Await; Send 0%nat response; Await; Await]
    /\ msg_payload response = AuthResponse true None
    /\ audit_log w' = audit_log Sample.running_world ++ [entry]
    /\ success entry = true
    /\ clientId entry = client_label Sample.guest.
Proof.
  apply (stored_secret_authenticates Sample.running_server 0%nat Sample.guest
           Sample.config_ab
           (Sample.frame "{'type':'auth','id':'a2','token':'ab'}")
           (Json.Obj [(lit "type", Json.Str (lit "auth"));
                      (lit "id", Json.Str (lit "a2"));
                      (lit "token", Json.Str (lit "ab"))]));
    try reflexivity.
  - discriminate.
  - repeat constructor; unfold code_unit; cbn; lia.
Defined.

(** X9.  Two [auth] frames whose tokens are both refused leave the same
    server and the same world behind: the response and the audit entry of a
    refusal say nothing about the token that was tried. *)
Theorem refused_auth_is_uniform
        (this : RemoteServer) (ws : Ws) (c : ClientState)
        (raw1 raw2 : jsstring) (m1 m2 tok1 tok2 : Json.value)
        (env : Oracle) (w : World) :
  map_get ws (clients this) = Some c ->
  Json.parse raw1 = Some m1 -> Json.parse raw2 = Some m2 ->
  Json.get m1 (lit "type") = Some (Json.Str (lit "auth")) ->
  Json.get m2 (lit "type") = Some (Json.Str (lit "auth")) ->
  Json.get m1 (lit "token") = Some tok1 ->
  Json.get m2 (lit "token") = Some tok2 ->
  fst (Token.validateToken tok1 env w) = Ret false ->
  fst (Token.validateToken tok2 env w) = Ret false ->
  step env (Frame ws raw1) (this, w) = step env (Frame ws raw2) (this, w)
  /\ fst (step env (Frame ws raw1) (this, w)) = this.
Proof.
  intros Hget Hp1 Hp2 Ht1 Ht2 Hk1 Hk2 Hv1 Hv2.
  cbn [step]. unfold settle.
  rewrite (auth_frame_run this ws c raw1 m1 tok1 env w Hget Hp1 Ht1 Hk1).
  rewrite (auth_frame_run this ws c raw2 m2 tok2 env w Hget Hp2 Ht2 Hk2).
  pose proof (validateToken_world tok1 env w) as Hw1.
  pose proof (validateToken_world tok2 env w) as Hw2.
  destruct (Token.validateToken tok1 env w) as [r1 w1].
  destruct (Token.validateToken tok2 env w) as [r2 w2].
  cbn [fst snd] in *. subst. split; reflexivity.
Qed.

Lemma refused_auth_is_uniform_witness :
  step Sample.env (Frame 0%nat (Sample.frame "{'type':'auth','id':'a1','token':'wrong'}"))
    (Sample.running_server, Sample.running_world)
  = step Sample.env (Frame 0%nat (Sample.frame "{'type':'auth','token':'a'}"))
      (Sample.running_server, Sample.running_world)
  /\ fst (step Sample.env
            (Frame 0%nat (Sample.frame "{'type':'auth','id':'a1','token':'wrong'}"))
            (Sample.running_server, Sample.running_world))
     = Sample.running_server.
Proof.
  apply (refused_auth_is_uniform Sample.running_server 0%nat Sample.guest
           (Sample.frame "{'type':'auth','id':'a1','token':'wrong'}")
           (Sample.frame "{'type':'auth','token':'a'}")
           (Json.Obj [(lit "type", Json.Str (lit "auth"));
                      (lit "id", Json.Str (lit "a1"));
                      (lit "token", Json.Str (lit "wrong"))])
           (Json.Obj [(lit "type", Json.Str (lit "auth"));
                      (lit "token", Json.Str (lit "a"))])
           (Json.Str (lit "wrong")) (Json.Str (lit "a")));
    reflexivity.
Defined.

(** X10.  A [status] frame on an authenticated session is answered, in the
    turn of the frame, by one [server_status] message with version 0.2.1,
    the number of sessions in the registry and the time since the start;
    nothing is logged and the server is as before. *)
Theorem status_reports_registry
        (this : RemoteServer) (ws : Ws) (c : ClientState)
        (rawMessage : jsstring) (message : Json.value)
        (env : Oracle) (w : World) :
  map_get ws (clients this) = Some c ->
  authenticated c = true ->
  Json.parse rawMessage = Some message ->
  Json.get message (lit "type") = Some (Json.Str (lit "status")) ->
  exists w' response,
    step env (Frame ws rawMessage) (this, w) = (this, w')
    /\ trace w' = trace w ++ [Send ws response]
    /\ msg_payload response
       = ServerStatus (lit "0.2.1")
           match server_startedAt this with
           | Some started => clock env (draws w) - started
           | None => 0
           end
           (Z.of_nat (List.length (clients this)))
    /\ audit_log w' = audit_log w
    /\ disk w' = disk w.
Proof.
  intros Hget Hauth Hparse Htype.
  cbn [step]. unfold settle, ws_message. rewrite Hget.
  unfold handleMessage. rewrite Hparse.
  unfold prop. unfold bind at 1. rewrite Htype. cbn [ret].
  replace (Json.is_string (Json.Str (lit "status")) (lit "auth")) with false
    by reflexivity.
  replace (Json.is_string (Json.Str (lit "status")) (lit "ping")) with false
    by reflexivity.
  replace (Json.is_string (Json.Str (lit "status")) (lit "status")) with true
    by reflexivity.
  rewrite Hauth. cbn [negb]. unfold sendStatus.
  destruct (server_startedAt this) as [started |];
    unfold now, ret; run_router;
    (eexists _, _; split; [reflexivity |]); repeat split.
Qed.

Lemma status_reports_registry_witness :
  exists w' response,
    step Sample.env (Frame 1%nat (Sample.frame "{'type':'status','id':'s1'}"))
      (Sample.running_server, Sample.running_world)
    = (Sample.running_server, w')
    /\ trace w' = trace Sample.running_world ++ [Send 1%nat response]
    /\ msg_payload response = ServerStatus (lit "0.2.1") 5000 2
    /\ audit_log w' = audit_log Sample.running_world
    /\ disk w' = disk Sample.running_world.
Proof.
  apply (status_reports_registry Sample.running_server 1%nat Sample.member
           (Sample.frame "{'type':'status','id':'s1'}")
           (Json.Obj [(lit "type", Json.Str (lit "status"));
                      (lit "id", Json.Str (lit "s1"))]));
    reflexivity.
Defined.

(** X11.  On an authenticated session a message whose type is none of
    [auth], [ping] and [status] is answered, in the turn of the frame, by
    one error message with code UNKNOWN_MESSAGE that names the type; unlike
    the refusal of an unauthenticated message, this is not logged.  This
    holds of every type that can be turned into a string, as every string
    can; for a type that cannot (an object with a [toString] property of
    its own, arrays nested too deep) the handler throws before it sends,
    and the frame gets no answer. *)
Theorem unknown_message_reported
        (this : RemoteServer) (ws : Ws) (c : ClientState)
        (rawMessage : jsstring) (message type : Json.value)
        (env : Oracle) (w : World) :
  map_get ws (clients this) = Some c ->
  authenticated c = true ->
  Json.parse rawMessage = Some message ->
  Json.get message (lit "type") = Some type ->
  Json.is_string type (lit "auth") = false ->
  Json.is_string type (lit "ping") = false ->
  Json.is_string type (lit "status") = false ->
  (Json.to_string_failure (join_depth env) type = None ->
   exists w' response,
     step env (Frame ws rawMessage) (this, w) = (this, w')
     /\ trace w' = trace w ++ [Send ws response]
     /\ msg_payload response
        = ErrorPayload (lit "UNKNOWN_MESSAGE")
            (Template (lit "Unknown message type: ") type)
     /\ audit_log w' = audit_log w
     /\ Turns.call (Frame ws rawMessage) env (this, w)
        = (Turns.Settled (Ret tt), (this, w')))
  /\ (Json.to_string_failure (join_depth env) type <> None ->
      (exists e,
          ws_message this ws rawMessage env w = (Throw e, w)
          /\ Turns.call (Frame ws rawMessage) env (this, w)
             = (Turns.Settled (Throw e), (this, w)))
      /\ step env (Frame ws rawMessage) (this, w) = (this, w))
  /\ (forall s, type = Json.Str s ->
                Json.to_string_failure (join_depth env) type = None).
Proof.
  intros Hget Hauth Hparse Htype Ha Hp Hs.
  assert (Hturn : Turns.call (Frame ws rawMessage) env (this, w)
                  = Turns.bind
                      (Turns.sync (template (lit "Unknown message type: ") type))
                      (fun text =>
                         Turns.sync (sendError ws (lit "UNKNOWN_MESSAGE") text))
                      env (this, w)).
  { cbn [Turns.call]. unfold Turns.ws_message. unfold Turns.bind at 1.
    unfold Turns.self. cbn [Turns.after fst snd]. rewrite Hget.
    unfold Turns.handleMessage. rewrite Hparse. unfold Turns.bind at 1.
    unfold Turns.sync at 1. unfold prop. cbn [fst snd]. rewrite Htype.
    cbn [ret Turns.after]. rewrite Ha, Hp, Hs, Hauth. reflexivity. }
  assert (Hrun : ws_message this ws rawMessage env w
                 = (x <- template (lit "Unknown message type: ") type ;;
                    sendError ws (lit "UNKNOWN_MESSAGE") x ;;; ret this) env w).
  { unfold ws_message. rewrite Hget. unfold handleMessage. rewrite Hparse.
    unfold prop. unfold bind at 1. rewrite Htype. cbn [ret].
    rewrite Ha, Hp, Hs, Hauth. reflexivity. }
  split; [| split].
  - intros Hok. cbn [step]. unfold settle. rewrite Hrun, Hturn.
    unfold Turns.bind, Turns.sync.
    unfold bind at 1. unfold template. rewrite Hok. unfold ret.
    cbn [fst snd Turns.after]. run_router.
    eexists _, _. split; [reflexivity |]. repeat split.
  - intros Hfail. cbn [step]. unfold settle. rewrite Hrun, Hturn.
    unfold Turns.bind, Turns.sync. unfold bind, template.
    destruct (Json.to_string_failure (join_depth env) type) as [[|] |];
      [| | contradiction];
      (split; [eexists; split |]; reflexivity).
  - intros s ->. reflexivity.
Qed.

Lemma unknown_message_reported_witness :
  exists w' response,
    step Sample.env (Frame 1%nat (Sample.frame "{'type':'pause','id':7}"))
      (Sample.running_server, Sample.running_world)
    = (Sample.running_server, w')
    /\ trace w' = trace Sample.running_world ++ [Send 1%nat response]
    /\ msg_payload response
       = ErrorPayload (lit "UNKNOWN_MESSAGE")
           (Template (lit "Unknown message type: ") (Json.Str (lit "pause")))
    /\ audit_log w' = audit_log Sample.running_world
    /\ Turns.call (Frame 1%nat (Sample.frame "{'type':'pause','id':7}"))
         Sample.env (Sample.running_server, Sample.running_world)
       = (Turns.Settled (Ret tt), (Sample.running_server, w')).
Proof.
  apply (unknown_message_reported Sample.running_server 1%nat Sample.member
           (Sample.frame "{'type':'pause','id':7}")
           (Json.Obj [(lit "type", Json.Str (lit "pause"));
                      (lit "id", Json.Num (lit "7"))])
           (Json.Str (lit "pause")));
    reflexivity.
Defined.

(** *** What a frame cannot touch *)

Lemma map_set_keys (ws : Ws) (v c : ClientState) (m : list (Ws * ClientState)) :
  map_get ws m = Some c -> map fst (map_set ws v m) = map fst m.
Proof.
  induction m as [| [k v'] rest IH]; cbn [map_get map_set]; [discriminate |].
  destruct (Nat.eqb k ws); intros H; cbn [map fst].
  - reflexivity.
  - rewrite (IH H). reflexivity.
Qed.

(** X13.  A frame changes nothing of the server but, at most, the
    [authenticated] flag of the session it came on, and that only upwards:
    the listening socket, the options, the start time, the sockets of the
    registry and their order, every other session, and the id, address and
    connection time of its own session are as before. *)
Theorem frame_touches_own_flag_only
        (env : Oracle) (this : RemoteServer) (w : World) (ws : Ws)
        (rawMessage : jsstring) :
  exists this' w',
    step env (Frame ws rawMessage) (this, w) = (this', w')
    /\ server this' = server this
    /\ options this' = options this
    /\ server_startedAt this' = server_startedAt this
    /\ map fst (clients this') = map fst (clients this)
    /\ (forall k, k <> ws -> map_get k (clients this') = map_get k (clients this))
    /\ (forall c,
          map_get ws (clients this) = Some c ->
          exists c',
            map_get ws (clients this') = Some c'
            /\ id c' = id c /\ ip c' = ip c /\ connectedAt c' = connectedAt c
            /\ (authenticated c = true -> authenticated c' = true)).
Proof.
  destruct (frame_outcome env this w ws rawMessage)
    as (this' & w' & Hstep & [Heq | [Heq _]]);
    exists this', w'; (split; [exact Hstep |]); subst this'.
  - repeat split; eauto 10.
  - clear Hstep. unfold set_authenticated.
    destruct (map_get ws (clients this)) as [c |] eqn:Hget.
    + cbn [server options server_startedAt clients set_clients].
      repeat split.
      * eapply map_set_keys. exact Hget.
      * intros k Hk. rewrite map_get_set.
        destruct (Nat.eqb_spec k ws); [contradiction | reflexivity].
      * intros c0 H0. injection H0 as <-. rewrite map_get_set, Nat.eqb_refl.
        eexists. repeat split.
    + repeat split; eauto 10. intros c0 H0. discriminate H0.
Qed.

End RouterFurther.


(** ** What the server leaves alone *)

Section Preserved.

Import Server Facts.

(** A part of the world that sending, logging and drawing do not change. *)
Variable T : Type.
Variable part : World -> T.
Hypothesis part_event : forall e w, part (add_event e w) = part w.
Hypothesis part_audit : forall e w, part (add_audit e w) = part w.
Hypothesis part_draw : forall w, part (next_draw w) = part w.

Lemma pres_ret {A} (a : A) : preserves part (ret a).
Proof. intros env w. reflexivity. Qed.

Lemma pres_throw {A} (e : Error) : preserves part (@throw A e).
Proof. intros env w. reflexivity. Qed.

Lemma pres_bind {A B} (m : M A) (k : A -> M B) :
  preserves part m -> (forall a, preserves part (k a)) -> preserves part (bind m k).
Proof.
  intros Hm Hk env w. unfold bind. specialize (Hm env w).
  destruct (m env w) as [[a | e] w1]; cbn [snd] in *.
  - rewrite Hk. exact Hm.
  - exact Hm.
Qed.

Lemma pres_try_catch {A} (m h : M A) :
  preserves part m -> preserves part h -> preserves part (try_catch m h).
Proof.
  intros Hm Hh env w. unfold try_catch. specialize (Hm env w).
  destruct (m env w) as [[a | e] w1]; cbn [snd] in *.
  - exact Hm.
  - rewrite Hh. exact Hm.
Qed.

Lemma pres_emit (e : Event) : preserves part (emit e).
Proof. intros env w. apply part_event. Qed.

Lemma pres_now : preserves part now.
Proof. intros env w. apply part_draw. Qed.

Lemma pres_random_base36 : preserves part random_base36.
Proof. intros env w. apply part_draw. Qed.

Lemma pres_get_pid : preserves part get_pid.
Proof. intros env w. reflexivity. Qed.

Lemma pres_prop (v : Json.value) (key : jsstring) : preserves part (prop v key).
Proof. intros env w. unfold prop. destruct (Json.get v key); reflexivity. Qed.

Lemma pres_loadRemoteConfig : preserves part Token.loadRemoteConfig.
Proof. intros env w. reflexivity. Qed.

Lemma pres_log clientId action details success error :
  preserves part (Audit.log clientId action details success error).
Proof. intros env w. rewrite log_run. cbn [snd]. rewrite part_audit. apply part_draw. Qed.

Lemma pres_ws_send (ws : Ws) (m : WSMessage) : preserves part (ws_send ws m).
Proof.
  intros env w. unfold ws_send, bind, emit.
  destruct (sock_throws env ws); apply part_event.
Qed.

Lemma pres_ws_close (ws : Ws) : preserves part (ws_close ws).
Proof.
  intros env w. unfold ws_close, bind, emit.
  destruct (sock_throws env ws); apply part_event.
Qed.

Lemma pres_Bun_serve (p : Z) (h : jsstring) : preserves part (Bun_serve p h).
Proof.
  intros env w. unfold Bun_serve, bind, emit.
  destruct (port_free env); apply part_event.
Qed.

Lemma pres_JSON_stringify (m : WSMessage) : preserves part (JSON_stringify m).
Proof.
  intros env w. unfold JSON_stringify.
  destruct (stringify_depth env <? Json.nesting (msg_id m))%nat; reflexivity.
Qed.

Lemma pres_template (prefix : jsstring) (v : Json.value) :
  preserves part (template prefix v).
Proof.
  intros env w. unfold template.
  destruct (Json.to_string_failure (join_depth env) v) as [[|] |]; reflexivity.
Qed.

#[local] Hint Resolve pres_ret pres_throw pres_try_catch pres_emit pres_now
  pres_random_base36 pres_get_pid pres_prop pres_loadRemoteConfig pres_log
  pres_ws_send pres_ws_close pres_Bun_serve pres_JSON_stringify
  pres_template : core.

(** Follows the shape of a computation. *)
Ltac pres :=
  repeat first
    [ progress intros
    | progress cbv zeta
    | solve [auto]
    | apply pres_bind
    | match goal with
      | |- preserves _ (match ?x with _ => _ end) => destruct x
      | |- preserves _ (let (_, _) := ?x in _) => destruct x
      end ].

Lemma pres_await {A} (m : M A) : preserves part m -> preserves part (await m).
Proof. intros H. unfold await. pres. Qed.

#[local] Hint Resolve pres_await : core.

Lemma pres_validateToken (v : Json.value) : preserves part (Token.validateToken v).
Proof. unfold Token.validateToken. pres. Qed.

Lemma pres_createMessage (data : Payload) : preserves part (createMessage data).
Proof. unfold createMessage, generateMessageId. pres. Qed.

Lemma pres_send (ws : Ws) (m : WSMessage) : preserves part (send ws m).
Proof. unfold send. apply pres_try_catch; pres. Qed.

Lemma pres_notify (given : bool) (cb : Callback) : preserves part (notify given cb).
Proof. unfold notify. pres. Qed.

#[local] Hint Resolve pres_validateToken pres_createMessage pres_send
  pres_notify : core.

Lemma pres_handleAuth this ws c message :
  preserves part (handleAuth this ws c message).
Proof. unfold handleAuth, Audit.logAuth. pres. Qed.

#[local] Hint Resolve pres_handleAuth : core.

Lemma pres_handleMessage this ws c raw :
  preserves part (handleMessage this ws c raw).
Proof.
  unfold handleMessage, sendError, sendPong, sendStatus, Audit.logFailure. pres.
Qed.

Lemma pres_ws_message this ws raw : preserves part (ws_message this ws raw).
Proof.
  unfold ws_message. destruct (map_get ws (clients this));
    auto using pres_handleMessage.
Qed.

Lemma pres_ws_open this ws data_ip : preserves part (ws_open this ws data_ip).
Proof. unfold ws_open, generateClientId, Audit.logConnection. pres. Qed.

Lemma pres_ws_close_handler this ws : preserves part (ws_close_handler this ws).
Proof. unfold ws_close_handler, Audit.logConnection. pres. Qed.

Lemma pres_close_all (m : list (Ws * ClientState)) : preserves part (close_all m).
Proof. induction m as [| [ws c] rest IH]; cbn [close_all]; pres. Qed.

#[local] Hint Resolve pres_close_all : core.

Lemma pres_start this : preserves part (start this).
Proof. unfold start, Audit.logServerEvent. pres. Qed.

Lemma pres_stop this : preserves part (stop this).
Proof. unfold stop, Audit.logServerEvent. pres. Qed.

(** One action of the server leaves the part alone, if the creation of a
    socket does. *)
Lemma pres_step (env : Oracle) (a : Action) (this : RemoteServer) (w : World) :
  (forall w0, part (next_socket w0) = part w0) ->
  part (snd (step env a (this, w))) = part w.
Proof.
  intros part_socket. destruct a; cbn [step]; rewrite settle_world.
  - apply pres_bind; [apply pres_start | intros; apply pres_ret].
  - apply pres_stop.
  - rewrite pres_ws_open. apply part_socket.
  - apply pres_ws_message.
  - apply pres_ws_close_handler.
Qed.

End Preserved.

Section ServerAndFile.

Import Server Facts.

Lemma step_keeps_disk (env : Oracle) (a : Action) (st : RemoteServer * World) :
  disk (snd (step env a st)) = disk (snd st).
Proof.
  destruct st as [this w]. apply (pres_step _ disk); reflexivity.
Qed.

End ServerAndFile.


(** ** More on starting and stopping *)

Section LifecycleFurther.

Import Server Facts.

Lemma start_run (this : RemoteServer) (env : Oracle) (w : World) :
  server this = None ->
  port_free env = true ->
  exists w',
    start this env w
    = (Ret ({| running := true;
               port := opt_port (options this);
               host := bind_host (hasToken (options this));
               startedAt := clock env (draws w);
               connectedClients := 0;
               pid := process_pid env |},
            set_startedAt (Some (clock env (draws w)))
              (set_server
                 (Some {| listen_port := opt_port (options this);
                          listen_hostname := bind_host (hasToken (options this)) |})
                 this)),
       w')
    /\ audit_log w'
       = audit_log w
         ++ [{| timestamp := clock env (S (draws w));
                clientId := lit "server";
                action := lit "start";
                details :=
                  Some [(lit "port", DetailNumber (opt_port (options this)));
                        (lit "host",
                         DetailString (bind_host (hasToken (options this))));
                        (lit "pid", DetailNumber (process_pid env))];
                success := true;
                error := None |}].
Proof.
  intros Hs Hp. unfold start. rewrite Hs.
  unfold await, Audit.logServerEvent, Bun_serve, bind, emit, now, get_pid.
  rewrite Hp, log_run. cbn [ret options set_server set_startedAt].
  destruct (onStart (options this)); cbn [notify emit ret];
    (eexists; split; [reflexivity |]); reflexivity.
Qed.

Lemma getState_run (this : RemoteServer) (env : Oracle) (w : World) :
  getState this env w
  = (Ret match server this, server_startedAt this with
         | Some _, Some started =>
             Some {| running := true;
                     port := opt_port (options this);
                     host := bind_host (hasToken (options this));
                     startedAt := started;
                     connectedClients := Z.of_nat (List.length (clients this));
                     pid := process_pid env |}
         | _, _ => None
         end,
     w).
Proof.
  unfold getState. destruct (server this); [| reflexivity].
  destruct (server_startedAt this); reflexivity.
Qed.

(** X15.  A start that fails changes nothing.  On a running server [start]
    throws at once: no bind is asked for, nothing is logged, the world is
    as before.  On a port that is taken it throws after the one bind it
    asked for: nothing is logged, no start is notified, the server is not
    running and [getState] says so. *)
Theorem failed_start_changes_nothing
        (this : RemoteServer) (env : Oracle) (w : World) :
  (forall listening,
      server this = Some listening ->
      start this env w = (Throw (JsError (lit "Server is already running")), w))
  /\ (server this = None ->
      port_free env = false ->
      exists e w',
        start this env w = (Throw e, w')
        /\ trace w'
           = trace w
             ++ [Serve (opt_port (options this)) (bind_host (hasToken (options this)))]
        /\ audit_log w' = audit_log w
        /\ step env DoStart (this, w) = (this, w')
        /\ getState this env w' = (Ret None, w')).
Proof.
  split.
  - intros listening H. unfold start. rewrite H. reflexivity.
  - intros Hs Hp.
    assert (Hrun : start this env w
                   = (Throw (JsError (lit "EADDRINUSE")),
                      add_event
                        (Serve (opt_port (options this))
                           (bind_host (hasToken (options this)))) w)).
    { unfold start. rewrite Hs. unfold Bun_serve, bind, emit. rewrite Hp.
      reflexivity. }
    eexists _, _. split; [exact Hrun |]. repeat split.
    + cbn [step]. unfold settle, bind. rewrite Hrun. reflexivity.
    + rewrite getState_run, Hs. reflexivity.
Qed.

Lemma failed_start_changes_nothing_witness :
  exists e w',
    start (new_RemoteServer Sample.options_remote) Cases.env_port_taken
      Sample.empty_world
    = (Throw e, w')
    /\ trace w' = trace Sample.empty_world ++ [Serve 7890 (lit "0.0.0.0")]
    /\ audit_log w' = audit_log Sample.empty_world
    /\ step Cases.env_port_taken DoStart
         (new_RemoteServer Sample.options_remote, Sample.empty_world)
       = (new_RemoteServer Sample.options_remote, w')
    /\ getState (new_RemoteServer Sample.options_remote) Cases.env_port_taken w'
       = (Ret None, w').
Proof.
  exact (proj2 (failed_start_changes_nothing
                  (new_RemoteServer Sample.options_remote) Cases.env_port_taken
                  Sample.empty_world) eq_refl eq_refl).
Defined.

(** *** What each action leaves of the server *)

Lemma stop_result (this : RemoteServer) (env : Oracle) (w : World)
      (listening : BunServer) :
  server this = Some listening ->
  exists w', stop this env w = (Ret (set_server None (set_clients [] this)), w').
Proof.
  intros H. unfold stop. rewrite H. unfold bind at 1.
  destruct (close_all_run (clients this) env w) as (w1 & Hrun & _).
  rewrite Hrun.
  unfold await, Audit.logServerEvent, bind, emit. rewrite log_run.
  cbn [ret set_clients set_server options].
  destruct (onStop (options this)); cbn [notify emit ret]; eexists; reflexivity.
Qed.

Lemma connect_result (env : Oracle) (this : RemoteServer) (w : World)
      (data_ip : option jsstring) :
  exists w',
    step env (Connect data_ip) (this, w)
    = (set_clients
         (map_set (sockets w)
            {| id := substring (random36 env (draws w)) 2 10;
               ip := match data_ip with Some a => a | None => lit "unknown" end;
               authenticated := false;
               connectedAt := clock env (S (draws w)) |}
            (clients this))
         this,
       w')
    /\ audit_log w'
       = audit_log w
         ++ [{| timestamp := clock env (S (S (draws w)));
                clientId :=
                  substring (random36 env (draws w)) 2 10 ++ lit "@"
                  ++ match data_ip with Some a => a | None => lit "unknown" end;
                action := lit "connect";
                details := None;
                success := true;
                error := None |}]
    /\ trace w'
       = trace w
         ++ (if onConnect (options this)
             then [Notify (OnConnect (substring (random36 env (draws w)) 2 10))]
             else [])
    /\ draws w' = S (S (S (draws w)))
    /\ sockets w' = S (sockets w).
Proof.
  cbn [step]. unfold settle, ws_open, generateClientId, Audit.logConnection.
  unfold bind, random_base36, now, ret. cbv beta iota. rewrite log_run.
  cbn [options set_clients].
  destruct (onConnect (options this)); cbn [notify emit];
    (eexists; split; [reflexivity |]);
    cbn [audit_log trace draws sockets add_event add_audit next_draw next_socket];
    rewrite ?app_nil_r; repeat split.
Qed.

Lemma disconnect_result (env : Oracle) (this : RemoteServer) (w : World)
      (ws : Ws) (c : ClientState) :
  map_get ws (clients this) = Some c ->
  exists w',
    step env (Disconnect ws) (this, w)
    = (set_clients (map_delete ws (clients this)) this, w')
    /\ audit_log w'
       = audit_log w
         ++ [{| timestamp := clock env (draws w);
                clientId := client_label c;
                action := lit "disconnect";
                details := None;
                success := true;
                error := None |}]
    /\ trace w'
       = trace w
         ++ (if onDisconnect (options this) then [Notify (OnDisconnect (id c))] else []).
Proof.
  intros Hget. cbn [step]. unfold settle, ws_close_handler. rewrite Hget.
  unfold Audit.logConnection, bind. rewrite log_run.
  destruct (onDisconnect (options this)); cbn [notify emit ret];
    (eexists; split; [reflexivity |]);
    cbn [audit_log trace add_event add_audit next_draw];
    rewrite ?app_nil_r; repeat split.
Qed.

Lemma disconnect_unknown (env : Oracle) (this : RemoteServer) (w : World) (ws : Ws) :
  map_get ws (clients this) = None ->
  step env (Disconnect ws) (this, w) = (this, w).
Proof.
  intros Hget. cbn [step]. unfold settle, ws_close_handler. rewrite Hget.
  reflexivity.
Qed.

Lemma frame_unknown (env : Oracle) (this : RemoteServer) (w : World) (ws : Ws)
      (rawMessage : jsstring) :
  map_get ws (clients this) = None ->
  step env (Frame ws rawMessage) (this, w) = (this, w).
Proof.
  intros Hget. cbn [step]. unfold settle, ws_message. rewrite Hget. reflexivity.
Qed.

(** The fields of the server after one action, the registry apart. *)
Lemma step_fields (env : Oracle) (a : Action) (this : RemoteServer) (w : World) :
  options (fst (step env a (this, w))) = options this
  /\ ((server (fst (step env a (this, w))) = server this
       /\ server_startedAt (fst (step env a (this, w))) = server_startedAt this)
      \/ (a = DoStart
          /\ server this = None
          /\ server (fst (step env a (this, w)))
             = Some {| listen_port := opt_port (options this);
                       listen_hostname := bind_host (hasToken (options this)) |}
          /\ server_startedAt (fst (step env a (this, w)))
             = Some (clock env (draws w)))
      \/ (a = DoStop
          /\ server (fst (step env a (this, w))) = None
          /\ server_startedAt (fst (step env a (this, w))) = server_startedAt this)).
Proof.
  destruct a as [| | data_ip | ws rawMessage | ws].
  - destruct (server this) as [listening |] eqn:Hs.
    + cbn [step]. unfold settle, bind, start. rewrite Hs. cbn [throw fst]. auto 10.
    + destruct (port_free env) eqn:Hp.
      * destruct (start_run this env w Hs Hp) as (w' & Hrun & _).
        cbn [step]. unfold settle, bind. rewrite Hrun.
        cbn [ret snd fst options server server_startedAt set_server set_startedAt].
        split; [reflexivity |]. right. left. auto 10.
      * cbn [step]. unfold settle, bind, start. rewrite Hs.
        unfold Bun_serve, bind, emit. rewrite Hp. cbn [fst]. auto 10.
  - destruct (server this) as [listening |] eqn:Hs.
    + destruct (stop_result this env w listening Hs) as (w' & Hrun).
      cbn [step]. unfold settle. rewrite Hrun.
      cbn [fst options server server_startedAt set_server set_clients]. auto 10.
    + cbn [step]. unfold settle. rewrite (stop_not_running this env w Hs).
      cbn [fst]. auto 10.
  - destruct (connect_result env this w data_ip) as (w' & Hrun & _).
    rewrite Hrun. cbn [fst options server server_startedAt set_clients]. auto 10.
  - destruct (frame_outcome env this w ws rawMessage)
      as (this' & w' & Hstep & [Heq | [Heq _]]); rewrite Hstep; subst this';
      cbn [fst]; [auto 10 |].
    unfold set_authenticated. destruct (map_get ws (clients this)); auto 10.
  - destruct (map_get ws (clients this)) as [c |] eqn:Hget.
    + destruct (disconnect_result env this w ws c Hget) as (w' & Hrun & _).
      rewrite Hrun. cbn [fst options server server_startedAt set_clients]. auto 10.
    + rewrite (disconnect_unknown env this w ws Hget). cbn [fst]. auto 10.
Qed.

Lemma step_coherent (env : Oracle) (a : Action) (st : RemoteServer * World) :
  coherent (fst st) -> coherent (fst (step env a st)).
Proof.
  destruct st as [this w]. cbn [fst]. unfold coherent. intros H.
  destruct (step_fields env a this w)
    as [Ho [[Hs Ht] | [(_ & _ & Hs & Ht) | (_ & Hs & _)]]].
  - rewrite Hs, Ho, Ht. exact H.
  - rewrite Hs, Ho, Ht. cbn [listen_hostname listen_port].
    repeat split. discriminate.
  - rewrite Hs. exact I.
Qed.

End LifecycleFurther.


(** ** More on the registry *)

Section RegistryFurther.

Import Server Facts.

Lemma map_get_None_keys (k : Ws) (m : list (Ws * ClientState)) :
  map_get k m = None <-> ~ In k (map fst m).
Proof.
  induction m as [| [k' v] rest IH]; cbn [map_get map fst In].
  - tauto.
  - destruct (Nat.eqb_spec k' k) as [-> | Hne].
    + split; [discriminate | intros H; exfalso; apply H; auto].
    + rewrite IH. split; [intros H [E | E]; auto | intros H E; apply H; auto].
Qed.

Lemma map_set_fresh (k : Ws) (v : ClientState) (m : list (Ws * ClientState)) :
  map_get k m = None -> map_set k v m = m ++ [(k, v)].
Proof.
  induction m as [| [k' v'] rest IH]; cbn [map_get map_set app]; [reflexivity |].
  destruct (Nat.eqb k' k); [discriminate |].
  intros H. rewrite (IH H). reflexivity.
Qed.

Lemma map_delete_absent (k : Ws) (m : list (Ws * ClientState)) :
  map_get k m = None -> map_delete k m = m.
Proof.
  unfold map_delete.
  induction m as [| [k' v'] rest IH]; cbn [map_get filter fst]; [reflexivity |].
  destruct (Nat.eqb k' k); [discriminate |].
  intros H. cbn [negb]. rewrite (IH H). reflexivity.
Qed.

Lemma map_delete_keys (k : Ws) (m : list (Ws * ClientState)) :
  map fst (map_delete k m) = filter (fun k' => negb (Nat.eqb k' k)) (map fst m).
Proof.
  unfold map_delete.
  induction m as [| [k' v'] rest IH]; cbn [filter map fst]; [reflexivity |].
  destruct (Nat.eqb k' k); cbn [negb map fst]; rewrite IH; reflexivity.
Qed.

Lemma map_delete_length (k : Ws) (c : ClientState) (m : list (Ws * ClientState)) :
  NoDup (map fst m) -> map_get k m = Some c ->
  S (List.length (map_delete k m)) = List.length m.
Proof.
  unfold map_delete.
  induction m as [| [k' v'] rest IH]; cbn [map_get filter fst map List.length];
    [discriminate |].
  intros Hnd Hget. inversion Hnd as [| ? ? Hnotin Hnd']; subst.
  destruct (Nat.eqb_spec k' k) as [-> | Hne]; cbn [negb List.length].
  - f_equal. apply map_get_None_keys in Hnotin.
    exact (f_equal (@List.length _) (map_delete_absent k rest Hnotin)).
  - f_equal. apply IH; assumption.
Qed.

(** X17.  The registry counts the live connections: from a registry of
    distinct sockets that the runtime created, a connection adds one
    session, the disconnection of a registered socket removes exactly one,
    a stop of a running server removes them all, and nothing else changes
    the number; the registry stays one of distinct, created sockets. *)
Theorem registry_counts_connections
        (env : Oracle) (a : Action) (this : RemoteServer) (w : World) :
  registry_known (this, w) ->
  registry_distinct (this, w) ->
  registry_known (step env a (this, w))
  /\ registry_distinct (step env a (this, w))
  /\ List.length (clients (fst (step env a (this, w))))
     = match a with
       | Connect _ => S (List.length (clients this))
       | Disconnect ws =>
           match map_get ws (clients this) with
           | Some _ => pred (List.length (clients this))
           | None => List.length (clients this)
           end
       | DoStop =>
           match server this with
           | Some _ => O
           | None => List.length (clients this)
           end
       | _ => List.length (clients this)
       end.
Proof.
  intros Hknown Hdistinct.
  split; [apply step_known; exact Hknown |].
  unfold registry_distinct in *. cbn [fst] in Hdistinct.
  destruct a as [| | data_ip | ws rawMessage | ws].
  - rewrite start_clients. auto.
  - destruct (server this) as [listening |] eqn:Hs.
    + destruct (stop_result this env w listening Hs) as (w' & Hrun).
      cbn [step]. unfold settle. rewrite Hrun. cbn [fst clients set_clients map].
      split; [constructor | reflexivity].
    + cbn [step]. unfold settle. rewrite (stop_not_running this env w Hs). auto.
  - destruct (connect_result env this w data_ip) as (w' & Hrun & _).
    rewrite Hrun. cbn [fst clients set_clients].
    assert (Hfresh : map_get (sockets w) (clients this) = None).
    { destruct (map_get (sockets w) (clients this)) as [c |] eqn:E; [| reflexivity].
      apply Hknown in E. cbn [snd] in E. lia. }
    rewrite (map_set_fresh _ _ _ Hfresh). split.
    + rewrite map_app. cbn [map fst]. apply NoDup_app.
      * exact Hdistinct.
      * repeat constructor. intros [].
      * intros k Hk [<- | []]. apply map_get_None_keys in Hfresh. contradiction.
    + rewrite length_app. cbn [List.length]. lia.
  - destruct (frame_outcome env this w ws rawMessage)
      as (this' & w' & Hstep & [Heq | [Heq _]]); rewrite Hstep; subst this';
      cbn [fst]; [auto |].
    unfold set_authenticated.
    destruct (map_get ws (clients this)) as [c |] eqn:Hget; [| auto].
    cbn [clients set_clients].
    rewrite (map_set_keys ws _ c (clients this) Hget). split; [exact Hdistinct |].
    rewrite <- (length_map fst (map_set _ _ _)), (map_set_keys ws _ c _ Hget).
    apply length_map.
  - destruct (map_get ws (clients this)) as [c |] eqn:Hget.
    + destruct (disconnect_result env this w ws c Hget) as (w' & Hrun & _).
      rewrite Hrun. cbn [fst clients set_clients]. split.
      * rewrite map_delete_keys. apply NoDup_filter. exact Hdistinct.
      * rewrite <- (map_delete_length ws c (clients this) Hdistinct Hget).
        reflexivity.
    + rewrite (disconnect_unknown env this w ws Hget). auto.
Qed.

Lemma registry_counts_connections_witness :
  registry_known
    (step Sample.env (Disconnect 0%nat) (Sample.running_server, Sample.running_world))
  /\ registry_distinct
       (step Sample.env (Disconnect 0%nat)
          (Sample.running_server, Sample.running_world))
  /\ List.length
       (clients
          (fst (step Sample.env (Disconnect 0%nat)
                  (Sample.running_server, Sample.running_world))))
     = 1%nat.
Proof.
  apply (registry_counts_connections Sample.env (Disconnect 0%nat)
           Sample.running_server Sample.running_world).
  - intros ws c H. cbn in H.
    destruct ws as [| [| ws]]; cbn in H; [cbn; lia | cbn; lia | discriminate H].
  - unfold registry_distinct. cbn. repeat constructor; cbn; intuition lia.
Defined.

(** Without sessions, what comes from a socket finds nothing to do. *)
Lemma empty_registry_ignores (env : Oracle) (actions : list Action) :
  forall this w,
    clients this = [] -> Forall from_socket actions ->
    run env actions (this, w) = (this, w).
Proof.
  induction actions as [| a rest IH]; intros this w Hempty Hall; cbn [run].
  - reflexivity.
  - inversion Hall as [| ? ? Ha Hrest]; subst.
    destruct a as [| | data_ip | ws rawMessage | ws]; try contradiction.
    + rewrite frame_unknown by (rewrite Hempty; reflexivity). auto.
    + rewrite disconnect_unknown by (rewrite Hempty; reflexivity). auto.
Qed.

(** X18.  Once [stop] has run, whatever its sockets still deliver is
    ignored: frames get no answer and disconnections are neither logged nor
    notified, so the run ends in the state [stop] left. *)
Theorem stopped_server_ignores_sockets
        (env : Oracle) (this : RemoteServer) (w : World) (listening : BunServer)
        (actions : list Action) :
  server this = Some listening ->
  Forall from_socket actions ->
  run env (DoStop :: actions) (this, w) = step env DoStop (this, w)
  /\ clients (fst (step env DoStop (this, w))) = [].
Proof.
  intros Hs Hall. cbn [run].
  destruct (stop_result this env w listening Hs) as (w' & Hrun).
  assert (Hstep : step env DoStop (this, w)
                  = (set_server None (set_clients [] this), w')).
  { cbn [step]. unfold settle. rewrite Hrun. reflexivity. }
  rewrite Hstep. split; [| reflexivity].
  apply empty_registry_ignores; [reflexivity | exact Hall].
Qed.

Lemma stopped_server_ignores_sockets_witness :
  run Sample.env
    [DoStop; Disconnect 0%nat; Frame 1%nat (Sample.frame "{'type':'status','id':'s1'}");
     Disconnect 1%nat]
    (Sample.running_server, Sample.running_world)
  = step Sample.env DoStop (Sample.running_server, Sample.running_world)
  /\ clients (fst (step Sample.env DoStop
                     (Sample.running_server, Sample.running_world))) = [].
Proof.
  apply (stopped_server_ignores_sockets Sample.env Sample.running_server
           Sample.running_world
           {| listen_port := 7890; listen_hostname := lit "0.0.0.0" |}).
  - reflexivity.
  - repeat constructor.
Defined.

(** X19.  A connection followed by its disconnection leaves the registry
    as it was.  The two audit entries, [connect] and [disconnect], name the
    client alike, by the eight characters at most of its id, an [@] and the
    address of the request, or [unknown] when there is none. *)
Theorem connection_round_trip
        (env : Oracle) (this : RemoteServer) (w : World)
        (data_ip : option jsstring) :
  registry_known (this, w) ->
  exists this' w' opened closed,
    run env [Connect data_ip; Disconnect (sockets w)] (this, w) = (this', w')
    /\ clients this' = clients this
    /\ audit_log w' = audit_log w ++ [opened; closed]
    /\ action opened = lit "connect"
    /\ action closed = lit "disconnect"
    /\ clientId closed = clientId opened
    /\ clientId opened
       = substring (random36 env (draws w)) 2 10 ++ lit "@"
         ++ match data_ip with Some a => a | None => lit "unknown" end
    /\ (List.length (substring (random36 env (draws w)) 2 10) <= 8)%nat.
Proof.
  intros Hknown. cbn [run].
  assert (Hfresh : map_get (sockets w) (clients this) = None).
  { destruct (map_get (sockets w) (clients this)) as [c |] eqn:E; [| reflexivity].
    apply Hknown in E. cbn [snd] in E. lia. }
  destruct (connect_result env this w data_ip) as (w1 & Hrun1 & Haudit1 & _).
  rewrite Hrun1.
  match goal with
  | |- context [map_set (sockets w) ?state (clients this)] =>
      destruct (disconnect_result env
                  (set_clients (map_set (sockets w) state (clients this)) this)
                  w1 (sockets w) state)
        as (w2 & Hrun2 & Haudit2 & _)
  end.
  { cbn [clients set_clients]. rewrite map_get_set, Nat.eqb_refl. reflexivity. }
  rewrite Hrun2. eexists _, _, _, _. split; [reflexivity |].
  cbn [clients set_clients]. split.
  - rewrite (map_set_fresh _ _ _ Hfresh). unfold map_delete.
    rewrite filter_app. cbn [filter fst]. rewrite Nat.eqb_refl. cbn [negb].
    rewrite app_nil_r. apply (map_delete_absent _ _ Hfresh).
  - rewrite Haudit2, Haudit1, <- app_assoc. cbn [app].
    split; [reflexivity |]. repeat split.
    unfold substring. rewrite length_firstn. lia.
Qed.

Lemma connection_round_trip_witness :
  exists this' w' opened closed,
    run Sample.env [Connect None; Disconnect 2%nat]
      (Sample.running_server, Sample.running_world)
    = (this', w')
    /\ clients this' = clients Sample.running_server
    /\ audit_log w' = audit_log Sample.running_world ++ [opened; closed]
    /\ action opened = lit "connect"
    /\ action closed = lit "disconnect"
    /\ clientId closed = clientId opened
    /\ clientId opened = lit "k3x9q2m7@unknown"
    /\ (List.length (substring (random36 Sample.env (draws Sample.running_world)) 2 10)
        <= 8)%nat.
Proof.
  apply (connection_round_trip Sample.env Sample.running_server
           Sample.running_world None).
  intros ws c H. cbn in H.
  destruct ws as [| [| ws]]; cbn in H; [cbn; lia | cbn; lia | discriminate H].
Defined.

End RegistryFurther.


(** ** Sockets that throw *)

Section SocketFailures.

Import Server Facts.

Lemma blind_plain {A} (m : M A) :
  (forall f env, m (with_sock_throws f env) = m env) -> blind m.
Proof. intros H f env w. rewrite H. reflexivity. Qed.

Lemma blind_bind {A B} (m : M A) (k : A -> M B) :
  blind m -> (forall a, blind (k a)) -> blind (bind m k).
Proof.
  intros Hm Hk f env w. unfold bind. rewrite Hm.
  destruct (m env w) as [[a | e] w1]; [apply Hk | reflexivity].
Qed.

Lemma blind_ret {A} (a : A) : blind (ret a).
Proof. intros f env w. reflexivity. Qed.

Lemma blind_throw {A} (e : Error) : blind (@throw A e).
Proof. intros f env w. reflexivity. Qed.

Lemma blind_emit (e : Event) : blind (emit e).
Proof. intros f env w. reflexivity. Qed.

Lemma blind_now : blind now.
Proof. intros f env w. reflexivity. Qed.

Lemma blind_random_base36 : blind random_base36.
Proof. intros f env w. reflexivity. Qed.

Lemma blind_get_pid : blind get_pid.
Proof. intros f env w. reflexivity. Qed.

Lemma blind_prop (v : Json.value) (key : jsstring) : blind (prop v key).
Proof. intros f env w. unfold prop. destruct (Json.get v key); reflexivity. Qed.

Lemma blind_loadRemoteConfig : blind Token.loadRemoteConfig.
Proof. intros f env w. reflexivity. Qed.

Lemma blind_log clientId action details success error :
  blind (Audit.log clientId action details success error).
Proof. intros f env w. reflexivity. Qed.

Lemma blind_Bun_serve (p : Z) (h : jsstring) : blind (Bun_serve p h).
Proof. intros f env w. reflexivity. Qed.

Lemma blind_template (prefix : jsstring) (v : Json.value) :
  blind (template prefix v).
Proof. intros f env w. reflexivity. Qed.

(** The two places where a socket is called catch what it throws. *)
Lemma blind_send (ws : Ws) (m : WSMessage) : blind (send ws m).
Proof. intros f env w. rewrite !send_written. reflexivity. Qed.

Lemma blind_try_close (ws : Ws) : blind (try_catch (ws_close ws) (ret tt)).
Proof. intros f env w. rewrite !try_close_run. reflexivity. Qed.

#[local] Hint Resolve blind_ret blind_throw blind_emit blind_now
  blind_random_base36 blind_get_pid blind_prop blind_loadRemoteConfig blind_log
  blind_Bun_serve blind_send blind_try_close blind_template : core.

Ltac blind_shape :=
  repeat first
    [ progress intros
    | progress cbv zeta
    | solve [auto]
    | apply blind_bind
    | match goal with
      | |- blind (match ?x with _ => _ end) => destruct x
      | |- blind (let (_, _) := ?x in _) => destruct x
      end ].

Lemma blind_await {A} (m : M A) : blind m -> blind (await m).
Proof. intros H. unfold await. blind_shape. Qed.

Lemma blind_createMessage (data : Payload) : blind (createMessage data).
Proof. unfold createMessage, generateMessageId. blind_shape. Qed.

Lemma blind_notify (given : bool) (cb : Callback) : blind (notify given cb).
Proof. unfold notify. blind_shape. Qed.

#[local] Hint Resolve blind_await blind_createMessage blind_notify : core.

Lemma blind_validateToken (v : Json.value) : blind (Token.validateToken v).
Proof. unfold Token.validateToken. blind_shape. Qed.

#[local] Hint Resolve blind_validateToken : core.

Lemma blind_handleAuth this ws c message : blind (handleAuth this ws c message).
Proof. unfold handleAuth, Audit.logAuth. blind_shape. Qed.

#[local] Hint Resolve blind_handleAuth : core.

Lemma blind_handleMessage this ws c raw : blind (handleMessage this ws c raw).
Proof.
  unfold handleMessage, sendError, sendPong, sendStatus, Audit.logFailure.
  blind_shape.
Qed.

Lemma blind_ws_message this ws raw : blind (ws_message this ws raw).
Proof.
  unfold ws_message. destruct (map_get ws (clients this));
    auto using blind_handleMessage.
Qed.

Lemma blind_ws_open this ws data_ip : blind (ws_open this ws data_ip).
Proof. unfold ws_open, generateClientId, Audit.logConnection. blind_shape. Qed.

Lemma blind_ws_close_handler this ws : blind (ws_close_handler this ws).
Proof. unfold ws_close_handler, Audit.logConnection. blind_shape. Qed.

Lemma blind_close_all (m : list (Ws * ClientState)) : blind (close_all m).
Proof. induction m as [| [ws c] rest IH]; cbn [close_all]; blind_shape. Qed.

#[local] Hint Resolve blind_close_all : core.

Lemma blind_start this : blind (start this).
Proof. unfold start, Audit.logServerEvent. blind_shape. Qed.

Lemma blind_stop this : blind (stop this).
Proof. unfold stop, Audit.logServerEvent. blind_shape. Qed.

End SocketFailures.



(** ** Handlers that take turns *)

Section EventLoop.

Import Server.

(** Induction on a task: a task that waits holds the tasks it can go on
    to. *)
Lemma Task_induction {A : Type} (P : Turns.Task A -> Prop) :
  (forall r, P (Turns.Settled r)) ->
  (forall resume,
      (forall env s, P (fst (resume env s))) -> P (Turns.Waiting resume)) ->
  forall t, P t.
Proof.
  intros Hsettled Hwaiting. fix IH 1. intros [r | resume].
  - apply Hsettled.
  - apply Hwaiting. intros env s.
    destruct (resume env s) as [t' s']. cbn [fst]. apply IH.
Qed.

(** *** Handlers that nothing interrupts *)

(** Run to its end with nothing in between, an async function is the
    computation that [Server] and [Token] have for it. *)
Lemma finish_after {A B : Type} (k : A -> Turns.Async B) (t : Turns.Task A) :
  forall env s,
    (let (t2, s2) := Turns.after t k env s in Turns.finish t2 env s2)
    = match Turns.finish t env s with
      | (Ret a, s') => Turns.uninterrupted (k a) env s'
      | (Throw e, s') => (Throw e, s')
      end.
Proof.
  induction t as [[a | e] | resume IH] using Task_induction; intros env s.
  - reflexivity.
  - reflexivity.
  - cbn [Turns.after Turns.finish].
    specialize (IH env s). destruct (resume env s) as [t' s'].
    cbn [fst] in IH. apply IH.
Qed.

Lemma uninterrupted_bind {A B : Type} (m : Turns.Async A) (k : A -> Turns.Async B)
      (env : Oracle) (s : Turns.State) :
  Turns.uninterrupted (Turns.bind m k) env s
  = match Turns.uninterrupted m env s with
    | (Ret a, s') => Turns.uninterrupted (k a) env s'
    | (Throw e, s') => (Throw e, s')
    end.
Proof.
  unfold Turns.uninterrupted at 1 2, Turns.bind.
  destruct (m env s) as [t s1]. apply finish_after.
Qed.

Lemma uninterrupted_sync {A : Type} (m : M A) (env : Oracle)
      (this : RemoteServer) (w : World) :
  Turns.uninterrupted (Turns.sync m) env (this, w)
  = (fst (m env w), (this, snd (m env w))).
Proof.
  unfold Turns.uninterrupted, Turns.sync. cbn [fst snd].
  destruct (m env w); reflexivity.
Qed.

Lemma uninterrupted_await {A : Type} (m : Turns.Async A) (env : Oracle)
      (s : Turns.State) :
  Turns.uninterrupted (Turns.await m) env s
  = match Turns.uninterrupted m env s with
    | (Ret a, s') => (Ret a, (fst s', add_event Await (snd s')))
    | (Throw e, s') => (Throw e, s')
    end.
Proof.
  unfold Turns.await. rewrite uninterrupted_bind.
  destruct (Turns.uninterrupted m env s) as [[a | e] [this w]]; reflexivity.
Qed.

Lemma uninterrupted_loadRemoteConfig (env : Oracle) (this : RemoteServer)
      (w : World) :
  Turns.uninterrupted Turns.loadRemoteConfig env (this, w)
  = (Ret (disk w), (this, w)).
Proof. reflexivity. Qed.

Lemma uninterrupted_validateToken (v : Json.value) (env : Oracle)
      (this : RemoteServer) (w : World) :
  Turns.uninterrupted (Turns.validateToken v) env (this, w)
  = (fst (Token.validateToken v env w), (this, snd (Token.validateToken v env w))).
Proof.
  unfold Turns.validateToken. rewrite uninterrupted_bind, uninterrupted_await.
  rewrite uninterrupted_loadRemoteConfig. cbn [fst snd].
  unfold Token.validateToken, Sys.await, Sys.bind, Token.loadRemoteConfig,
    emit, Sys.ret.
  destruct (Token.truthy_token (disk w)); [| reflexivity].
  destruct v; reflexivity.
Qed.

Lemma uninterrupted_handleAuth (ws : Ws) (c : ClientState) (message : Json.value)
      (env : Oracle) (this : RemoteServer) (w : World) :
  Turns.uninterrupted (Turns.handleAuth ws c message) env (this, w)
  = Turns.outcome this (Server.handleAuth this ws c message env w).
Proof.
  unfold Turns.handleAuth, Server.handleAuth.
  rewrite uninterrupted_bind, uninterrupted_sync.
  unfold prop. unfold Sys.bind at 1.
  destruct (Json.get message (lit "token")) as [tok |]; cbn [Sys.ret Sys.throw fst snd];
    [| reflexivity].
  rewrite uninterrupted_bind, uninterrupted_await, uninterrupted_validateToken.
  unfold Sys.await at 1. unfold Sys.bind at 1 2.
  destruct (Token.validateToken tok env w) as [[[|] | e] w1]; cbn [fst snd emit Sys.ret];
    [| | reflexivity].
  - rewrite uninterrupted_bind. cbn [Turns.uninterrupted Turns.assign Turns.finish fst snd].
    rewrite uninterrupted_bind, uninterrupted_sync.
    rewrite createMessage_run. cbn [fst snd].
    rewrite uninterrupted_bind, uninterrupted_sync, send_run. cbn [fst snd].
    rewrite uninterrupted_await, uninterrupted_sync.
    unfold Audit.logAuth. rewrite log_run. cbn [fst snd].
    cbv [Sys.bind emit Sys.ret Sys.await].
    rewrite createMessage_run, send_run, log_run. reflexivity.
  - rewrite uninterrupted_bind, uninterrupted_sync.
    rewrite createMessage_run. cbn [fst snd].
    rewrite uninterrupted_bind, uninterrupted_sync, send_run. cbn [fst snd].
    rewrite uninterrupted_await, uninterrupted_sync.
    unfold Audit.logAuth. rewrite log_run. cbn [fst snd].
    cbv [Sys.bind emit Sys.ret Sys.await].
    rewrite createMessage_run, send_run, log_run. reflexivity.
Qed.

Ltac agree_step :=
  match goal with
  | |- context [fst (?m ?env ?w)] =>
      let r := fresh "r" in let w' := fresh "w" in
      destruct (m env w) as [[r | r] w']; cbn [fst snd Turns.outcome]
  end.

Ltac agree :=
  unfold Sys.await, Sys.bind, emit, Sys.ret, Sys.throw;
  repeat first
    [ rewrite uninterrupted_bind
    | rewrite uninterrupted_sync
    | rewrite uninterrupted_await
    | progress cbn [fst snd Turns.outcome Turns.uninterrupted Turns.ret Turns.throw
                      Turns.self Turns.assign Turns.finish]
    | agree_step ];
  repeat match goal with r : unit |- _ => destruct r end;
  try reflexivity.

Lemma uninterrupted_handleMessage (ws : Ws) (c : ClientState) (raw : jsstring)
      (env : Oracle) (this : RemoteServer) (w : World) :
  Turns.uninterrupted (Turns.handleMessage ws c raw) env (this, w)
  = Turns.outcome this (Server.handleMessage this ws c raw env w).
Proof.
  unfold Turns.handleMessage, Server.handleMessage.
  destruct (Json.parse raw) as [message |].
  - rewrite uninterrupted_bind, uninterrupted_sync.
    unfold prop. unfold Sys.bind at 1.
    destruct (Json.get message (lit "type")) as [type |];
      cbn [Sys.ret Sys.throw fst snd]; [| reflexivity].
    destruct (Json.is_string type (lit "auth")).
    + rewrite uninterrupted_await, uninterrupted_handleAuth.
      unfold Sys.await, Sys.bind, emit, Sys.ret.
      destruct (handleAuth this ws c message env w) as [[this' | e] w'];
        reflexivity.
    + destruct (Json.is_string type (lit "ping")).
      * destruct (Json.get message (lit "id")) as [requestId |]; agree.
      * destruct (negb (authenticated c)); [agree |].
        destruct (Json.is_string type (lit "status")); agree.
  - agree.
Qed.

Lemma uninterrupted_ws_message (ws : Ws) (raw : jsstring)
      (env : Oracle) (this : RemoteServer) (w : World) :
  Turns.uninterrupted (Turns.ws_message ws raw) env (this, w)
  = Turns.outcome this (Server.ws_message this ws raw env w).
Proof.
  unfold Turns.ws_message, Server.ws_message.
  rewrite uninterrupted_bind. cbn [Turns.uninterrupted Turns.self Turns.finish fst].
  destruct (map_get ws (clients this)) as [c |].
  - apply uninterrupted_handleMessage.
  - reflexivity.
Qed.

Lemma uninterrupted_start (env : Oracle) (this : RemoteServer) (w : World) :
  Turns.uninterrupted Turns.start env (this, w)
  = match Server.start this env w with
    | (Ret (state, this'), w') => (Ret state, (this', w'))
    | (Throw e, w') => (Throw e, (this, w'))
    end.
Proof.
  unfold Turns.start, Server.start.
  rewrite uninterrupted_bind. cbn [Turns.uninterrupted Turns.self Turns.finish fst].
  destruct (server this); [reflexivity |].
  rewrite uninterrupted_bind, uninterrupted_sync. unfold Sys.bind at 1.
  destruct (Bun_serve (opt_port (options this))
              (bind_host (hasToken (options this))) env w) as [[srv | e] w1];
    cbn [fst snd]; [| reflexivity].
  unfold Audit.logServerEvent.
  cbv [Sys.bind Sys.await emit Sys.ret now get_pid]. rewrite log_run.
  repeat first
    [ rewrite uninterrupted_bind
    | rewrite uninterrupted_sync
    | rewrite uninterrupted_await
    | rewrite log_run
    | progress cbn [fst snd Turns.uninterrupted Turns.ret Turns.assign
                      Turns.finish now get_pid emit options set_server
                      set_startedAt] ].
  unfold notify. destruct (onStart (options this)); reflexivity.
Qed.

Lemma uninterrupted_stop (env : Oracle) (this : RemoteServer) (w : World) :
  Turns.uninterrupted Turns.stop env (this, w)
  = Turns.outcome this (Server.stop this env w).
Proof.
  unfold Turns.stop, Server.stop.
  rewrite uninterrupted_bind. cbn [Turns.uninterrupted Turns.self Turns.finish fst].
  destruct (server this); [| reflexivity].
  rewrite uninterrupted_bind, uninterrupted_sync. unfold Sys.bind at 1.
  destruct (close_all (clients this) env w) as [[[] | e] w1];
    cbn [fst snd Turns.outcome]; [| reflexivity].
  unfold Audit.logServerEvent.
  cbv [Sys.bind Sys.await emit Sys.ret]. rewrite log_run.
  repeat first
    [ rewrite uninterrupted_bind
    | rewrite uninterrupted_sync
    | rewrite uninterrupted_await
    | rewrite log_run
    | progress cbn [fst snd Turns.uninterrupted Turns.ret Turns.assign
                      Turns.finish emit Turns.outcome options set_server
                      set_clients] ].
  unfold notify. destruct (onStop (options this)); reflexivity.
Qed.

(** Whatever the action, the handler that nothing interrupts does what
    [Server.step] does. *)
Lemma uninterrupted_call (env : Oracle) (a : Action) (st : RemoteServer * World) :
  snd (Turns.uninterrupted (Turns.call a) env st) = step env a st.
Proof.
  destruct st as [this w]. destruct a as [| | data_ip | ws raw | ws];
    cbn [Turns.call step].
  - rewrite uninterrupted_bind, uninterrupted_start. unfold settle, Sys.bind.
    destruct (Server.start this env w) as [[[state this'] | e] w']; reflexivity.
  - rewrite uninterrupted_stop. unfold settle.
    destruct (Server.stop this env w) as [[this' | e] w']; reflexivity.
  - unfold Turns.uninterrupted, Turns.method, settle. cbn [fst snd].
    destruct (ws_open this (sockets w) data_ip env (next_socket w))
      as [[this' | e] w']; reflexivity.
  - rewrite uninterrupted_ws_message. unfold settle.
    destruct (Server.ws_message this ws raw env w) as [[this' | e] w'];
      reflexivity.
  - unfold Turns.uninterrupted, Turns.method, settle. cbn [fst snd].
    destruct (ws_close_handler this ws env w) as [[this' | e] w']; reflexivity.
Qed.

End EventLoop.

(** *** Handlers that run one after the other *)

Section OneAfterTheOther.

Import Server.

(** A call that nothing interrupts: the turns in which it goes on follow
    the one in which it started. *)
Lemma drained (env : Oracle) (a : Action) (t : Turns.Task unit) :
  forall s,
  exists turns,
    Turns.play env turns (Turns.after_turn a (t, s) [])
    = {| Turns.this_server := fst (snd (Turns.finish t env s));
         Turns.world := snd (snd (Turns.finish t env s));
         Turns.waiting := [] |}.
Proof.
  induction t as [r | resume IH] using Task_induction; intros s.
  - exists []. reflexivity.
  - specialize (IH env s). cbn [Turns.finish].
    destruct (resume env s) as [t' s'] eqn:E. cbn [fst] in IH.
    destruct (IH s') as (turns & Hplay).
    exists (Turns.Resume 0 :: turns).
    cbn [Turns.play Turns.after_turn Turns.turn Turns.waiting nth_error
           firstn skipn app].
    unfold Turns.state. cbn [Turns.this_server Turns.world].
    destruct s as [this w]. cbn [fst snd]. rewrite E. exact Hplay.
Qed.

(** The handlers run one after the other, as [Server.run] has them, are
    one of the plays. *)
Lemma run_is_a_play (env : Oracle) (actions : list Action) :
  forall this w,
  exists turns,
    Turns.play env turns
      {| Turns.this_server := this; Turns.world := w; Turns.waiting := [] |}
    = {| Turns.this_server := fst (run env actions (this, w));
         Turns.world := snd (run env actions (this, w));
         Turns.waiting := [] |}.
Proof.
  induction actions as [| a rest IH]; intros this w.
  - exists []. reflexivity.
  - cbn [run]. rewrite <- (uninterrupted_call env a (this, w)).
    unfold Turns.uninterrupted.
    destruct (Turns.call a env (this, w)) as [t s] eqn:E.
    destruct (drained env a t s) as (turns1 & H1).
    destruct (Turns.finish t env s) as [r [this' w']]. cbn [fst snd] in *.
    destruct (IH this' w') as (turns2 & H2).
    exists (Turns.Arrive a :: turns1 ++ turns2).
    cbn [Turns.play Turns.turn]. unfold Turns.state.
    cbn [Turns.this_server Turns.world Turns.waiting]. rewrite E.
    assert (Happ : forall l1 l2 p,
               Turns.play env (l1 ++ l2) p
               = Turns.play env l2 (Turns.play env l1 p)).
    { induction l1 as [| x l1 IHl]; intros l2 p; cbn [app Turns.play];
        [reflexivity | apply IHl]. }
    rewrite Happ, H1. exact H2.
Qed.

End OneAfterTheOther.

(** *** The pieces of a handler *)

Section Pieces.

Import Server Guarantees.

Variable seen : option RemoteConfig -> Prop.
Variable o : RemoteServerOptions.
Variable a : Action.

Lemma piece_refl (s : Turns.State) : piece seen a s s.
Proof.
  split; [reflexivity |]. split; [reflexivity |]. split; [reflexivity |].
  split; [auto |]. intros ws. split; [auto |]. split; congruence.
Qed.

Lemma piece_trans (s1 s2 s3 : Turns.State) :
  piece seen a s1 s2 -> piece seen a s2 s3 -> piece seen a s1 s3.
Proof.
  intros (Hd1 & Hs1 & Ho1 & Hc1 & Hf1) (Hd2 & Hs2 & Ho2 & Hc2 & Hf2).
  split; [congruence |]. split; [congruence |]. split; [congruence |].
  split; [auto |]. intros ws.
  destruct (Hf1 ws) as (Hn1 & Ht1 & Hr1). destruct (Hf2 ws) as (Hn2 & Ht2 & Hr2).
  split; [auto |]. split.
  - intros E. specialize (Ht1 E).
    destruct (session_flag s2 ws) as [[|] |]; [auto | congruence |].
    rewrite Hn2; [discriminate | reflexivity].
  - intros E1 E3.
    destruct (session_flag s2 ws) as [[|] |] eqn:E2; [auto | auto |].
    rewrite Hn2 in E3; [discriminate | reflexivity].
Qed.

Lemma rest_piece (s s' : Turns.State) :
  at_rest seen o s -> piece seen a s s' -> at_rest seen o s'.
Proof.
  intros (Hd & Ho & Hk & Hc) (Hd' & Hs' & Ho' & Hc' & Hf).
  split; [congruence |]. split; [congruence |]. split; [| auto].
  intros ws c E. rewrite Hs'.
  destruct (map_get ws (clients (fst s))) as [c0 |] eqn:E0.
  - exact (Hk ws c0 E0).
  - destruct (Hf ws) as (Hn & _). unfold session_flag in Hn.
    rewrite E0, E in Hn. discriminate Hn. reflexivity.
Qed.

(** Code that leaves the fields of the server, the file and the sockets
    alone. *)
Lemma piece_world (s : Turns.State) (w' : World) :
  disk w' = disk (snd s) -> sockets w' = sockets (snd s) ->
  piece seen a s (fst s, w').
Proof.
  intros Hd Hs.
  split; [exact Hd |]. split; [exact Hs |]. split; [reflexivity |].
  split; [auto |]. intros ws. unfold session_flag. cbn [fst].
  split; [auto |]. split; congruence.
Qed.

(** *** The rules *)

Lemma honours_ret {A} (Q : A -> Prop) (x : A) :
  Q x -> honours (at_rest seen o) (piece seen a) Q (Turns.ret x).
Proof. intros H env s _. cbn. split; [apply piece_refl | exact H]. Qed.

Lemma honours_throw {A} (Q : A -> Prop) (e : Error) :
  honours (at_rest seen o) (piece seen a) Q (Turns.throw e).
Proof. intros env s _. cbn. split; [apply piece_refl | exact I]. Qed.

Lemma honours_after {A B} (P : A -> Prop) (Q : B -> Prop)
      (k : A -> Turns.Async B) :
  (forall x, P x -> honours (at_rest seen o) (piece seen a) Q (k x)) ->
  forall t,
    abides (at_rest seen o) (piece seen a) P t ->
    honours (at_rest seen o) (piece seen a) Q (Turns.after t k).
Proof.
  intros Hk.
  induction t as [[x | e] | resume IH] using Task_induction; intros Ht.
  - apply Hk. exact Ht.
  - apply honours_throw.
  - intros env s Hs. cbn [Turns.after]. split; [apply piece_refl |].
    cbn [abides]. intros env' s1 Hs1.
    specialize (Ht env' s1 Hs1). specialize (IH env' s1).
    destruct (resume env' s1) as [t' s2]. cbn [fst] in IH.
    destruct Ht as [HR Ht'].
    specialize (IH Ht' env' s2 (rest_piece _ _ Hs1 HR)).
    destruct (Turns.after t' k env' s2) as [t3 s3].
    destruct IH as [HR' Ht3]. split; [| exact Ht3].
    exact (piece_trans _ _ _ HR HR').
Qed.

Lemma honours_bind {A B} (P : A -> Prop) (Q : B -> Prop)
      (m : Turns.Async A) (k : A -> Turns.Async B) :
  honours (at_rest seen o) (piece seen a) P m ->
  (forall x, P x -> honours (at_rest seen o) (piece seen a) Q (k x)) ->
  honours (at_rest seen o) (piece seen a) Q (Turns.bind m k).
Proof.
  intros Hm Hk env s Hs. unfold Turns.bind.
  specialize (Hm env s Hs). destruct (m env s) as [t s1].
  destruct Hm as [HR Ht].
  pose proof (honours_after P Q k Hk t Ht env s1 (rest_piece _ _ Hs HR)) as H.
  destruct (Turns.after t k env s1) as [t2 s2]. destruct H as [HR' Ht2].
  split; [exact (piece_trans _ _ _ HR HR') | exact Ht2].
Qed.

Lemma abides_weaken {A} (P Q : A -> Prop) :
  (forall x, P x -> Q x) ->
  forall t,
    abides (at_rest seen o) (piece seen a) P t -> abides (at_rest seen o) (piece seen a) Q t.
Proof.
  intros HPQ.
  induction t as [[x | e] | resume IH] using Task_induction; intros Ht.
  - apply HPQ. exact Ht.
  - exact I.
  - cbn [abides] in *. intros env s Hs. specialize (Ht env s Hs).
    specialize (IH env s). destruct (resume env s) as [t' s'].
    destruct Ht as [HR Ht']. split; [exact HR | exact (IH Ht')].
Qed.

Lemma honours_weaken {A} (P Q : A -> Prop) (m : Turns.Async A) :
  (forall x, P x -> Q x) ->
  honours (at_rest seen o) (piece seen a) P m -> honours (at_rest seen o) (piece seen a) Q m.
Proof.
  intros HPQ Hm env s Hs. specialize (Hm env s Hs).
  destruct (m env s) as [t s']. destruct Hm as [HR Ht].
  split; [exact HR | exact (abides_weaken P Q HPQ t Ht)].
Qed.

(** Code that does not suspend and changes neither the file nor the
    sockets. *)
Lemma honours_sync {A} (Q : A -> Prop) (m : M A) :
  Facts.preserves disk m -> Facts.preserves sockets m ->
  (forall env w x, seen (disk w) -> fst (m env w) = Ret x -> Q x) ->
  honours (at_rest seen o) (piece seen a) Q (Turns.sync m).
Proof.
  intros Hd Hs HQ env s Hrest. unfold Turns.sync.
  specialize (Hd env (snd s)). specialize (Hs env (snd s)).
  specialize (HQ env (snd s)).
  destruct (m env (snd s)) as [[x | e] w']; cbn [fst snd abides] in *.
  - split; [apply piece_world; assumption |].
    apply HQ; [apply Hrest | reflexivity].
  - split; [apply piece_world; assumption | exact I].
Qed.

Lemma honours_self (Q : RemoteServer -> Prop) :
  (forall this, options this = o -> Q this) ->
  honours (at_rest seen o) (piece seen a) Q Turns.self.
Proof.
  intros HQ env s Hrest. cbn. split; [apply piece_refl |].
  apply HQ. apply Hrest.
Qed.

Lemma honours_assign (Q : unit -> Prop) (f : RemoteServer -> RemoteServer) :
  (forall s, at_rest seen o s -> piece seen a s (f (fst s), snd s)) -> Q tt ->
  honours (at_rest seen o) (piece seen a) Q (Turns.assign f).
Proof. intros Hf HQ env s Hrest. cbn. split; [apply Hf; exact Hrest | exact HQ]. Qed.

Lemma honours_pause (Q : unit -> Prop) :
  Q tt -> honours (at_rest seen o) (piece seen a) Q Turns.pause.
Proof.
  intros HQ env s Hrest. cbn. split; [apply piece_refl |].
  intros _ s1 _. split; [apply piece_refl | exact HQ].
Qed.

Lemma pres_disk_emit (e : Event) : Facts.preserves disk (emit e).
Proof. intros env w. reflexivity. Qed.

Lemma pres_sockets_emit (e : Event) : Facts.preserves sockets (emit e).
Proof. intros env w. reflexivity. Qed.

Lemma honours_await {A} (Q : A -> Prop) (m : Turns.Async A) :
  honours (at_rest seen o) (piece seen a) Q m ->
  honours (at_rest seen o) (piece seen a) Q (Turns.await m).
Proof.
  intros Hm. unfold Turns.await.
  apply (honours_bind Q Q); [exact Hm |]. intros x Hx.
  apply (honours_bind (fun _ => True) Q).
  { apply honours_sync;
      [apply pres_disk_emit | apply pres_sockets_emit | trivial]. }
  intros _ _. apply (honours_bind (fun _ => True) Q).
  { apply honours_pause. exact I. }
  intros _ _. apply honours_ret. exact Hx.
Qed.

End Pieces.

(** *** The handlers, piece by piece *)

Section Handlers.

Import Server Guarantees.

Variable seen : option RemoteConfig -> Prop.
Variable o : RemoteServerOptions.
Variable a : Action.

(** Solves [Facts.preserves disk m] and [Facts.preserves sockets m] for
    the computations of the handlers. *)
Ltac still_by lemma := apply lemma; intros; reflexivity.

Ltac still :=
  unfold sendError, sendPong, sendStatus, Audit.logAuth, Audit.logFailure,
    Audit.logServerEvent, Audit.logConnection;
  repeat first
    [ progress intros
    | progress cbv zeta
    | apply pres_ret
    | apply pres_prop
    | apply pres_get_pid
    | apply pres_loadRemoteConfig
    | apply pres_template
    | still_by pres_emit
    | still_by pres_now
    | still_by pres_send
    | still_by pres_createMessage
    | still_by pres_log
    | still_by pres_notify
    | still_by pres_close_all
    | still_by pres_Bun_serve
    | apply pres_bind
    | match goal with
      | |- Facts.preserves _ (match ?x with _ => _ end) => destruct x
      end ].

(** Follows the shape of the code of a handler. *)
Ltac honour :=
  repeat first
    [ progress intros
    | apply honours_throw
    | apply honours_ret; exact I
    | apply honours_pause; exact I
    | apply honours_await
    | apply honours_self; intros; exact I
    | apply honours_sync; [solve [still] | solve [still] | intros; exact I]
    | apply (honours_bind seen o a (fun _ => True)) ].

Lemma honours_loadRemoteConfig :
  honours (at_rest seen o) (piece seen a) (fun config => seen config)
    Turns.loadRemoteConfig.
Proof.
  unfold Turns.loadRemoteConfig.
  apply (honours_bind seen o a (fun _ => True)); [honour |]. intros _ _.
  apply (honours_bind seen o a (fun _ => True)); [honour |]. intros _ _.
  apply honours_sync; [still | still |].
  intros env w x Hd H. cbn in H. injection H as <-. exact Hd.
Qed.

Lemma honours_validateToken (tok : Json.value) :
  honours (at_rest seen o) (piece seen a)
    (fun isValid => isValid = true -> exists d, seen d /\ accepted d tok)
    (Turns.validateToken tok).
Proof.
  unfold Turns.validateToken.
  apply (honours_bind seen o a (fun config => seen config)).
  { apply honours_await, honours_loadRemoteConfig. }
  intros config Hseen.
  destruct (Token.truthy_token config) as [stored |] eqn:E.
  - destruct tok; try apply honours_throw.
    apply honours_ret. intros H. exists config. split; [exact Hseen |].
    eexists stored, _. auto.
  - apply honours_ret. discriminate.
Qed.

(** The assignments of the handlers. *)
Lemma piece_set_authenticated (s : Turns.State) (ws : Ws) :
  may_raise seen a ws -> piece seen a s (set_authenticated ws (fst s), snd s).
Proof.
  intros Hraise. destruct s as [this w]. cbn [fst snd].
  split; [reflexivity |]. split; [reflexivity |].
  assert (Hfields : options (set_authenticated ws this) = options this
                    /\ (Facts.coherent this ->
                        Facts.coherent (set_authenticated ws this))).
  { unfold set_authenticated. destruct (map_get ws (clients this)); auto. }
  split; [apply Hfields |]. split; [apply Hfields |].
  intros k. rewrite (flag_set_authenticated this w w ws k).
  destruct (Nat.eqb_spec k ws) as [-> | Hne].
  - destruct (session_flag (this, w) ws) as [[|] |]; cbn [option_map];
      (split; [auto; discriminate |]); split; try discriminate; auto.
  - split; [auto |]. split; congruence.
Qed.

Lemma piece_set_clients_nil (s : Turns.State) :
  piece seen a s (set_clients [] (fst s), snd s).
Proof.
  split; [reflexivity |]. split; [reflexivity |]. split; [reflexivity |].
  split; [auto |]. intros ws. unfold session_flag. cbn.
  split; [auto |]. split; discriminate.
Qed.

Lemma piece_set_server_None (s : Turns.State) :
  piece seen a s (set_server None (fst s), snd s).
Proof.
  split; [reflexivity |]. split; [reflexivity |]. split; [reflexivity |].
  split; [intros _; exact I |]. intros ws. unfold session_flag. cbn.
  split; [auto |]. split; congruence.
Qed.

Lemma prop_ret (v : Json.value) (key : jsstring) (env : Oracle) (w : World)
      (x : Json.value) :
  fst (prop v key env w) = Ret x -> Json.get v key = Some x.
Proof.
  unfold prop. destruct (Json.get v key); cbn; congruence.
Qed.

Lemma honours_handleAuth (ws : Ws) (c : ClientState) (rawMessage : jsstring)
      (message : Json.value) :
  a = Frame ws rawMessage ->
  Json.parse rawMessage = Some message ->
  Json.get message (lit "type") = Some (Json.Str (lit "auth")) ->
  honours (at_rest seen o) (piece seen a) (fun _ => True)
    (Turns.handleAuth ws c message).
Proof.
  intros Ha Hparse Htype. unfold Turns.handleAuth. cbv zeta.
  apply (honours_bind seen o a
           (fun tok => Json.get message (lit "token") = Some tok)).
  { apply honours_sync; [still | still |].
    intros env w x _. apply prop_ret. }
  intros tok Htok.
  apply (honours_bind seen o a
           (fun isValid => isValid = true -> exists d, seen d /\ accepted d tok)).
  { apply honours_await, honours_validateToken. }
  intros [|] Hvalid.
  - apply (honours_bind seen o a (fun _ => True)).
    { apply honours_assign; [| exact I]. intros s _.
      apply piece_set_authenticated.
      destruct (Hvalid eq_refl) as (d & Hseen & Hacc).
      exists rawMessage, message, tok, d.
      split; [exact Ha |]. split; [exact Hparse |]. split; [exact Htype |].
      split; [exact Htok |]. split; [exact Hseen | exact Hacc]. }
    honour.
  - honour.
Qed.

Lemma honours_handleMessage (ws : Ws) (c : ClientState) (rawMessage : jsstring) :
  a = Frame ws rawMessage ->
  honours (at_rest seen o) (piece seen a) (fun _ => True)
    (Turns.handleMessage ws c rawMessage).
Proof.
  intros Ha. unfold Turns.handleMessage. cbv zeta.
  destruct (Json.parse rawMessage) as [message |] eqn:Hparse; [| honour].
  apply (honours_bind seen o a
           (fun type => Json.get message (lit "type") = Some type)).
  { apply honours_sync; [still | still |].
    intros env w x _. apply prop_ret. }
  intros type Htype.
  destruct (Json.is_string type (lit "auth")) eqn:Hauth.
  - apply is_string_true in Hauth. subst type.
    apply honours_await. exact (honours_handleAuth ws c rawMessage message Ha Hparse Htype).
  - destruct (Json.is_string type (lit "ping")); [honour |].
    destruct (negb (authenticated c)); [honour |].
    destruct (Json.is_string type (lit "status")); honour.
Qed.

Lemma honours_ws_message (ws : Ws) (rawMessage : jsstring) :
  a = Frame ws rawMessage ->
  honours (at_rest seen o) (piece seen a) (fun _ => True)
    (Turns.ws_message ws rawMessage).
Proof.
  intros Ha. unfold Turns.ws_message.
  apply (honours_bind seen o a (fun _ => True)); [honour |]. intros this _.
  destruct (map_get ws (clients this)) as [c |]; [| honour].
  apply honours_handleMessage. exact Ha.
Qed.

Lemma honours_stop :
  honours (at_rest seen o) (piece seen a) (fun _ => True) Turns.stop.
Proof.
  unfold Turns.stop.
  apply (honours_bind seen o a (fun _ => True)); [honour |]. intros this _.
  destruct (server this); [| honour].
  apply (honours_bind seen o a (fun _ => True)); [honour |]. intros _ _.
  apply (honours_bind seen o a (fun _ => True)).
  { apply honours_assign; [| exact I]. intros s _. apply piece_set_clients_nil. }
  intros _ _.
  apply (honours_bind seen o a (fun _ => True)); [honour |]. intros _ _.
  apply (honours_bind seen o a (fun _ => True)).
  { apply honours_assign; [| exact I]. intros s _. apply piece_set_server_None. }
  honour.
Qed.

(** [start] assigns the socket and the start time in one piece. *)
Lemma honours_assign_twice {X B} (Q : B -> Prop)
      (f : RemoteServer -> RemoteServer) (m : M X)
      (g : X -> RemoteServer -> RemoteServer) (k : X -> Turns.Async B) :
  (forall env w, exists x w', m env w = (Ret x, w')) ->
  (forall env s x,
      at_rest seen o s -> fst (m env (snd s)) = Ret x ->
      piece seen a s (g x (f (fst s)), snd (m env (snd s)))) ->
  (forall x, honours (at_rest seen o) (piece seen a) Q (k x)) ->
  honours (at_rest seen o) (piece seen a) Q
    (Turns.bind (Turns.assign f)
       (fun _ => Turns.bind (Turns.sync m)
                   (fun x => Turns.bind (Turns.assign (g x)) (fun _ => k x)))).
Proof.
  intros Hm Hpiece Hk env s Hs.
  unfold Turns.bind, Turns.assign, Turns.sync.
  cbn [Turns.after fst snd].
  specialize (Hpiece env s). destruct (Hm env (snd s)) as (x & w' & E).
  rewrite E in *. cbn [Turns.after fst snd] in *.
  specialize (Hpiece x Hs eq_refl).
  pose proof (Hk x env _ (rest_piece seen o a _ _ Hs Hpiece)) as H.
  destruct (k x env (g x (f (fst s)), w')) as [t s2]. destruct H as [HR Ht].
  split; [exact (piece_trans seen a _ _ _ Hpiece HR) | exact Ht].
Qed.

Lemma honours_start :
  honours (at_rest seen o) (piece seen a) (fun _ => True) Turns.start.
Proof.
  unfold Turns.start.
  apply (honours_bind seen o a (fun this => options this = o)).
  { apply honours_self. auto. }
  intros this Ho. destruct (server this); [apply honours_throw |]. cbv zeta.
  apply (honours_bind seen o a
           (fun srv => srv = {| listen_port := opt_port o;
                                listen_hostname := bind_host (hasToken o) |})).
  { apply honours_sync; [still | still |].
    intros env w x _. rewrite Ho. unfold Bun_serve, Sys.bind, emit.
    destruct (port_free env); cbn; congruence. }
  intros srv ->.
  apply honours_assign_twice.
  - intros env w. eexists _, _. reflexivity.
  - intros env s x (_ & Hopts & _) _. cbn [now snd].
    split; [reflexivity |]. split; [reflexivity |]. split; [reflexivity |].
    split.
    + intros _. unfold Facts.coherent. cbn. rewrite Hopts.
      split; [reflexivity |]. split; [reflexivity | discriminate].
    + intros ws. unfold session_flag. cbn. split; [auto |]. split; congruence.
  - honour.
Qed.

(** A handler that does not suspend does what [Server.step] does. *)
Lemma method_settle (f : RemoteServer -> M RemoteServer) (env : Oracle)
      (this : RemoteServer) (w : World) :
  exists r,
    Turns.method f env (this, w)
    = (Turns.Settled r, settle this (f this) env w).
Proof.
  unfold Turns.method, settle. cbn [fst snd].
  destruct (f this env w) as [[this' | e] w']; eexists; reflexivity.
Qed.

Lemma piece_disconnect (env : Oracle) (s : Turns.State) (ws : Ws) :
  piece seen a s (step env (Disconnect ws) s).
Proof.
  destruct s as [this w].
  split; [apply step_keeps_disk |].
  split; [apply (step_sockets env (Disconnect ws)) |].
  destruct (step_fields env (Disconnect ws) this w) as [Ho _].
  split; [exact Ho |].
  split; [apply step_coherent |].
  intros k. rewrite disconnect_flag.
  destruct (Nat.eqb k ws); split; auto; split; congruence.
Qed.

Lemma honours_call :
  (forall data_ip, a <> Connect data_ip) ->
  honours (at_rest seen o) (piece seen a) (fun _ => True) (Turns.call a).
Proof.
  intros Ha.
  assert (H : forall b, a = b ->
                honours (at_rest seen o) (piece seen a) (fun _ => True) (Turns.call b)).
  { intros [| | data_ip | ws rawMessage | ws] E; cbn [Turns.call].
    - apply (honours_bind seen o a (fun _ => True)); [apply honours_start | honour].
    - apply honours_stop.
    - destruct (Ha data_ip E).
    - apply honours_ws_message. exact E.
    - intros env [this w] Hs.
      destruct (method_settle (fun this => ws_close_handler this ws) env this w)
        as (r & ->).
      split.
      + exact (piece_disconnect env (this, w) ws).
      + destruct r; exact I. }
  apply H. reflexivity.
Qed.

End Handlers.

(** *** Turns *)

Section Machine.

Import Server Guarantees.

Variable seen : option RemoteConfig -> Prop.
Variable o : RemoteServerOptions.

Lemma Forall_without {X} (P : X -> Prop) (l : list X) :
  Forall P l -> forall i, Forall P (firstn i l ++ skipn (S i) l).
Proof.
  induction 1 as [| x l Hx Hl IH]; intros [| i]; cbn [firstn skipn app].
  - constructor.
  - constructor.
  - exact Hl.
  - constructor; [exact Hx | apply IH].
Qed.

Lemma after_turn_state (a : Action) (t : Turns.Task unit) (s : Turns.State)
      (others : list (Action * Turns.Async unit)) :
  Turns.state (Turns.after_turn a (t, s) others) = s.
Proof. destruct s, t; reflexivity. Qed.

Lemma after_turn_sound (a : Action) (t : Turns.Task unit) (s : Turns.State)
      (others : list (Action * Turns.Async unit)) :
  at_rest seen o s ->
  abides (at_rest seen o) (piece seen a) (fun _ => True) t ->
  Forall (fun call => honours (at_rest seen o) (piece seen (fst call))
                        (fun _ => True) (snd call)) others ->
  sound seen o (Turns.after_turn a (t, s) others).
Proof.
  intros Hs Ht Hothers. split.
  - rewrite after_turn_state. exact Hs.
  - destruct t as [r | resume]; cbn [Turns.after_turn Turns.waiting].
    + exact Hothers.
    + apply Forall_app. split; [exact Hothers |].
      constructor; [exact Ht | constructor].
Qed.

Lemma connect_step (env : Oracle) (p : Turns.Process)
      (data_ip : option jsstring) :
  Turns.state (Turns.turn env (Turns.Arrive (Connect data_ip)) p)
  = step env (Connect data_ip) (Turns.state p)
  /\ Turns.waiting (Turns.turn env (Turns.Arrive (Connect data_ip)) p)
     = Turns.waiting p.
Proof.
  cbn [Turns.turn Turns.call]. unfold Turns.state. cbn [fst snd].
  destruct (method_settle
              (fun this => ws_open this (sockets (Turns.world p)) data_ip) env
              (Turns.this_server p) (next_socket (Turns.world p))) as (r & ->).
  cbn [Turns.after_turn Turns.this_server Turns.world Turns.waiting step].
  destruct (settle (Turns.this_server p)
              (ws_open (Turns.this_server p) (sockets (Turns.world p)) data_ip)
              env (next_socket (Turns.world p))).
  split; reflexivity.
Qed.

Lemma rest_connect (env : Oracle) (s : Turns.State) (data_ip : option jsstring) :
  at_rest seen o s -> at_rest seen o (step env (Connect data_ip) s).
Proof.
  intros (Hd & Ho & Hk & Hc).
  split; [rewrite step_keeps_disk; exact Hd |].
  split.
  - destruct s as [this w].
    destruct (step_fields env (Connect data_ip) this w) as [H _].
    rewrite H. exact Ho.
  - split; [apply step_known; exact Hk | apply step_coherent; exact Hc].
Qed.

Lemma rest_rewrite (s : Turns.State) (config : option RemoteConfig) :
  seen config -> at_rest seen o s -> at_rest seen o (fst s, set_disk config (snd s)).
Proof.
  intros Hseen (_ & Ho & Hk & Hc).
  split; [exact Hseen |]. split; [exact Ho |]. split; [exact Hk | exact Hc].
Qed.

(** What a turn does to a sound process: it leaves it sound, and takes
    its state as a connection does, or as a piece of the handler of the
    action it runs for may, or leaves all but the file, which another
    process has written. *)
Lemma turn_sound (env : Oracle) (t : Turns.Turn) (p : Turns.Process) :
  sound seen o p ->
  (forall config, t = Turns.Rewrite config -> seen config) ->
  sound seen o (Turns.turn env t p)
  /\ ((exists data_ip,
          t = Turns.Arrive (Connect data_ip)
          /\ Turns.state (Turns.turn env t p)
             = step env (Connect data_ip) (Turns.state p))
      \/ (exists a,
             runs_for p t = Some a
             /\ piece seen a (Turns.state p) (Turns.state (Turns.turn env t p)))
      \/ Turns.turn env t p = p
      \/ (exists config,
             t = Turns.Rewrite config
             /\ Turns.state (Turns.turn env t p)
                = (Turns.this_server p, set_disk config (Turns.world p)))).
Proof.
  intros [Hs Hw] Hseen. destruct t as [a | i | config].
  - assert (Hc : (exists data_ip, a = Connect data_ip)
                 \/ (forall data_ip, a <> Connect data_ip)).
    { destruct a; try (right; discriminate). left. eauto. }
    destruct Hc as [[data_ip ->] | Hc].
    + destruct (connect_step env p data_ip) as [Hstate Hwait].
      split; [| left; eauto].
      split.
      * rewrite Hstate. apply rest_connect. exact Hs.
      * rewrite Hwait. exact Hw.
    + pose proof (honours_call seen o a Hc env (Turns.state p) Hs) as H.
      cbn [Turns.turn].
      destruct (Turns.call a env (Turns.state p)) as [t s'].
      destruct H as [HR Ht]. split.
      * apply after_turn_sound;
          [exact (rest_piece seen o a _ _ Hs HR) | exact Ht | exact Hw].
      * right. left. exists a. rewrite after_turn_state. auto.
  - cbn [Turns.turn runs_for].
    destruct (nth_error (Turns.waiting p) i) as [[a resume] |] eqn:E.
    + pose proof (nth_error_In _ _ E) as Hin.
      rewrite Forall_forall in Hw. pose proof (Hw _ Hin env (Turns.state p) Hs) as H.
      cbn [fst snd] in H.
      destruct (resume env (Turns.state p)) as [t s'].
      destruct H as [HR Ht]. split.
      * apply after_turn_sound;
          [exact (rest_piece seen o a _ _ Hs HR) | exact Ht |].
        apply Forall_without. rewrite Forall_forall. exact Hw.
      * right. left. exists a. rewrite after_turn_state. auto.
    + split; [split; assumption | auto].
  - split; [| right; right; right; eauto].
    split; [| exact Hw].
    exact (rest_rewrite (Turns.state p) config (Hseen config eq_refl) Hs).
Qed.

Lemma play_sound (env : Oracle) (turns : list Turns.Turn) :
  forall p,
    sound seen o p ->
    (forall config, In (Turns.Rewrite config) turns -> seen config) ->
    sound seen o (Turns.play env turns p).
Proof.
  induction turns as [| t rest IH]; intros p Hp Hseen; cbn [Turns.play].
  - exact Hp.
  - apply IH.
    + apply turn_sound; [exact Hp |].
      intros config ->. apply Hseen. left. reflexivity.
    + intros config Hin. apply Hseen. right. exact Hin.
Qed.

End Machine.

Section Plays.

Import Server Guarantees.

Lemma boot_sound (seen : option RemoteConfig -> Prop)
      (opts : RemoteServerOptions) (w : World) :
  seen (disk w) -> sound seen opts (Turns.boot opts w).
Proof.
  intros Hseen. split.
  - split; [exact Hseen |]. split; [reflexivity |].
    split; [| exact I]. intros ws c H. discriminate H.
  - constructor.
Qed.

(** A play of a new server ends in a sound process, for the contents the
    file has had along the play. *)
Lemma reached_sound (env : Oracle) (opts : RemoteServerOptions) (w : World)
      (turns : list Turns.Turn) :
  sound (held (disk w) turns) opts (Turns.play env turns (Turns.boot opts w)).
Proof.
  apply play_sound.
  - apply boot_sound. left. reflexivity.
  - intros config Hin. right. exact Hin.
Qed.

Lemma reached_at_rest (env : Oracle) (opts : RemoteServerOptions) (w : World)
      (turns : list Turns.Turn) :
  sound (fun _ => True) opts (Turns.play env turns (Turns.boot opts w)).
Proof.
  apply play_sound; [apply boot_sound; exact I | intros; exact I].
Qed.

(** When the file holds what [validateToken] accepts, it says so. *)
Lemma accepted_validates (tok : Json.value) (env : Oracle) (w : World) :
  accepted (disk w) tok ->
  Token.validateToken tok env w = (Ret true, add_event Await w).
Proof.
  intros (stored & provided & -> & Hstored & Hcmp).
  unfold Token.validateToken, Sys.await, Sys.bind, Token.loadRemoteConfig,
    emit, Sys.ret.
  rewrite Hstored, Hcmp. reflexivity.
Qed.

(** A socket the runtime has created whose session is not
    unauthenticated: no turn makes it so. *)
Lemma turn_never_back (env : Oracle) (o : RemoteServerOptions)
      (t : Turns.Turn) (p : Turns.Process) (ws : Ws) :
  sound (fun _ => True) o p ->
  (ws < sockets (Turns.world p))%nat ->
  session_flag (Turns.state p) ws <> Some false ->
  (ws < sockets (Turns.world (Turns.turn env t p)))%nat
  /\ session_flag (Turns.state (Turns.turn env t p)) ws <> Some false.
Proof.
  intros Hp Hlt Hflag.
  destruct (turn_sound (fun _ => True) o env t p Hp (fun _ _ => I))
    as [_ [(data_ip & -> & Hstate) | [(a & _ & HR) | [-> | (config & -> & Hstate)]]]].
  - change (Turns.world (Turns.turn env (Turns.Arrive (Connect data_ip)) p))
      with (snd (Turns.state (Turns.turn env (Turns.Arrive (Connect data_ip)) p))).
    rewrite Hstate. destruct Hp as [(_ & _ & Hk & _) _].
    destruct (Turns.state p) as [this w] eqn:Es.
    assert (Hw : w = Turns.world p) by (unfold Turns.state in Es; congruence).
    subst w. rewrite step_sockets. split; [lia |].
    destruct (step_flag env (Connect data_ip) this (Turns.world p) ws Hk)
      as [H | [H | [(-> & _) | (_ & H & _)]]].
    + rewrite H. exact Hflag.
    + rewrite H. discriminate.
    + lia.
    + rewrite H. discriminate.
  - destruct HR as (_ & Hsock & _ & _ & Hf).
    split; [unfold Turns.state in Hsock; cbn [snd] in Hsock; lia |].
    destruct (Hf ws) as (Hn & Ht & _).
    destruct (session_flag (Turns.state p) ws) as [[|] |];
      [auto | congruence | rewrite Hn; [discriminate | reflexivity]].
  - auto.
  - split; [exact Hlt |]. rewrite Hstate. exact Hflag.
Qed.

Lemma play_never_back (env : Oracle) (o : RemoteServerOptions)
      (turns : list Turns.Turn) (ws : Ws) :
  forall p,
    sound (fun _ => True) o p ->
    (ws < sockets (Turns.world p))%nat ->
    session_flag (Turns.state p) ws <> Some false ->
    session_flag (Turns.state (Turns.play env turns p)) ws <> Some false.
Proof.
  induction turns as [| t rest IH]; intros p Hp Hlt Hflag; cbn [Turns.play].
  - exact Hflag.
  - destruct (turn_never_back env o t p ws Hp Hlt Hflag) as [Hlt' Hflag'].
    apply IH; [| exact Hlt' | exact Hflag'].
    apply turn_sound; [exact Hp | intros; exact I].
Qed.

(** No turn of the server writes the file. *)
Lemma turn_file (env : Oracle) (o : RemoteServerOptions)
      (t : Turns.Turn) (p : Turns.Process) :
  sound (fun _ => True) o p ->
  disk (Turns.world (Turns.turn env t p))
  = match t with
    | Turns.Rewrite config => config
    | _ => disk (Turns.world p)
    end.
Proof.
  intros Hp.
  change (Turns.world (Turns.turn env t p))
    with (snd (Turns.state (Turns.turn env t p))).
  destruct (turn_sound (fun _ => True) o env t p Hp (fun _ _ => I))
    as [_ [(data_ip & -> & Hstate) | [(a & Hruns & HR) | [Hsame | (config & -> & Hstate)]]]].
  - rewrite Hstate. apply step_keeps_disk.
  - destruct HR as (Hd & _). rewrite Hd.
    destruct t; [reflexivity | reflexivity | discriminate Hruns].
  - destruct t as [a | i | config];
      [rewrite Hsame; reflexivity | rewrite Hsame; reflexivity | reflexivity].
  - rewrite Hstate. reflexivity.
Qed.

Lemma play_file (env : Oracle) (o : RemoteServerOptions)
      (turns : list Turns.Turn) :
  forall p,
    sound (fun _ => True) o p ->
    disk (Turns.world (Turns.play env turns p))
    = file_after turns (disk (Turns.world p)).
Proof.
  induction turns as [| t rest IH]; intros p Hp; cbn [Turns.play].
  - reflexivity.
  - rewrite IH by (apply turn_sound; [exact Hp | intros; exact I]).
    rewrite (turn_file env o t p Hp). unfold file_after. cbn [fold_left].
    destruct t; reflexivity.
Qed.

Lemma file_after_no_rewrite (turns : list Turns.Turn) :
  forall d,
    (forall config, ~ In (Turns.Rewrite config) turns) ->
    file_after turns d = d.
Proof.
  unfold file_after.
  induction turns as [| t rest IH]; intros d Hno; cbn [fold_left].
  - reflexivity.
  - destruct t as [a | i | config].
    + apply IH. intros config Hin. apply (Hno config). right. exact Hin.
    + apply IH. intros config Hin. apply (Hno config). right. exact Hin.
    + destruct (Hno config). left. reflexivity.
Qed.

End Plays.

(** *** Sockets that throw *)

Section BlindTurns.

Import Server Guarantees.

Lemma blind_code_ret {A} (x : A) : blind_code (Turns.ret x).
Proof. intros f env s. split; [reflexivity | exact I]. Qed.

Lemma blind_code_throw {A} (e : Error) : blind_code (@Turns.throw A e).
Proof. intros f env s. split; [reflexivity | exact I]. Qed.

Lemma blind_code_after {A B} (k : A -> Turns.Async B) :
  (forall x, blind_code (k x)) ->
  forall t, blind_task t -> blind_code (Turns.after t k).
Proof.
  intros Hk.
  induction t as [[x | e] | resume IH] using Task_induction; intros Ht.
  - apply Hk.
  - apply blind_code_throw.
  - intros f env s. cbn [Turns.after]. split; [reflexivity |].
    cbn [blind_task]. intros f' env' s1.
    destruct (Ht f' env' s1) as [Heq Ht']. rewrite Heq.
    specialize (IH env' s1). destruct (resume env' s1) as [t' s2].
    cbn [fst] in IH. exact (IH Ht' f' env' s2).
Qed.

Lemma blind_code_bind {A B} (m : Turns.Async A) (k : A -> Turns.Async B) :
  blind_code m -> (forall x, blind_code (k x)) -> blind_code (Turns.bind m k).
Proof.
  intros Hm Hk f env s. unfold Turns.bind.
  destruct (Hm f env s) as [Heq Ht]. rewrite Heq.
  destruct (m env s) as [t s1]. exact (blind_code_after k Hk t Ht f env s1).
Qed.

Lemma blind_code_sync {A} (m : M A) : Facts.blind m -> blind_code (Turns.sync m).
Proof.
  intros Hm f env s. unfold Turns.sync. rewrite Hm.
  destruct (m env (snd s)). split; [reflexivity | exact I].
Qed.

Lemma blind_code_self : blind_code Turns.self.
Proof. intros f env s. split; [reflexivity | exact I]. Qed.

Lemma blind_code_assign (g : RemoteServer -> RemoteServer) :
  blind_code (Turns.assign g).
Proof. intros f env s. split; [reflexivity | exact I]. Qed.

Lemma blind_code_pause : blind_code Turns.pause.
Proof.
  intros f env s. split; [reflexivity |]. cbn.
  intros f' env' s'. split; [reflexivity | exact I].
Qed.

Lemma blind_code_method (g : RemoteServer -> M RemoteServer) :
  (forall this, Facts.blind (g this)) -> blind_code (Turns.method g).
Proof.
  intros Hg f env s. unfold Turns.method. rewrite Hg.
  destruct (g (fst s) env (snd s)) as [[this' | e] w'];
    (split; [reflexivity | exact I]).
Qed.

Lemma blind_code_await {A} (m : Turns.Async A) :
  blind_code m -> blind_code (Turns.await m).
Proof.
  intros Hm. unfold Turns.await.
  apply blind_code_bind; [exact Hm |]. intros x.
  apply blind_code_bind; [apply blind_code_sync, blind_emit |]. intros _.
  apply blind_code_bind; [apply blind_code_pause |]. intros _.
  apply blind_code_ret.
Qed.

(** The computations of the handlers that call a socket, or call none. *)
Ltac deaf :=
  unfold sendError, sendPong, sendStatus, Audit.logAuth, Audit.logFailure,
    Audit.logServerEvent, Audit.logConnection;
  repeat first
    [ progress intros
    | progress cbv zeta
    | apply blind_ret
    | apply blind_prop
    | apply blind_get_pid
    | apply blind_loadRemoteConfig
    | apply blind_template
    | apply blind_emit
    | apply blind_now
    | apply blind_send
    | apply blind_createMessage
    | apply blind_log
    | apply blind_notify
    | apply blind_close_all
    | apply blind_Bun_serve
    | apply blind_bind
    | match goal with
      | |- Facts.blind (match ?x with _ => _ end) => destruct x
      end ].

Ltac deaf_code :=
  repeat first
    [ progress intros
    | progress cbv zeta
    | apply blind_code_ret
    | apply blind_code_throw
    | apply blind_code_pause
    | apply blind_code_self
    | apply blind_code_assign
    | apply blind_code_await
    | apply blind_code_sync; solve [deaf]
    | apply blind_code_bind
    | match goal with
      | |- blind_code (match ?x with _ => _ end) => destruct x
      end ].

Lemma blind_code_validateToken (tok : Json.value) :
  blind_code (Turns.validateToken tok).
Proof. unfold Turns.validateToken, Turns.loadRemoteConfig. deaf_code. Qed.

Lemma blind_code_handleAuth (ws : Ws) (c : ClientState) (message : Json.value) :
  blind_code (Turns.handleAuth ws c message).
Proof.
  unfold Turns.handleAuth. cbv zeta.
  apply blind_code_bind; [deaf_code |]. intros tok.
  apply blind_code_bind; [apply blind_code_await, blind_code_validateToken |].
  deaf_code.
Qed.

Lemma blind_code_handleMessage (ws : Ws) (c : ClientState) (rawMessage : jsstring) :
  blind_code (Turns.handleMessage ws c rawMessage).
Proof.
  unfold Turns.handleMessage. cbv zeta.
  destruct (Json.parse rawMessage) as [message |]; [| deaf_code].
  apply blind_code_bind; [deaf_code |]. intros type.
  destruct (Json.is_string type (lit "auth")).
  - apply blind_code_await, blind_code_handleAuth.
  - deaf_code.
Qed.

Lemma blind_code_call (a : Action) : blind_code (Turns.call a).
Proof.
  destruct a as [| | data_ip | ws rawMessage | ws]; cbn [Turns.call].
  - unfold Turns.start. deaf_code.
  - unfold Turns.stop. deaf_code.
  - intros f env s.
    exact (blind_code_method
             (fun this => ws_open this (sockets (snd s)) data_ip)
             (fun this => blind_ws_open this (sockets (snd s)) data_ip)
             f env (fst s, next_socket (snd s))).
  - unfold Turns.ws_message.
    apply blind_code_bind; [deaf_code |]. intros this.
    destruct (map_get ws (clients this));
      [apply blind_code_handleMessage | deaf_code].
  - apply blind_code_method. intros this. apply blind_ws_close_handler.
Qed.

Lemma turn_blind (f : Ws -> bool) (env : Oracle) (t : Turns.Turn)
      (p : Turns.Process) :
  Forall (fun call => blind_code (snd call)) (Turns.waiting p) ->
  Turns.turn (Facts.with_sock_throws f env) t p = Turns.turn env t p
  /\ Forall (fun call => blind_code (snd call))
       (Turns.waiting (Turns.turn env t p)).
Proof.
  intros Hw.
  assert (Hafter : forall a m others,
             blind_code m ->
             Forall (fun call => blind_code (snd call)) others ->
             Turns.after_turn a (m (Facts.with_sock_throws f env) (Turns.state p))
               others
             = Turns.after_turn a (m env (Turns.state p)) others
             /\ Forall (fun call => blind_code (snd call))
                  (Turns.waiting
                     (Turns.after_turn a (m env (Turns.state p)) others))).
  { intros a m others Hm Hothers.
    destruct (Hm f env (Turns.state p)) as [Heq Ht]. rewrite Heq.
    split; [reflexivity |].
    destruct (m env (Turns.state p)) as [[r | resume] s];
      cbn [Turns.after_turn Turns.waiting]; [exact Hothers |].
    apply Forall_app. split; [exact Hothers |].
    constructor; [| constructor]. cbn [snd]. intros f' env' s'.
    exact (Ht f' env' s'). }
  destruct t as [a | i | config]; cbn [Turns.turn].
  - apply Hafter; [apply blind_code_call | exact Hw].
  - destruct (nth_error (Turns.waiting p) i) as [[a resume] |] eqn:E.
    + apply Hafter.
      * rewrite Forall_forall in Hw. exact (Hw _ (nth_error_In _ _ E)).
      * apply Forall_without. exact Hw.
    + split; [reflexivity | exact Hw].
  - split; [reflexivity | exact Hw].
Qed.

Lemma play_blind (f : Ws -> bool) (env : Oracle) (turns : list Turns.Turn) :
  forall p,
    Forall (fun call => blind_code (snd call)) (Turns.waiting p) ->
    Turns.play (Facts.with_sock_throws f env) turns p = Turns.play env turns p.
Proof.
  induction turns as [| t rest IH]; intros p Hp; cbn [Turns.play].
  - reflexivity.
  - destruct (turn_blind f env t p Hp) as [-> Hp']. apply IH. exact Hp'.
Qed.

End BlindTurns.

(** *** Sessions *)

Section SessionsOfTurns.

Import Server Guarantees.

(** C6.  The flag of a session is false when the connection opens.  A
    handler suspends at each [await] and the handlers of other frames run
    before it goes on, so what follows is about the turns of the event
    loop, along any play of a new server.  A turn takes the flag of a
    session from false to true only if it runs code of the handler of an
    [auth] frame on the socket of the session whose token [validateToken]
    accepts: against what the file held when it was read, which is what it
    held at first or what another process has written to it since; when no
    other process has written the file, the token is one that
    [validateToken] accepts at that very turn.  A flag that is true is
    never false at a later turn, so a flag flips at most once.  The
    handler of an [auth] frame whose token is refused, run to its end with
    nothing in between, answers with [success] false and leaves the server,
    and so the flag, as it was; with other handlers in between none of its
    turns raises the flag, by the second part. *)
Theorem authenticated_flips_once :
  (forall env p data_ip,
      session_flag
        (Turns.state (Turns.turn env (Turns.Arrive (Connect data_ip)) p))
        (sockets (Turns.world p))
      = Some false)
  /\ (forall env opts w turns t ws,
        session_flag (Turns.state (Turns.play env turns (Turns.boot opts w))) ws
        = Some false ->
        session_flag
          (Turns.state (Turns.turn env t (Turns.play env turns (Turns.boot opts w))))
          ws
        = Some true ->
        exists rawMessage message tok config,
          runs_for (Turns.play env turns (Turns.boot opts w)) t
          = Some (Frame ws rawMessage)
          /\ Json.parse rawMessage = Some message
          /\ Json.get message (lit "type") = Some (Json.Str (lit "auth"))
          /\ Json.get message (lit "token") = Some tok
          /\ held (disk w) turns config
          /\ (forall later_env later,
                 disk later = config ->
                 Token.validateToken tok later_env later
                 = (Ret true, add_event Await later))
          /\ ((forall written, ~ In (Turns.Rewrite written) turns) ->
              Token.validateToken tok env
                (Turns.world (Turns.play env turns (Turns.boot opts w)))
              = (Ret true,
                 add_event Await
                   (Turns.world (Turns.play env turns (Turns.boot opts w))))))
  /\ (forall env opts w turns more ws,
        session_flag (Turns.state (Turns.play env turns (Turns.boot opts w))) ws
        = Some true ->
        session_flag
          (Turns.state
             (Turns.play env more (Turns.play env turns (Turns.boot opts w))))
          ws
        <> Some false)
  /\ (forall env this w ws c rawMessage message tok w1,
        map_get ws (clients this) = Some c ->
        Json.parse rawMessage = Some message ->
        Json.get message (lit "type") = Some (Json.Str (lit "auth")) ->
        Json.get message (lit "token") = Some tok ->
        Token.validateToken tok env w = (Ret false, w1) ->
        exists w' response,
          Turns.uninterrupted (Turns.call (Frame ws rawMessage)) env (this, w)
          = (Ret tt, (this, w'))
          /\ In (Send ws response) (trace w')
          /\ msg_payload response = AuthResponse false (Some (lit "Invalid token"))
          /\ session_flag (this, w') ws = Some (authenticated c)).
Proof.
  split; [| split; [| split]].
  - intros env p data_ip.
    destruct (connect_step env p data_ip) as [-> _].
    destruct (connect_clients env (Turns.this_server p) (Turns.world p) data_ip)
      as (state & Hfalse & Hc).
    unfold session_flag, Turns.state. rewrite Hc, map_get_set, Nat.eqb_refl.
    cbn [option_map]. congruence.
  - intros env opts w turns t ws Hbefore Hafter.
    pose proof (reached_sound env opts w turns) as Hp.
    pose proof (play_file env opts turns _ (boot_sound (fun _ => True) opts w I))
      as Hfile.
    cbn [Turns.boot Turns.world] in Hfile.
    set (p := Turns.play env turns (Turns.boot opts w)) in *.
    assert (Hnot : forall written, t <> Turns.Rewrite written).
    { intros written ->. cbn [Turns.turn] in Hafter.
      unfold session_flag, Turns.state in *. cbn [fst Turns.this_server] in *.
      congruence. }
    destruct (turn_sound (held (disk w) turns) opts env t p Hp)
      as [_ [(data_ip & -> & Hstate) | [(a & Hruns & HR) | [Hsame | (written & -> & _)]]]].
    + intros written E. destruct (Hnot written E).
    + exfalso. rewrite Hstate in Hafter.
      destruct Hp as [(_ & _ & Hk & _) _].
      unfold Turns.state in *.
      destruct (step_flag env (Connect data_ip) (Turns.this_server p)
                  (Turns.world p) ws Hk)
        as [H | [H | [(_ & H & _) | (_ & _ & raw & message & tok & w1 & H & _)]]];
        congruence.
    + destruct HR as (_ & _ & _ & _ & Hf).
      destruct (Hf ws) as (_ & _ & Hraise).
      destruct (Hraise Hbefore Hafter)
        as (rawMessage & message & tok & config & -> & Hparse & Htype & Htok
            & Hheld & Hacc).
      exists rawMessage, message, tok, config.
      repeat (split; [assumption |]). split.
      * intros later_env later Hd. apply accepted_validates.
        rewrite Hd. exact Hacc.
      * intros Hno. apply accepted_validates.
        rewrite Hfile, (file_after_no_rewrite turns _ Hno).
        destruct Hheld as [-> | Hin]; [exact Hacc | destruct (Hno config Hin)].
    + rewrite Hsame in Hafter. congruence.
    + destruct (Hnot written eq_refl).
  - intros env opts w turns more ws Htrue.
    pose proof (reached_at_rest env opts w turns) as Hp.
    apply (play_never_back env opts more ws _ Hp).
    + destruct Hp as [(_ & _ & Hk & _) _].
      unfold session_flag in Htrue.
      destruct (map_get ws
                  (clients (fst (Turns.state (Turns.play env turns (Turns.boot opts w))))))
        as [c |] eqn:E; [| discriminate].
      exact (Hk ws c E).
    + rewrite Htrue. discriminate.
  - intros env this w ws c rawMessage message tok w1 Hget Hparse Htype Htok Hval.
    destruct (failed_auth_run this ws c rawMessage message tok env w w1
                Hget Hparse Htype Htok Hval)
      as (w' & response & entry & Hrun & Htrace & Hpayload & _).
    exists w', response. split; [| split; [| split]].
    + cbn [Turns.call]. rewrite uninterrupted_ws_message, Hrun. reflexivity.
    + rewrite Htrace. apply in_or_app. right. cbn [In]. auto.
    + exact Hpayload.
    + unfold session_flag. cbn [fst]. rewrite Hget. reflexivity.
Qed.

(** On the sample server the guest sends the stored token and, before the
    answer has come, asks for the status.  The status is refused with
    NOT_AUTHENTICATED, the one message sent so far; the flag is still
    false when the handler of the [auth] frame has gone on three times,
    and the turn that raises it is a turn of that handler, for a token
    that validates. *)
Lemma authenticated_flips_once_witness :
  Overtaking.sent Overtaking.process
  = [(0%nat, ErrorPayload (lit "NOT_AUTHENTICATED")
               (Literal (lit "Authentication required")))]
  /\ session_flag (Turns.state Overtaking.process) 0%nat = Some false
  /\ session_flag
       (Turns.state (Turns.turn Sample.env (Turns.Resume 1) Overtaking.process))
       0%nat
     = Some true
  /\ (exists rawMessage message tok,
        runs_for Overtaking.process (Turns.Resume 1) = Some (Frame 0%nat rawMessage)
        /\ Json.parse rawMessage = Some message
        /\ Json.get message (lit "type") = Some (Json.Str (lit "auth"))
        /\ Json.get message (lit "token") = Some tok
        /\ Token.validateToken tok Sample.env (Turns.world Overtaking.process)
           = (Ret true, add_event Await (Turns.world Overtaking.process))).
Proof.
  split; [vm_compute; reflexivity |].
  split; [vm_compute; reflexivity |].
  split; [vm_compute; reflexivity |].
  destruct (proj1 (proj2 authenticated_flips_once) Sample.env
              Sample.options_remote Sample.world_ab Overtaking.turns
              (Turns.Resume 1) 0%nat)
    as (rawMessage & message & tok & config & Hruns & Hparse & Htype & Htok
        & _ & _ & Hnow);
    [vm_compute; reflexivity | vm_compute; reflexivity |].
  exists rawMessage, message, tok. repeat (split; [assumption |]).
  apply Hnow. intros written Hin.
  repeat (destruct Hin as [Hin | Hin]; [discriminate Hin |]). exact Hin.
Defined.

End SessionsOfTurns.

(** *** The file, the listening socket and the sockets that throw *)

Section ServerOfTurns.

Import Server Guarantees.

(** X14.  No turn of the server writes the credential file.  Along any
    play of a new server, whatever the clients send, whenever the server is
    started or stopped and however the handlers take turns, the file holds
    what another process wrote to it last, and what it held at first when
    none did: then [validateToken] answers as before.  In this program
    only [getOrCreateToken] and [rotateToken] change the credential. *)
Theorem server_never_writes_credential
        (env : Oracle) (opts : RemoteServerOptions) (w : World)
        (turns : list Turns.Turn) :
  disk (Turns.world (Turns.play env turns (Turns.boot opts w)))
  = file_after turns (disk w)
  /\ ((forall written, ~ In (Turns.Rewrite written) turns) ->
      disk (Turns.world (Turns.play env turns (Turns.boot opts w))) = disk w
      /\ forall v later_env,
          fst (Token.validateToken v later_env
                 (Turns.world (Turns.play env turns (Turns.boot opts w))))
          = fst (Token.validateToken v later_env w)).
Proof.
  assert (H : disk (Turns.world (Turns.play env turns (Turns.boot opts w)))
              = file_after turns (disk w)).
  { exact (play_file env opts turns _ (boot_sound (fun _ => True) opts w I)). }
  split; [exact H |].
  intros Hno. rewrite (file_after_no_rewrite turns _ Hno) in H.
  split; [exact H |].
  intros v later_env. apply validateToken_reads_disk. exact H.
Qed.

(** X16.  Between any two turns of a play of a new server, [getState]
    answers null exactly when the server is not listening; otherwise its
    snapshot says [running], counts the sessions of the registry, and names
    the host of the listening socket and the port of the options.  That is
    the port the socket is bound to unless the options ask for port 0: the
    socket is then bound to the port the runtime picked, and the snapshot
    says 0.  [getState] changes nothing. *)
Theorem getState_agrees_with_socket
        (env : Oracle) (opts : RemoteServerOptions) (w : World)
        (turns : list Turns.Turn) (later_env : Oracle) :
  exists answer,
    getState (Turns.this_server (Turns.play env turns (Turns.boot opts w)))
      later_env (Turns.world (Turns.play env turns (Turns.boot opts w)))
    = (Ret answer, Turns.world (Turns.play env turns (Turns.boot opts w)))
    /\ (answer = None
        <-> server (Turns.this_server (Turns.play env turns (Turns.boot opts w)))
            = None)
    /\ forall snapshot,
        answer = Some snapshot ->
        exists listening,
          server (Turns.this_server (Turns.play env turns (Turns.boot opts w)))
          = Some listening
          /\ host snapshot = listen_hostname listening
          /\ port snapshot = opt_port opts
          /\ (opt_port opts <> 0 -> port snapshot = bound_port env listening)
          /\ (opt_port opts = 0 -> bound_port env listening = ephemeral_port env)
          /\ running snapshot = true
          /\ connectedClients snapshot
             = Z.of_nat
                 (List.length
                    (clients
                       (Turns.this_server
                          (Turns.play env turns (Turns.boot opts w))))).
Proof.
  destruct (reached_at_rest env opts w turns) as [(_ & Ho & _ & Hc) _].
  destruct (Turns.play env turns (Turns.boot opts w)) as [this w' calls].
  cbn [Turns.state Turns.this_server Turns.world fst snd] in *.
  unfold Facts.coherent in Hc.
  rewrite getState_run. eexists. split; [reflexivity |].
  destruct (server this) as [listening |].
  - destruct Hc as (Hh & Hp & Ht).
    destruct (server_startedAt this) as [started |]; [| contradiction].
    split; [split; discriminate |].
    intros snapshot H. injection H as <-. exists listening.
    cbn [host port running connectedClients]. rewrite Ho in *.
    split; [reflexivity |]. split; [auto |]. split; [reflexivity |].
    unfold bound_port. rewrite Hp.
    split; [| split; [| auto]].
    + intros Hne. destruct (Z.eqb_spec (opt_port opts) 0); [contradiction | reflexivity].
    + intros ->. reflexivity.
  - split; [split; reflexivity |]. intros snapshot H. discriminate H.
Qed.

(** X20.  A socket that throws when the server sends on it or closes it
    changes nothing: every [send] and every [close] of [stop] catches what
    the socket throws, so a play of a new server, however the handlers
    take turns, ends in the same registry, the same audit log, the same
    calls and the same handlers waiting, whichever sockets fail. *)
Theorem broken_socket_changes_nothing
        (f : Ws -> bool) (env : Oracle) (opts : RemoteServerOptions) (w : World)
        (turns : list Turns.Turn) :
  Turns.play (Facts.with_sock_throws f env) turns (Turns.boot opts w)
  = Turns.play env turns (Turns.boot opts w).
Proof. apply play_blind. constructor. Qed.

End ServerOfTurns.


(** ** The arguments of the command *)

Section ListenArguments.

Import Facts.

Lemma scan_flag (arg : jsstring) (rest : list jsstring)
      (options : Listen.ParsedOptions) :
  string_eqb arg (lit "--port") = false ->
  Listen.scan (arg :: rest) options = Listen.scan rest (Listen.flag arg options).
Proof.
  intros H. destruct rest as [| value rest']; cbn [Listen.scan].
  - reflexivity.
  - rewrite H. reflexivity.
Qed.

Lemma scan_port_last (options : Listen.ParsedOptions) :
  Listen.scan [lit "--port"] options = Listen.Returned options.
Proof. reflexivity. Qed.

Lemma scan_port_empty (rest : list jsstring) (options : Listen.ParsedOptions) :
  Listen.scan (lit "--port" :: [] :: rest) options = Listen.scan rest options.
Proof.
  change (Listen.scan (lit "--port" :: [] :: rest) options)
    with (Listen.scan ([] :: rest) (Listen.flag (lit "--port") options)).
  rewrite scan_flag by reflexivity. reflexivity.
Qed.

Lemma strlen_nonempty (s : jsstring) : s <> [] -> (strlen s =? 0) = false.
Proof.
  intros H. destruct s as [| c r]; [congruence |].
  apply Z.eqb_neq. unfold strlen. cbn [List.length]. lia.
Qed.

Lemma scan_port_value (value : jsstring) (rest : list jsstring)
      (options : Listen.ParsedOptions) :
  value <> [] ->
  Listen.scan (lit "--port" :: value :: rest) options
  = match Listen.parseInt10 value with
    | Int port =>
        if (0 <? port) && (port <? 65536)
        then Listen.scan rest (Listen.set_port port options)
        else Listen.Exited (lit "Invalid port: " ++ value) 1
    | NaN => Listen.Exited (lit "Invalid port: " ++ value) 1
    end.
Proof.
  intros H. cbn [Listen.scan]. rewrite (strlen_nonempty value H).
  rewrite string_eqb_refl. reflexivity.
Qed.

Lemma scan_flags (pre more : list jsstring) :
  forall options,
    ~ In (lit "--port") pre ->
    Listen.scan (pre ++ more) options
    = Listen.scan more (fold_left (fun o arg => Listen.flag arg o) pre options).
Proof.
  induction pre as [| arg rest IH]; intros options Hnot; cbn [app fold_left].
  - reflexivity.
  - rewrite scan_flag.
    + apply IH. intros Hin. apply Hnot. right. exact Hin.
    + destruct (string_eqb arg (lit "--port")) eqn:E; [| reflexivity].
      apply string_eqb_eq in E. exfalso. apply Hnot. left. congruence.
Qed.

Lemma flag_port (arg : jsstring) (o : Listen.ParsedOptions) :
  Listen.parsed_port (Listen.flag arg o) = Listen.parsed_port o.
Proof.
  unfold Listen.flag.
  repeat match goal with
         | |- context [if ?b then _ else _] => destruct b
         end; reflexivity.
Qed.

Lemma flag_daemon (arg : jsstring) (o : Listen.ParsedOptions) :
  Listen.parsed_daemon (Listen.flag arg o)
  = if existsb (string_eqb arg) [lit "--daemon"; lit "-d"]
    then Some true else Listen.parsed_daemon o.
Proof.
  unfold Listen.flag. cbn [existsb]. rewrite orb_false_r.
  repeat match goal with
         | |- context [if ?b then _ else _] => destruct b
         end; reflexivity.
Qed.

Lemma flag_rotateToken (arg : jsstring) (o : Listen.ParsedOptions) :
  Listen.parsed_rotateToken (Listen.flag arg o)
  = if existsb (string_eqb arg) [lit "--rotate-token"]
    then Some true else Listen.parsed_rotateToken o.
Proof.
  unfold Listen.flag. cbn [existsb]. rewrite orb_false_r.
  destruct (string_eqb arg (lit "--daemon")) eqn:E1;
    [apply string_eqb_eq in E1; subst arg; reflexivity |].
  destruct (string_eqb arg (lit "-d")) eqn:E2;
    [apply string_eqb_eq in E2; subst arg; reflexivity |].
  cbn [orb].
  destruct (string_eqb arg (lit "--rotate-token")); [reflexivity |].
  destruct (string_eqb arg (lit "--help") || string_eqb arg (lit "-h"));
    reflexivity.
Qed.

Lemma flag_help (arg : jsstring) (o : Listen.ParsedOptions) :
  Listen.parsed_help (Listen.flag arg o)
  = if existsb (string_eqb arg) [lit "--help"; lit "-h"]
    then Some true else Listen.parsed_help o.
Proof.
  unfold Listen.flag. cbn [existsb]. rewrite orb_false_r.
  destruct (string_eqb arg (lit "--daemon")) eqn:E1;
    [apply string_eqb_eq in E1; subst arg; reflexivity |].
  destruct (string_eqb arg (lit "-d")) eqn:E2;
    [apply string_eqb_eq in E2; subst arg; reflexivity |].
  cbn [orb].
  destruct (string_eqb arg (lit "--rotate-token")) eqn:E3;
    [apply string_eqb_eq in E3; subst arg; reflexivity |].
  destruct (string_eqb arg (lit "--help") || string_eqb arg (lit "-h"));
    reflexivity.
Qed.

(** *** The port *)

Lemma scan_port_range (n : nat) :
  forall args o o',
    (List.length args <= n)%nat ->
    (forall p, Listen.parsed_port o = Some p -> 0 < p < 65536) ->
    Listen.scan args o = Listen.Returned o' ->
    forall p, Listen.parsed_port o' = Some p -> 0 < p < 65536.
Proof.
  induction n as [| n IH]; intros args o o' Hlen Ho Hscan.
  - destruct args; [| cbn in Hlen; lia].
    cbn in Hscan. injection Hscan as <-. exact Ho.
  - destruct args as [| arg rest]; [cbn in Hscan; injection Hscan as <-; exact Ho |].
    cbn [List.length] in Hlen.
    assert (Hflag : Listen.scan rest (Listen.flag arg o) = Listen.Returned o' ->
                    forall p, Listen.parsed_port o' = Some p -> 0 < p < 65536).
    { intros H. apply (IH rest (Listen.flag arg o) o'); [lia | | exact H].
      intros p. rewrite flag_port. apply Ho. }
    destruct rest as [| value rest']; [exact (Hflag Hscan) |].
    cbn [Listen.scan] in Hscan.
    destruct (string_eqb arg (lit "--port") && negb (strlen value =? 0));
      [| exact (Hflag Hscan)].
    destruct (Listen.parseInt10 value) as [| port]; [discriminate |].
    destruct ((0 <? port) && (port <? 65536)) eqn:Hok; [| discriminate].
    apply andb_prop in Hok. destruct Hok as [H0 H1].
    apply (IH rest' (Listen.set_port port o) o'); [cbn [List.length] in Hlen; lia | | exact Hscan].
    intros p Hp. cbn in Hp. injection Hp as <-.
    apply Z.ltb_lt in H0. apply Z.ltb_lt in H1. lia.
Qed.

(** X21.  A port that [parseListenArgs] returns is a TCP port number: it
    lies between 1 and 65535.  So does the port the command listens on, the
    one of the arguments or else the default 7890. *)
Theorem listen_port_in_range (args : list jsstring) (o : Listen.ParsedOptions) :
  Listen.parseListenArgs args = Listen.Returned o ->
  (forall p, Listen.parsed_port o = Some p -> 0 < p < 65536)
  /\ 0 < Listen.port (Listen.with_defaults o) < 65536.
Proof.
  intros H.
  assert (Hp : forall p, Listen.parsed_port o = Some p -> 0 < p < 65536).
  { apply (scan_port_range (List.length args) args Listen.no_options o);
      [lia | discriminate | exact H]. }
  split; [exact Hp |].
  unfold Listen.with_defaults. cbn [Listen.port].
  destruct (Listen.parsed_port o) as [p |]; [apply Hp; reflexivity |].
  cbn. lia.
Qed.

Lemma listen_port_in_range_witness :
  (forall p,
      Listen.parsed_port
        {| Listen.parsed_port := Some 8080; Listen.parsed_daemon := Some true;
           Listen.parsed_rotateToken := None; Listen.parsed_help := None |}
      = Some p -> 0 < p < 65536)
  /\ 0 < Listen.port
           (Listen.with_defaults
              {| Listen.parsed_port := Some 8080; Listen.parsed_daemon := Some true;
                 Listen.parsed_rotateToken := None; Listen.parsed_help := None |})
     < 65536.
Proof.
  apply (listen_port_in_range [lit "-d"; lit "--port"; lit "8080"]).
  reflexivity.
Defined.

(** X22.  A [--port] whose value is not a number between 1 and 65535 ends
    the process with code 1, after [Invalid port: ] and the value on the
    standard error, whatever flags come before and whatever comes after;
    the value is taken as it stands, also when it is itself a flag. *)
Theorem invalid_port_exits
        (pre : list jsstring) (value : jsstring) (rest : list jsstring) :
  ~ In (lit "--port") pre ->
  value <> [] ->
  (forall p, Listen.parseInt10 value = Int p -> p <= 0 \/ 65536 <= p) ->
  Listen.parseListenArgs (pre ++ lit "--port" :: value :: rest)
  = Listen.Exited (lit "Invalid port: " ++ value) 1.
Proof.
  intros Hpre Hvalue Hbad. unfold Listen.parseListenArgs.
  rewrite (scan_flags pre _ _ Hpre), (scan_port_value _ _ _ Hvalue).
  destruct (Listen.parseInt10 value) as [| port]; [reflexivity |].
  destruct (Hbad port eq_refl) as [H | H].
  - replace (0 <? port) with false by (symmetry; apply Z.ltb_ge; lia).
    reflexivity.
  - replace (port <? 65536) with false by (symmetry; apply Z.ltb_ge; lia).
    rewrite andb_false_r. reflexivity.
Qed.

Lemma invalid_port_exits_witness :
  Listen.parseListenArgs
    ([lit "-d"] ++ lit "--port" :: lit "--help" :: [lit "--port"; lit "80"])
  = Listen.Exited (lit "Invalid port: " ++ lit "--help") 1.
Proof.
  apply (invalid_port_exits [lit "-d"] (lit "--help") [lit "--port"; lit "80"]).
  - cbn. intros [H | []]. discriminate H.
  - discriminate.
  - intros p H. vm_compute in H. discriminate H.
Defined.

(** *** The flags *)

Lemma fold_flag_port (args : list jsstring) :
  forall o,
    Listen.parsed_port (fold_left (fun o arg => Listen.flag arg o) args o)
    = Listen.parsed_port o.
Proof.
  induction args as [| arg rest IH]; intros o; cbn [fold_left].
  - reflexivity.
  - rewrite IH. apply flag_port.
Qed.

Lemma given_cons (spellings : list jsstring) (arg : jsstring)
      (rest : list jsstring) :
  given spellings (arg :: rest)
  = if existsb (string_eqb arg) spellings then Some true else given spellings rest.
Proof.
  unfold given.
  change (existsb (fun a => existsb (string_eqb a) spellings) (arg :: rest))
    with (existsb (string_eqb arg) spellings
          || existsb (fun a => existsb (string_eqb a) spellings) rest).
  destruct (existsb (string_eqb arg) spellings); reflexivity.
Qed.

Lemma fold_flag_daemon (args : list jsstring) :
  forall o,
    Listen.parsed_daemon (fold_left (fun o arg => Listen.flag arg o) args o)
    = match given [lit "--daemon"; lit "-d"] args with
      | Some _ => Some true
      | None => Listen.parsed_daemon o
      end.
Proof.
  induction args as [| arg rest IH]; intros o; cbn [fold_left].
  - reflexivity.
  - rewrite IH, given_cons, flag_daemon.
    destruct (existsb (string_eqb arg) [lit "--daemon"; lit "-d"]);
      destruct (given _ rest); reflexivity.
Qed.

Lemma fold_flag_rotateToken (args : list jsstring) :
  forall o,
    Listen.parsed_rotateToken (fold_left (fun o arg => Listen.flag arg o) args o)
    = match given [lit "--rotate-token"] args with
      | Some _ => Some true
      | None => Listen.parsed_rotateToken o
      end.
Proof.
  induction args as [| arg rest IH]; intros o; cbn [fold_left].
  - reflexivity.
  - rewrite IH, given_cons, flag_rotateToken.
    destruct (existsb (string_eqb arg) [lit "--rotate-token"]);
      destruct (given _ rest); reflexivity.
Qed.

Lemma fold_flag_help (args : list jsstring) :
  forall o,
    Listen.parsed_help (fold_left (fun o arg => Listen.flag arg o) args o)
    = match given [lit "--help"; lit "-h"] args with
      | Some _ => Some true
      | None => Listen.parsed_help o
      end.
Proof.
  induction args as [| arg rest IH]; intros o; cbn [fold_left].
  - reflexivity.
  - rewrite IH, given_cons, flag_help.
    destruct (existsb (string_eqb arg) [lit "--help"; lit "-h"]);
      destruct (given _ rest); reflexivity.
Qed.

Lemma scan_all_flags (args : list jsstring) :
  forall o,
    no_port_value args ->
    Listen.scan args o
    = Listen.Returned (fold_left (fun o arg => Listen.flag arg o) args o).
Proof.
  induction args as [| arg rest IH]; intros o Hno; [reflexivity |].
  assert (Hrest : no_port_value rest).
  { intros pre value rest' E. apply (Hno (arg :: pre) value rest').
    rewrite E. reflexivity. }
  cbn [fold_left]. rewrite <- (IH _ Hrest).
  destruct (string_eqb arg (lit "--port")) eqn:E; [| apply scan_flag; exact E].
  apply string_eqb_eq in E. subst arg.
  destruct rest as [| value rest']; [reflexivity |].
  rewrite (Hno [] value rest' eq_refl).
  rewrite scan_port_empty.
  change (Listen.flag (lit "--port") o) with o.
  symmetry. apply scan_flag. reflexivity.
Qed.

(** X23.  When no [--port] has a value (there is none, or it comes last,
    or before an empty string), [parseListenArgs] returns, with no port and
    with each flag set exactly when one of its spellings is among the
    arguments: the order of the flags and their repetition do not count,
    unknown arguments are passed over, and a [--port] without value is
    passed over like them. *)
Theorem flags_reflect_arguments (args : list jsstring) :
  no_port_value args ->
  Listen.parseListenArgs args
  = Listen.Returned
      {| Listen.parsed_port := None;
         Listen.parsed_daemon := given [lit "--daemon"; lit "-d"] args;
         Listen.parsed_rotateToken := given [lit "--rotate-token"] args;
         Listen.parsed_help := given [lit "--help"; lit "-h"] args |}.
Proof.
  intros Hno. unfold Listen.parseListenArgs.
  rewrite (scan_all_flags args _ Hno). f_equal.
  pose proof (fold_flag_port args Listen.no_options) as Hp.
  pose proof (fold_flag_daemon args Listen.no_options) as Hd.
  pose proof (fold_flag_rotateToken args Listen.no_options) as Hr.
  pose proof (fold_flag_help args Listen.no_options) as Hh.
  destruct (fold_left _ args Listen.no_options) as [p d r h].
  cbn in Hp, Hd, Hr, Hh. subst p d r h.
  f_equal.
  - unfold given. destruct (existsb _ args); reflexivity.
  - unfold given. destruct (existsb _ args); reflexivity.
  - unfold given. destruct (existsb _ args); reflexivity.
Qed.

Lemma flags_reflect_arguments_witness :
  Listen.parseListenArgs
    [lit "-h"; lit "verbose"; lit "--daemon"; lit "-d"; lit "--port"]
  = Listen.Returned
      {| Listen.parsed_port := None;
         Listen.parsed_daemon := Some true;
         Listen.parsed_rotateToken := None;
         Listen.parsed_help := Some true |}.
Proof.
  apply (flags_reflect_arguments
           [lit "-h"; lit "verbose"; lit "--daemon"; lit "-d"; lit "--port"]).
  intros pre value rest E.
  destruct pre as [| a0 [| a1 [| a2 [| a3 [| a4 [| a5 pre]]]]]];
    cbn in E; try discriminate E; injection E; intros; discriminate.
Defined.

(** *** What [parseInt] makes of the value *)

Lemma span_digits_app (s junk : jsstring) :
  no_digit_ahead junk ->
  fst (Json.span_digits s) <> [] ->
  fst (Json.span_digits (s ++ junk)) = fst (Json.span_digits s).
Proof.
  intros Hjunk. induction s as [| c r IH]; cbn [app Json.span_digits fst].
  - congruence.
  - intros _. destruct (Json.is_digit c); [| reflexivity].
    assert (E : fst (Json.span_digits (r ++ junk)) = fst (Json.span_digits r)).
    { destruct r as [| c' r'].
      - cbn [app]. destruct junk as [| j junk']; [reflexivity |].
        cbn in Hjunk. cbn [Json.span_digits]. rewrite Hjunk. reflexivity.
      - destruct (Json.is_digit c') eqn:Ec'.
        + apply IH. cbn [Json.span_digits]. rewrite Ec'.
          destruct (Json.span_digits r'). cbn. discriminate.
        + cbn [app Json.span_digits]. rewrite Ec'. reflexivity. }
    destruct (Json.span_digits (r ++ junk)) as [d1 r1].
    destruct (Json.span_digits r) as [d2 r2]. cbn [fst] in *. congruence.
Qed.

Lemma trim_start_app (s junk : jsstring) :
  Listen.trim_start s <> [] ->
  Listen.trim_start (s ++ junk) = Listen.trim_start s ++ junk.
Proof.
  induction s as [| c r IH]; cbn [app Listen.trim_start]; [congruence |].
  destruct (Listen.is_white_space c); [exact IH | reflexivity].
Qed.

Lemma parseInt10_app (s junk : jsstring) (p : Z) :
  no_digit_ahead junk ->
  Listen.parseInt10 s = Int p ->
  Listen.parseInt10 (s ++ junk) = Int p.
Proof.
  intros Hjunk. unfold Listen.parseInt10.
  destruct (Listen.trim_start s) as [| c r] eqn:Et; [discriminate |].
  rewrite trim_start_app by (rewrite Et; discriminate).
  rewrite Et. cbn [app]. cbv zeta.
  destruct ((c =? 43) || (c =? 45)).
  - destruct (fst (Json.span_digits r)) eqn:Ed; [discriminate |].
    rewrite span_digits_app by (try exact Hjunk; rewrite Ed; discriminate).
    rewrite Ed. auto.
  - change (c :: r ++ junk) with ((c :: r) ++ junk).
    destruct (fst (Json.span_digits (c :: r))) eqn:Ed; [discriminate |].
    rewrite span_digits_app by (try exact Hjunk; rewrite Ed; discriminate).
    rewrite Ed. auto.
Qed.

(** X24.  The value of [--port] is read as [parseInt] reads it: once its
    digits are read, what follows them is not looked at.  A value that
    gives a port still gives that port with any text after it that does
    not go on with a digit. *)
Theorem port_value_read_leniently
        (value junk : jsstring) (o : Listen.ParsedOptions) :
  value <> [] ->
  no_digit_ahead junk ->
  Listen.parseListenArgs [lit "--port"; value] = Listen.Returned o ->
  Listen.parseListenArgs [lit "--port"; value ++ junk] = Listen.Returned o.
Proof.
  intros Hvalue Hjunk. unfold Listen.parseListenArgs.
  assert (Hlong : value ++ junk <> []).
  { destruct value; [congruence | discriminate]. }
  rewrite (scan_port_value _ _ _ Hvalue), (scan_port_value _ _ _ Hlong).
  destruct (Listen.parseInt10 value) as [| p] eqn:Ep; [discriminate |].
  rewrite (parseInt10_app value junk p Hjunk Ep).
  destruct ((0 <? p) && (p <? 65536)); [auto | discriminate].
Qed.

Lemma port_value_read_leniently_witness :
  Listen.parseListenArgs [lit "--port"; lit " +8080" ++ lit "abc"]
  = Listen.Returned (Listen.set_port 8080 Listen.no_options).
Proof.
  apply (port_value_read_leniently (lit " +8080") (lit "abc")).
  - discriminate.
  - reflexivity.
  - reflexivity.
Defined.

(** *** The arguments of the daemon *)

Lemma decimal_digits_value (k : nat) :
  forall n acc,
    0 <= n < 2 ^ Z.of_nat k ->
    fold_left (fun a c => a * 10 + (c - 48)) (Listen.decimal_digits k n acc) 0
    = fold_left (fun a c => a * 10 + (c - 48)) acc n.
Proof.
  induction k as [| k IH]; intros n acc Hn.
  - cbn in Hn. assert (n = 0) by lia. subst n. reflexivity.
  - cbn [Listen.decimal_digits]. cbv zeta.
    assert (Hstep : n / 10 * 10 + (48 + n mod 10 - 48) = n).
    { Z.to_euclidean_division_equations; lia. }
    destruct (n / 10 =? 0) eqn:E.
    + apply Z.eqb_eq in E. cbn [fold_left]. f_equal.
      rewrite E in Hstep. lia.
    + rewrite IH.
      * cbn [fold_left]. rewrite Hstep. reflexivity.
      * rewrite Nat2Z.inj_succ, Z.pow_succ_r in Hn by lia.
        Z.to_euclidean_division_equations; lia.
Qed.

Lemma decimal_digits_digits (k : nat) :
  forall n acc,
    Forall (fun c => Json.is_digit c = true) acc ->
    Forall (fun c => Json.is_digit c = true) (Listen.decimal_digits k n acc).
Proof.
  induction k as [| k IH]; intros n acc Hacc; cbn [Listen.decimal_digits];
    [exact Hacc |].
  cbv zeta.
  assert (H : Forall (fun c => Json.is_digit c = true) ((48 + n mod 10) :: acc)).
  { constructor; [| exact Hacc]. unfold Json.is_digit.
    apply andb_true_intro. split; apply Z.leb_le;
      Z.to_euclidean_division_equations; lia. }
  destruct (n / 10 =? 0); [exact H | apply IH; exact H].
Qed.

Lemma decimal_digits_nonempty (k : nat) :
  forall n acc, acc <> [] -> Listen.decimal_digits k n acc <> [].
Proof.
  induction k as [| k IH]; intros n acc Hacc; cbn [Listen.decimal_digits];
    [exact Hacc |].
  cbv zeta. destruct (n / 10 =? 0); [discriminate | apply IH; discriminate].
Qed.

Lemma span_digits_all (s : jsstring) :
  Forall (fun c => Json.is_digit c = true) s -> Json.span_digits s = (s, []).
Proof.
  induction 1 as [| c r Hc Hr IH]; cbn [Json.span_digits]; [reflexivity |].
  rewrite Hc, IH. reflexivity.
Qed.

Lemma digit_not_space (c : Z) :
  Json.is_digit c = true ->
  Listen.is_white_space c = false /\ (c =? 43) = false /\ (c =? 45) = false.
Proof.
  unfold Json.is_digit, Listen.is_white_space. intros H.
  apply andb_prop in H. destruct H as [H1 H2].
  apply Z.leb_le in H1. apply Z.leb_le in H2.
  repeat rewrite (proj2 (Z.eqb_neq c _)) by lia.
  replace (8192 <=? c) with false by (symmetry; apply Z.leb_gt; lia).
  auto.
Qed.

Lemma parseInt10_digits (s : jsstring) :
  Forall (fun c => Json.is_digit c = true) s ->
  s <> [] ->
  Listen.parseInt10 s = Int (Listen.digits_value s).
Proof.
  intros Hall Hne. destruct s as [| c r]; [congruence |].
  pose proof (span_digits_all _ Hall) as Hspan.
  inversion Hall as [| ? ? Hc Hr]; subst.
  destruct (digit_not_space c Hc) as (Hw & Hplus & Hminus).
  unfold Listen.parseInt10. cbn [Listen.trim_start]. rewrite Hw. cbv zeta.
  rewrite Hplus, Hminus. cbn [orb]. rewrite Hspan. cbn [fst].
  f_equal. lia.
Qed.

Lemma parseInt10_toString (n : Z) :
  0 <= n ->
  Listen.parseInt10 (Listen.number_toString n) = Int n
  /\ Listen.number_toString n <> [].
Proof.
  intros Hn. unfold Listen.number_toString.
  replace (n <? 0) with false by (symmetry; apply Z.ltb_ge; lia).
  assert (Hne : Listen.decimal_digits (S (Z.to_nat (Z.log2 n))) n [] <> []).
  { cbn [Listen.decimal_digits]. cbv zeta.
    destruct (n / 10 =? 0); [discriminate |].
    apply decimal_digits_nonempty. discriminate. }
  split; [| exact Hne].
  rewrite parseInt10_digits;
    [| apply decimal_digits_digits; constructor | exact Hne].
  f_equal. unfold Listen.digits_value. rewrite decimal_digits_value.
  - reflexivity.
  - rewrite Nat2Z.inj_succ, Z2Nat.id by apply Z.log2_nonneg.
    destruct (Z.eq_dec n 0) as [-> | Hpos]; [cbn; lia |].
    pose proof (Z.log2_spec n) as Hspec. lia.
Qed.

(** X25.  The daemon gets the port of its parent: the arguments that
    [forkAsDaemon] writes for a port between 1 and 65535, its decimal
    digits after [--port], are read back by [parseListenArgs] as that port
    and nothing else, with or without the leading [listen]. *)
Theorem daemon_arguments_round_trip (p : Z) :
  0 < p < 65536 ->
  Listen.parseListenArgs (Listen.daemon_args p)
  = Listen.Returned (Listen.set_port p Listen.no_options)
  /\ Listen.parseListenArgs (tl (Listen.daemon_args p))
     = Listen.Returned (Listen.set_port p Listen.no_options).
Proof.
  intros Hp.
  destruct (parseInt10_toString p) as [Hparse Hne]; [lia |].
  assert (H : Listen.scan [lit "--port"; Listen.number_toString p] Listen.no_options
              = Listen.Returned (Listen.set_port p Listen.no_options)).
  { rewrite (scan_port_value _ _ _ Hne), Hparse.
    replace (0 <? p) with true by (symmetry; apply Z.ltb_lt; lia).
    replace (p <? 65536) with true by (symmetry; apply Z.ltb_lt; lia).
    reflexivity. }
  split; [| exact H].
  unfold Listen.parseListenArgs, Listen.daemon_args.
  rewrite scan_flag by reflexivity. exact H.
Qed.

Lemma daemon_arguments_round_trip_witness :
  Listen.parseListenArgs [lit "listen"; lit "--port"; lit "7890"]
  = Listen.Returned (Listen.set_port 7890 Listen.no_options)
  /\ Listen.parseListenArgs [lit "--port"; lit "7890"]
     = Listen.Returned (Listen.set_port 7890 Listen.no_options).
Proof.
  apply (daemon_arguments_round_trip 7890). lia.
Defined.

End ListenArguments.
